(** * Marionette ViewMixin: lifecycle, event composition and cascading

    A shallow embedding of [src/mixins/view.js].  Views and the regions
    that hold them are objects of a store; the methods of the mixin are
    computations over that store, in a monad with a log, exceptions and
    divergence.

    Everything the mixin calls but does not define (the behaviors, UI,
    triggers, common and entity-event mixins, Backbone, underscore, the
    user's handlers) is a collaborator.  The model performs such a call
    through one abstract interpreter, [perform], and records it in the log
    together with its completion; the assignments of the mixin are
    recorded as well.

    The mixin is embedded twice.  In the first part a collaborator sees
    the store, keeps what it changes in an environment of its own, and
    either returns a value or throws: the properties that the mixin reads
    or writes are changed by the assignments of the mixin only.  That is
    how the collaborators behave on which the statements of that part
    bear.  In the second part ([Open]) a collaborator hands back the
    store it leaves and may have written any property of any object, as
    a region does that lets go of a view while the view is destroyed; the
    dispatch of an event and [destroy] are taken up there again, and the
    first embedding is shown to be the second one at collaborators that
    write nothing.

    The event name of [triggerMethod] is a string and the values are the
    ones of [Val]; what JavaScript would do with other arguments (an
    event name that is not a string, a hash that is a host object) is
    outside the model. *)

From Stdlib Require Import String Ascii List Bool Arith Lia.
Import ListNotations.
Local Open Scope string_scope.
Local Open Scope list_scope.
#[local] Set Warnings "-register-all".

(** ** JavaScript values *)

(** The values the mixin passes around.  A function is known by its
    identity only; a plain object (an [events] hash, a [triggers] hash) is
    the list of its own enumerable properties in insertion order. *)
Inductive Val : Type :=
| VUndefined
| VNull
| VBool (b : bool)
| VNum (n : nat)
| VStr (s : string)
| VFun (f : nat)
| VObj (props : list (string * Val)).

(** ToBoolean, as [!!x], [if (x)] and [x || y] apply it. *)
Definition truthy (x : Val) : bool :=
  match x with
  | VUndefined | VNull => false
  | VBool b => b
  | VNum n => negb (Nat.eqb n 0)
  | VStr s => negb (String.eqb s "")
  | VFun _ | VObj _ => true
  end.

(** [_.isFunction], [_.isString] and [typeof x === 'undefined']. *)
Definition isFunction (x : Val) : bool :=
  match x with VFun _ => true | _ => false end.

Definition isString (x : Val) : bool :=
  match x with VStr _ => true | _ => false end.

Definition isUndefined (x : Val) : bool :=
  match x with VUndefined => true | _ => false end.

(** [a || b] *)
Definition js_or (a b : Val) : Val := if truthy a then a else b.

(** ** Property hashes *)

Definition Props := list (string * Val).

Fixpoint lookup_prop (k : string) (ps : Props) : option Val :=
  match ps with
  | [] => None
  | (k', x) :: ps' => if String.eqb k k' then Some x else lookup_prop k ps'
  end.

(** [obj[k] = x]: an existing key keeps its place, a new one goes last. *)
Fixpoint assign_prop (k : string) (x : Val) (ps : Props) : Props :=
  match ps with
  | [] => [(k, x)]
  | (k', y) :: ps' =>
      if String.eqb k k' then (k', x) :: ps' else (k', y) :: assign_prop k x ps'
  end.

(** The own enumerable properties of a value: only hashes have any. *)
Definition props_of (x : Val) : Props :=
  match x with VObj ps => ps | _ => [] end.

(** [x[k]] for the own properties of a hash, as [_.extend] reads the keys
    it enumerates and as the statements below read the fields of an error:
    a key that is not among them gives [undefined]. *)
Definition get_prop (x : Val) (k : string) : Val :=
  match lookup_prop k (props_of x) with Some y => y | None => VUndefined end.

(** [x[k]] for any key.  An own property of a hash is read as above.
    Under any other key JavaScript goes on to what the value has beyond its
    own enumerable properties: the members of its prototype chain (a plain
    hash has [toString], [constructor] and the other functions of
    [Object.prototype]), the characters and the length of a string, the
    name of a function.  That part belongs to the engine and to whoever
    has touched the prototypes, so it is a parameter, [inherited]. *)
Definition member (inherited : Val -> string -> Val) (x : Val) (k : string)
  : Val :=
  match lookup_prop k (props_of x) with Some y => y | None => inherited x k end.

(** One source of underscore's [_.extend]: for every key of the source,
    in order, [obj[key] = source[key]]. *)
Definition extend_one (target : Props) (source : Val) : Props :=
  fold_left (fun acc kv => assign_prop (fst kv) (get_prop source (fst kv)) acc)
            (props_of source) target.

(** [_.extend(target, ...sources)] on a fresh target hash: the sources
    are copied from left to right. *)
Definition _extend (target : Props) (sources : list Val) : Val :=
  VObj (fold_left extend_one sources target).

(** ** Objects and the store *)

(** Object identities.  A reference held by a JavaScript program always
    leads to an object, so the store is a total function. *)
Definition oid := nat.

(** The properties of a view (or of a region on the [_parent] chain) that
    the mixin reads or writes.  [instanceofView] is the answer to
    [x instanceof View]; [_parent] is [None] when the property is falsy. *)
Record Obj : Type := mkObj {
  instanceofView : bool;
  cid : string;
  _isDestroyed : bool;
  _isRendered : bool;
  _isAttached : bool;
  _parent : option oid;
  childViewEventPrefix : string;
  childViewEvents : Val;
  childViewTriggers : Val;
  _childViewEvents : Val;
  _childViewTriggers : Val;
  events : Val;
  triggers : Val;
  model : Val;
  collection : Val
}.

(** The prototype the mixin contributes (lines 11-31 and 168): what a view
    is before anything is configured on it. *)
Definition ViewMixin : Obj :=
  {| instanceofView := true;
     cid := "";
     _isDestroyed := false;
     _isRendered := false;
     _isAttached := false;
     _parent := None;
     childViewEventPrefix := "childview";
     childViewEvents := VUndefined;
     childViewTriggers := VUndefined;
     _childViewEvents := VUndefined;
     _childViewTriggers := VUndefined;
     events := VUndefined;
     triggers := VUndefined;
     model := VUndefined;
     collection := VUndefined |}.

Definition Heap := oid -> Obj.

(** The assignments the mixin makes to [this]. *)
Inductive Write : Type :=
| Set_isDestroyed (b : bool)
| Set_isRendered (b : bool)
| Set_events (x : Val)
| Set_childViewEvents (x : Val)
| Set_childViewTriggers (x : Val).

Definition apply_write (w : Write) (o : Obj) : Obj :=
  match w with
  | Set_isDestroyed b =>
      mkObj (instanceofView o) (cid o) b (_isRendered o) (_isAttached o)
            (_parent o) (childViewEventPrefix o) (childViewEvents o)
            (childViewTriggers o) (_childViewEvents o) (_childViewTriggers o)
            (events o) (triggers o) (model o) (collection o)
  | Set_isRendered b =>
      mkObj (instanceofView o) (cid o) (_isDestroyed o) b (_isAttached o)
            (_parent o) (childViewEventPrefix o) (childViewEvents o)
            (childViewTriggers o) (_childViewEvents o) (_childViewTriggers o)
            (events o) (triggers o) (model o) (collection o)
  | Set_events x =>
      mkObj (instanceofView o) (cid o) (_isDestroyed o) (_isRendered o)
            (_isAttached o) (_parent o) (childViewEventPrefix o)
            (childViewEvents o) (childViewTriggers o) (_childViewEvents o)
            (_childViewTriggers o) x (triggers o) (model o) (collection o)
  | Set_childViewEvents x =>
      mkObj (instanceofView o) (cid o) (_isDestroyed o) (_isRendered o)
            (_isAttached o) (_parent o) (childViewEventPrefix o)
            (childViewEvents o) (childViewTriggers o) x
            (_childViewTriggers o) (events o) (triggers o) (model o)
            (collection o)
  | Set_childViewTriggers x =>
      mkObj (instanceofView o) (cid o) (_isDestroyed o) (_isRendered o)
            (_isAttached o) (_parent o) (childViewEventPrefix o)
            (childViewEvents o) (childViewTriggers o) (_childViewEvents o)
            x (events o) (triggers o) (model o) (collection o)
  end.

Definition update (h : Heap) (v : oid) (o : Obj) : Heap :=
  fun x => if Nat.eqb x v then o else h x.

(** ** Collaborators *)

(** Every call the mixin makes to code outside the file, with the receiver
    and the arguments it passes.  A constructor has the name of the
    method it stands for, [this._getBehaviorEvents()] being
    [GetBehaviorEvents this]; where the mixin has a method of the same
    name without the underscore, the constructor ends with one.  The
    others are: [TriggerMethod_import], the [triggerMethod] imported from
    ['../trigger-method'] and applied to [this]; [Result_triggers],
    [_.result(this, 'triggers')]; [Backbone_delegateEvents],
    [Backbone.View.prototype.delegateEvents.call(this, events)];
    [Apply f this args], [f.apply(this, args)]. *)
Inductive Callee : Type :=
| TriggerMethod_import (this : oid) (eventName : string) (args : list Val)
| TriggerEventOnBehaviors (this : oid) (eventName : string) (args : list Val)
| ProxyBehaviorViewProperties (this : oid)
| GetValue (this : oid) (x : Val)
| NormalizeUIKeys (this : oid) (hash : Val)
| GetBehaviorEvents (this : oid)
| GetBehaviorTriggers (this : oid)
| Result_triggers (this : oid)
| GetViewTriggers (this : oid) (view : oid) (triggers : Val)
| Backbone_delegateEvents (this : oid) (events : Val)
| DelegateEntityEvents_ (this : oid) (model collection : Val)
| DelegateBehaviorEntityEvents (this : oid)
| UndelegateEntityEvents_ (this : oid) (model collection : Val)
| UndelegateBehaviorEntityEvents (this : oid)
| BindUIElements_ (this : oid)
| BindBehaviorUIElements (this : oid)
| UnbindUIElements_ (this : oid)
| UnbindBehaviorUIElements (this : oid)
| RemoveElement (this : oid)
| RemoveChildren (this : oid)
| DestroyBehaviors (this : oid) (args : list Val)
| StopListening (this : oid)
| GetUI_ (this : oid) (name : string)
| NormalizeMethods (this : oid) (hash : Val)
| Apply (f : Val) (this : oid) (args : list Val).

(** How a call ends: with a value, or with a thrown one. *)
Inductive Completion : Type :=
| Normal (x : Val)
| Thrown (e : Val).

(** What a run leaves in its log: the calls, each with its completion,
    and the assignments, in the order in which they happen. *)
Inductive Event : Type :=
| Call (c : Callee) (k : Completion)
| Assign (this : oid) (w : Write).

(** Modelled from the spec: the error class of ['../error'] is not in
    this file; an error is an error of a kind that carries the identity of
    the view, here the hash of the [name] and the [message] that
    [new MarionetteError({name: ..., message: ...})] is given. *)
Definition MarionetteError (name message : string) : Val :=
  VObj [("name", VStr name); ("message", VStr message)].

Definition dquote : string := String (ascii_of_nat 34) EmptyString.

(** Modelled from the spec: [getOption] belongs to CommonMixin, which is
    not in this file; the spec reads an option of a view as the view's
    attribute of that name ([ancestor.childViewEventPrefix]). *)
Definition getOption (o : Obj) (name : string) : Val :=
  if String.eqb name "childViewEventPrefix" then VStr (childViewEventPrefix o)
  else if String.eqb name "childViewEvents" then childViewEvents o
  else if String.eqb name "childViewTriggers" then childViewTriggers o
  else VUndefined.

(** [eventPrefix + ':' + eventName].  The prefix is a string: that is what
    the prototype and the spec's data model make it and what [getOption]
    gives for it, so the conversion that JavaScript applies to any other
    value is not needed and the second case never arises. *)
Definition prefixed (eventPrefix : Val) (eventName : string) : string :=
  match eventPrefix with
  | VStr p => p ++ ":" ++ eventName
  | _ => ":" ++ eventName
  end.

(** ** Runs *)

(** How a computation ends: it returns, it throws, or the model follows
    it no further.  The last is how the loop of [_parentView] ends on a
    [_parent] chain that is a cycle, where it never comes back, and how a
    recursion of [triggerMethod] ends that goes deeper than the bound it
    is given: an engine cuts such a recursion off at a depth of its own
    with a RangeError, about which the model says nothing. *)
Inductive Outcome (A : Type) : Type :=
| Ok (a : A)
| Throw (e : Val)
| Diverge.
Arguments Ok {A} a.
Arguments Throw {A} e.
Arguments Diverge {A}.

(** A state: the store, and whatever the collaborators keep (the DOM, the
    listeners, the state of the user's handlers). *)
Record State (Env : Type) : Type := mkState { heap : Heap; env : Env }.
Arguments mkState {Env} _ _.
Arguments heap {Env} _.
Arguments env {Env} _.

(** A run ends with an outcome in a final state and has logged the events
    it went through since it started. *)
Record Run (Env A : Type) : Type := mkRun {
  outcome : Outcome A;
  final : State Env;
  log : list Event
}.
Arguments mkRun {Env A} _ _ _.
Arguments outcome {Env A} _.
Arguments final {Env A} _.
Arguments log {Env A} _.

(** ** A small world to run the mixin in *)

Module Demo.

(** The environment counts the calls the collaborators have served. *)
Definition Env := nat.

(** Collaborators that always complete: the imported [triggerMethod]
    answers with a string naming the event it handled, the normalisers
    return the hash they are given, [_getViewTriggers] turns every trigger
    into a handler, [_getUI] answers with the selector of the name. *)
Definition answer (c : Callee) (h : Heap) : Val :=
  match c with
  | TriggerMethod_import _ eventName _ => VStr ("handled " ++ eventName)
  | GetValue _ x => x
  | NormalizeUIKeys _ hash => hash
  | GetBehaviorEvents _ => VObj [("click .b", VStr "onB")]
  | GetBehaviorTriggers _ => VObj [("click .a", VFun 8)]
  | Result_triggers this => triggers (h this)
  | GetViewTriggers _ _ t => VObj (map (fun kv => (fst kv, VFun 9)) (props_of t))
  | NormalizeMethods _ hash => hash
  | GetUI_ _ name => VStr ("." ++ name)
  | _ => VUndefined
  end.

Definition perform (c : Callee) (h : Heap) (e : Env) : Completion * Env :=
  (Normal (answer c h), S e).

(** The engine of the small worlds has the prototypes as the language
    defines them.  A plain hash inherits the functions of
    [Object.prototype], each known by an identity of its own, and reads
    [__proto__] as that prototype, which has no enumerable property. *)
Definition Object_prototype : Props :=
  [("constructor", VFun 100); ("hasOwnProperty", VFun 101);
   ("isPrototypeOf", VFun 102); ("propertyIsEnumerable", VFun 103);
   ("toLocaleString", VFun 104); ("toString", VFun 105);
   ("valueOf", VFun 106); ("__defineGetter__", VFun 107);
   ("__defineSetter__", VFun 108); ("__lookupGetter__", VFun 109);
   ("__lookupSetter__", VFun 110); ("__proto__", VObj [])].

Definition digit (c : ascii) : option nat :=
  let n := nat_of_ascii c in
  if Nat.leb 48 n && Nat.leb n 57 then Some (n - 48) else None.

Fixpoint digits (s : string) (acc : nat) : option nat :=
  match s with
  | EmptyString => Some acc
  | String c s' =>
      match digit c with
      | Some d => digits s' (10 * acc + d)
      | None => None
      end
  end.

(** An array index: a decimal numeral without a leading zero. *)
Definition array_index (k : string) : option nat :=
  match k with
  | EmptyString => None
  | String c EmptyString => digit c
  | String c _ => if Ascii.eqb c "0"%char then None else digits k 0
  end.

(** A string has its characters under their indices and its length under
    ['length'].  The methods of [String.prototype] and of the prototypes
    of numbers, booleans and functions differ from engine to engine; no
    run below reads them and they are left out. *)
Definition inherited (x : Val) (k : string) : Val :=
  match x with
  | VObj _ => get_prop (VObj Object_prototype) k
  | VStr s =>
      match array_index k with
      | Some i =>
          match String.get i s with
          | Some c => VStr (String c EmptyString)
          | None => VUndefined
          end
      | None =>
          if String.eqb k "length" then VNum (String.length s) else VUndefined
      end
  | _ => VUndefined
  end.

(** View 1 sits in region 2 of view 3; view 4 has been destroyed; view 5
    is rendered and attached and has no parent. *)
Definition child : Obj :=
  mkObj true "view1" false true false (Some 2) "childview"
        VUndefined VUndefined VUndefined VUndefined
        (VObj [("click .a", VStr "onA")]) (VObj [("click .c", VStr "trig:c")])
        VUndefined VUndefined.

Definition region : Obj :=
  mkObj false "" false false false (Some 3) ""
        VUndefined VUndefined VUndefined VUndefined
        VUndefined VUndefined VUndefined VUndefined.

Definition layout : Obj :=
  mkObj true "view3" false true true None "childview"
        VUndefined VUndefined
        (VObj [("save", VFun 5)]) (VObj [("save", VStr "child:saved")])
        VUndefined VUndefined VUndefined VUndefined.

Definition gone : Obj :=
  mkObj true "view4" true false false None "childview"
        VUndefined VUndefined VUndefined VUndefined
        VUndefined VUndefined VUndefined VUndefined.

Definition attached : Obj :=
  mkObj true "view5" false true true None "childview"
        VUndefined VUndefined VUndefined VUndefined
        VUndefined VUndefined VUndefined VUndefined.

Definition store : Heap :=
  fun x =>
    match x with
    | 1 => child
    | 2 => region
    | 3 => layout
    | 4 => gone
    | 5 => attached
    | _ => ViewMixin
    end.

(** The length of the [_parent] chain above each object of [store]. *)
Definition rank (x : oid) : nat :=
  match x with
  | 1 => 2
  | 2 => 1
  | _ => 0
  end.

(** The world before anything has been called. *)
Definition st0 : State Env := mkState store 0.

End Demo.

(** ** More small worlds *)

Module Demo2.

(** Collaborators of which some throw: the calls that [bad] picks throw
    the string ["boom"], the others answer as in [Demo]. *)
Definition failing (bad : Callee -> bool) (c : Callee) (h : Heap) (e : Demo.Env)
  : Completion * Demo.Env :=
  if bad c then (Thrown (VStr "boom"), S e) else Demo.perform c h e.

Definition before_destroy_handler (c : Callee) : bool :=
  match c with
  | TriggerMethod_import _ eventName _ => String.eqb eventName "before:destroy"
  | _ => false
  end.

Definition removing_children (c : Callee) : bool :=
  match c with
  | RemoveChildren _ => true
  | _ => false
  end.

Definition releasing (c : Callee) : bool :=
  match c with
  | StopListening _ => true
  | _ => false
  end.

(** Collaborators whose [_getUI] looks the name up in the hash that
    [_bindUIElements] sets up when the view is rendered: on a view that
    has not been rendered the hash is still undefined and the lookup
    throws a TypeError. *)
Definition TypeError : Val :=
  VObj [("name", VStr "TypeError");
        ("message", VStr "Cannot read properties of undefined")].

Definition unbound (c : Callee) (h : Heap) (e : Demo.Env)
  : Completion * Demo.Env :=
  match c with
  | GetUI_ v _ =>
      if _isRendered (h v) then Demo.perform c h e else (Thrown TypeError, S e)
  | _ => Demo.perform c h e
  end.

(** View 11 is a child of view 12, whose prefix is ["item"] and which
    sits in region 13 of view 14, whose prefix is ["list"]. *)
Definition leaf : Obj :=
  mkObj true "view11" false true true (Some 12) "childview"
        VUndefined VUndefined VUndefined VUndefined
        VUndefined VUndefined VUndefined VUndefined.

Definition item : Obj :=
  mkObj true "view12" false true true (Some 13) "item"
        VUndefined VUndefined VUndefined VUndefined
        VUndefined VUndefined VUndefined VUndefined.

Definition slot : Obj :=
  mkObj false "" false false false (Some 14) ""
        VUndefined VUndefined VUndefined VUndefined
        VUndefined VUndefined VUndefined VUndefined.

Definition list_view : Obj :=
  mkObj true "view14" false true true None "list"
        VUndefined VUndefined VUndefined VUndefined
        VUndefined VUndefined VUndefined VUndefined.

(** Region 21 is its own [_parent] and holds view 20; view 22 is its own
    [_parent]. *)
Definition held : Obj :=
  mkObj true "view20" false false false (Some 21) "childview"
        VUndefined VUndefined VUndefined VUndefined
        VUndefined VUndefined VUndefined VUndefined.

Definition knot : Obj :=
  mkObj false "" false false false (Some 21) ""
        VUndefined VUndefined VUndefined VUndefined
        VUndefined VUndefined VUndefined VUndefined.

Definition own_parent : Obj :=
  mkObj true "view22" false false false (Some 22) "childview"
        VUndefined VUndefined VUndefined VUndefined
        VUndefined VUndefined VUndefined VUndefined.

Definition store : Heap :=
  fun x =>
    match x with
    | 11 => leaf
    | 12 => item
    | 13 => slot
    | 14 => list_view
    | 20 => held
    | 21 => knot
    | 22 => own_parent
    | _ => ViewMixin
    end.

Definition st0 : State Demo.Env := mkState store 0.

End Demo2.

(** ** A world whose collaborators write the store *)

Module Demo3.

(** The views of this world are held by regions, and a region listens to
    the ['destroy'] event of the view it holds: when the event fires the
    region empties itself and lets go of the view
    ([delete view._parent]).  So the imported [triggerMethod], which fires
    the event, comes back with the [_parent] of the view gone.  The other
    collaborators write nothing, and all answer as in [Demo]. *)
Definition let_go (o : Obj) : Obj :=
  mkObj (instanceofView o) (cid o) (_isDestroyed o) (_isRendered o)
        (_isAttached o) None (childViewEventPrefix o) (childViewEvents o)
        (childViewTriggers o) (_childViewEvents o) (_childViewTriggers o)
        (events o) (triggers o) (model o) (collection o).

Definition writes (c : Callee) (h : Heap) : Heap :=
  match c with
  | TriggerMethod_import v eventName _ =>
      if String.eqb eventName "destroy" then update h v (let_go (h v)) else h
  | _ => h
  end.

Definition perform (c : Callee) (h : Heap) (e : Demo.Env)
  : Completion * Heap * Demo.Env :=
  (Normal (Demo.answer c h), writes c h, S e).

End Demo3.

Section Mixin.

Variable Env : Type.

(** The collaborators.  A call sees the store and the environment and
    may change the environment; the store it leaves as it is (the part
    [Open] below lifts this). *)
Variable perform : Callee -> Heap -> Env -> Completion * Env.

(** What a value gives under a key that is not one of its own properties
    (see [member]). *)
Variable inherited : Val -> string -> Val.

Definition M (A : Type) : Type := State Env -> Run Env A.

Definition ret {A} (a : A) : M A := fun st => mkRun (Ok a) st [].

Definition bind {A B} (m : M A) (f : A -> M B) : M B :=
  fun st =>
    let r := m st in
    match outcome r with
    | Ok a =>
        let r' := f a (final r) in
        mkRun (outcome r') (final r') (log r ++ log r')
    | Throw e => mkRun (Throw e) (final r) (log r)
    | Diverge => mkRun Diverge (final r) (log r)
    end.

Notation "x <- m ;; k" := (bind m (fun x => k))
  (at level 61, m at next level, right associativity).
Notation "m ;; k" := (bind m (fun _ => k))
  (at level 61, right associativity).

(** [throw e] *)
Definition throw {A} (e : Val) : M A := fun st => mkRun (Throw e) st [].

(** A loop that does not come back, or a recursion cut off at its
    bound. *)
Definition diverge {A} : M A := fun st => mkRun Diverge st [].

(** A call to a collaborator. *)
Definition call (c : Callee) : M Val :=
  fun st =>
    let (k, e') := perform c (heap st) (env st) in
    mkRun (match k with Normal x => Ok x | Thrown e => Throw e end)
          (mkState (heap st) e')
          [Call c k].

(** [this.<property>] *)
Definition this_ (v : oid) : M Obj := fun st => mkRun (Ok (heap st v)) st [].

(** [this.<property> = <value>] *)
Definition assign (v : oid) (w : Write) : M unit :=
  fun st =>
    mkRun (Ok tt)
          (mkState (update (heap st) v (apply_write w (heap st v))) (env st))
          [Assign v w].

(** ** The mixin *)

(** Lines 17-31. *)
Definition isDestroyed (st : State Env) (v : oid) : bool :=
  negb (negb (_isDestroyed (heap st v))).

Definition isRendered (st : State Env) (v : oid) : bool :=
  negb (negb (_isRendered (heap st v))).

Definition isAttached (st : State Env) (v : oid) : bool :=
  negb (negb (_isAttached (heap st v))).

(** Lines 182-186. *)
Definition _buildEventProxies (v : oid) : M unit :=
  o <- this_ v ;;
  cve <- call (GetValue v (getOption o "childViewEvents")) ;;
  assign v (Set_childViewEvents cve) ;;
  o <- this_ v ;;
  cvt <- call (GetValue v (getOption o "childViewTriggers")) ;;
  assign v (Set_childViewTriggers cvt).

(** Lines 68-72. *)
Definition getEvents (v : oid) (eventsArg : Val) : M Val :=
  o <- this_ v ;;
  events <- call (GetValue v (js_or eventsArg (events o))) ;;
  call (NormalizeUIKeys v events).

(** Lines 76-85. *)
Definition getTriggers (v : oid) : M Val :=
  o <- this_ v ;;
  if negb (truthy (triggers o)) then ret VUndefined
  else
    r <- call (Result_triggers v) ;;
    triggers <- call (NormalizeUIKeys v r) ;;
    call (GetViewTriggers v v triggers).

(** Lines 45-66. *)
Definition delegateEvents (v : oid) (eventsArg : Val) : M oid :=
  call (ProxyBehaviorViewProperties v) ;;
  _buildEventProxies v ;;
  viewEvents <- getEvents v eventsArg ;;
  (if isUndefined eventsArg then assign v (Set_events viewEvents) else ret tt) ;;
  behaviorEvents <- call (GetBehaviorEvents v) ;;
  behaviorTriggers <- call (GetBehaviorTriggers v) ;;
  viewTriggers <- getTriggers v ;;
  let combinedEvents :=
    _extend [] [behaviorEvents; viewEvents; behaviorTriggers; viewTriggers] in
  call (Backbone_delegateEvents v combinedEvents) ;;
  ret v.

(** Lines 88-95. *)
Definition delegateEntityEvents (v : oid) : M oid :=
  o <- this_ v ;;
  call (DelegateEntityEvents_ v (model o) (collection o)) ;;
  call (DelegateBehaviorEntityEvents v) ;;
  ret v.

(** Lines 98-105. *)
Definition undelegateEntityEvents (v : oid) : M oid :=
  o <- this_ v ;;
  call (UndelegateEntityEvents_ v (model o) (collection o)) ;;
  call (UndelegateBehaviorEntityEvents v) ;;
  ret v.

Definition ViewDestroyedError (o : Obj) : Val :=
  MarionetteError "ViewDestroyedError"
    ("View (cid: " ++ dquote ++ cid o ++ dquote ++
     ") has already been destroyed and cannot be used.").

(** Lines 108-115. *)
Definition _ensureViewIsIntact (v : oid) : M unit :=
  o <- this_ v ;;
  if _isDestroyed o then throw (ViewDestroyedError o) else ret tt.

(** Lines 146-151. *)
Definition bindUIElements (v : oid) : M oid :=
  call (BindUIElements_ v) ;;
  call (BindBehaviorUIElements v) ;;
  ret v.

(** Lines 154-159. *)
Definition unbindUIElements (v : oid) : M oid :=
  call (UnbindUIElements_ v) ;;
  call (UnbindBehaviorUIElements v) ;;
  ret v.

(** Lines 161-164. *)
Definition getUI (v : oid) (name : string) : M Val :=
  _ensureViewIsIntact v ;;
  call (GetUI_ v name).

(** Lines 218-227: the loop, from the value [parent] has on entry.  The
    outer [None] is a loop that has not ended when the fuel has. *)
Fixpoint parent_loop (fuel : nat) (h : Heap) (parent : option oid)
  : option (option oid) :=
  match parent with
  | None => Some None
  | Some p =>
      if instanceofView (h p) then Some (Some p)
      else match fuel with
           | 0 => None
           | S fuel' => parent_loop fuel' h (_parent (h p))
           end
  end.

Definition _parentView (fuel : nat) (v : oid) : M (option oid) :=
  o <- this_ v ;;
  fun st =>
    match parent_loop fuel (heap st) (_parent o) with
    | Some r => ret r st
    | None => diverge st
    end.

(** Lines 188-214, with the [triggerMethod] of the parent view passed in. *)
Definition _triggerEventOnParentLayout
    (triggerMethod : oid -> string -> list Val -> M Val)
    (fuel : nat) (v : oid) (eventName : string) (args : list Val) : M unit :=
  layoutView <- _parentView fuel v ;;
  match layoutView with
  | None => ret tt
  | Some lv =>
      o <- this_ lv ;;
      let eventPrefix := getOption o "childViewEventPrefix" in
      let prefixedEventName := prefixed eventPrefix eventName in
      triggerMethod lv prefixedEventName args ;;
      o <- this_ lv ;;
      childViewEvents <- call (NormalizeMethods lv (_childViewEvents o)) ;;
      (if truthy childViewEvents
          && isFunction (member inherited childViewEvents eventName)
       then call (Apply (member inherited childViewEvents eventName) lv args) ;;
            ret tt
       else ret tt) ;;
      o <- this_ lv ;;
      let childViewTriggers := _childViewTriggers o in
      if truthy childViewTriggers
      then match member inherited childViewTriggers eventName with
           | VStr s => triggerMethod lv s args ;; ret tt
           | _ => ret tt
           end
      else ret tt
  end.

(** Lines 172-179.  The recursion goes up the chain of parent views, one
    level for each, and a store may close that chain into a cycle.  The
    fuel bounds the depth, as the stack of an engine does, and the run is
    followed no further than that: the statements are about runs that
    stay within the bound. *)
Fixpoint triggerMethod (fuel : nat) (v : oid) (eventName : string)
    (args : list Val) : M Val :=
  match fuel with
  | 0 => diverge
  | S fuel' =>
      r <- call (TriggerMethod_import v eventName args) ;;
      call (TriggerEventOnBehaviors v eventName args) ;;
      _triggerEventOnParentLayout (triggerMethod fuel') fuel' v eventName args ;;
      ret r
  end.

(** Lines 118-144. *)
Definition destroy (fuel : nat) (v : oid) (args : list Val) : M oid :=
  o <- this_ v ;;
  if _isDestroyed o then ret v
  else
    triggerMethod fuel v "before:destroy" args ;;
    assign v (Set_isDestroyed true) ;;
    assign v (Set_isRendered false) ;;
    unbindUIElements v ;;
    call (RemoveElement v) ;;
    call (RemoveChildren v) ;;
    call (DestroyBehaviors v args) ;;
    triggerMethod fuel v "destroy" args ;;
    call (StopListening v) ;;
    ret v.

(** [n] calls of [destroy] in a row. *)
Fixpoint destroy_times (n : nat) (fuel : nat) (v : oid) (args : list Val)
  : M oid :=
  match n with
  | 0 => ret v
  | S n' => destroy fuel v args ;; destroy_times n' fuel v args
  end.

(** ** Notions the statements use *)

(** A computation that leaves the store as it found it. *)
Definition keeps_heap {A} (m : M A) : Prop :=
  forall st, heap (final (m st)) = heap st.

(** [yields m st a st' l]: from [st], [m] returns [a] in [st'], having
    logged [l]. *)
Definition yields {A} (m : M A) (st : State Env) (a : A) (st' : State Env)
    (l : list Event) : Prop :=
  m st = mkRun (Ok a) st' l.

(** The steps of [destroy] on a live view, once [this._isDestroyed] has
    been read as false. *)
Definition destroy_live (fuel : nat) (v : oid) (args : list Val) : M oid :=
  triggerMethod fuel v "before:destroy" args ;;
  assign v (Set_isDestroyed true) ;;
  assign v (Set_isRendered false) ;;
  unbindUIElements v ;;
  call (RemoveElement v) ;;
  call (RemoveChildren v) ;;
  call (DestroyBehaviors v args) ;;
  triggerMethod fuel v "destroy" args ;;
  call (StopListening v) ;;
  ret v.

(** The object [destroy] leaves behind. *)
Definition destroyed_obj (o : Obj) : Obj :=
  apply_write (Set_isRendered false) (apply_write (Set_isDestroyed true) o).

(** The locator as the spec words it: from a back-reference, the chain
    either has ended (no view), or the node is a view (that one), or the
    node is skipped and the search goes on from its own back-reference. *)
Inductive nearest_view (h : Heap) : option oid -> option oid -> Prop :=
| nearest_end : nearest_view h None None
| nearest_here p :
    instanceofView (h p) = true -> nearest_view h (Some p) (Some p)
| nearest_skip p r :
    instanceofView (h p) = false ->
    nearest_view h (_parent (h p)) r ->
    nearest_view h (Some p) r.

(** A store whose [_parent] references go down a rank has no cycle. *)
Definition ranked (h : Heap) (rank : oid -> nat) : Prop :=
  forall x p, _parent (h x) = Some p -> rank p < rank x.

(** Collaborators that always complete normally. *)
Definition total_normal : Prop :=
  forall c h e, exists x e', perform c h e = (Normal x, e').

(** [childViewEvents[eventName]] when the hash is truthy and the entry is
    a function. *)
Definition handler_under (childViewEvents : Val) (eventName : string)
  : option Val :=
  if truthy childViewEvents
     && isFunction (member inherited childViewEvents eventName)
  then Some (member inherited childViewEvents eventName)
  else None.

(** [childViewTriggers[eventName]] when the hash is truthy and the entry
    is a string. *)
Definition proxy_under (childViewTriggers : Val) (eventName : string)
  : option string :=
  if truthy childViewTriggers
  then match member inherited childViewTriggers eventName with
       | VStr s => Some s
       | _ => None
       end
  else None.

(** [completes m P]: from every state [m] returns, and what it returns
    satisfies [P]. *)
Definition completes {A} (m : M A) (P : A -> Prop) : Prop :=
  forall st, exists a st' l, yields m st a st' l /\ P a.

(** ** One more method *)

(** Lines 38-41.  [getOption] is modelled for the options of the cascade
    only, so what [this.getOption('templateContext')] gives is an
    argument here; [target] is [None] when the caller leaves it out and
    the default [{}] is taken. *)
Definition mixinTemplateContext (v : oid) (templateContextOption : Val)
    (target : option Props) : M Val :=
  let target := match target with Some ps => ps | None => [] end in
  templateContext <- call (GetValue v templateContextOption) ;;
  ret (_extend target [templateContext]).

(** ** Notions the further statements use *)

(** [heap_rel R m]: however [m] ends, the store it leaves is related by
    [R] to the store it found. *)
Definition heap_rel {A} (R : Heap -> Heap -> Prop) (m : M A) : Prop :=
  forall st, R (heap st) (heap (final (m st))).

(** [log_all P m]: however [m] ends, every event it has logged satisfies
    [P]. *)
Definition log_all {A} (P : Event -> Prop) (m : M A) : Prop :=
  forall st, Forall P (log (m st)).

(** A call that threw. *)
Definition is_thrown (ev : Event) : Prop :=
  match ev with
  | Call _ (Thrown _) => True
  | _ => False
  end.

(** [only_last Q l]: an event of [l] that satisfies [Q] is the last event
    of [l]. *)
Definition only_last (Q : Event -> Prop) (l : list Event) : Prop :=
  forall pre x post, l = pre ++ x :: post -> Q x -> post = [].

(** The properties that no method of the mixin assigns. *)
Definition never_assigned (o o' : Obj) : Prop :=
  instanceofView o' = instanceofView o /\
  cid o' = cid o /\
  _isAttached o' = _isAttached o /\
  _parent o' = _parent o /\
  childViewEventPrefix o' = childViewEventPrefix o /\
  childViewEvents o' = childViewEvents o /\
  childViewTriggers o' = childViewTriggers o /\
  triggers o' = triggers o /\
  model o' = model o /\
  collection o' = collection o.

(** What may differ between a store and a later one: the properties the
    mixin assigns, with [_isDestroyed] never going back to false. *)
Definition lifecycle_frame (h h' : Heap) : Prop :=
  forall x,
    never_assigned (h x) (h' x) /\
    (_isDestroyed (h x) = true -> _isDestroyed (h' x) = true).

(** The calls by which [triggerMethod] dispatches an event. *)
Definition dispatch_call (ev : Event) : Prop :=
  match ev with
  | Call (TriggerMethod_import _ _ _) _
  | Call (TriggerEventOnBehaviors _ _ _) _
  | Call (NormalizeMethods _ _) _
  | Call (Apply _ _ _) _ => True
  | _ => False
  end.

(** The events that leave a view that is destroyed destroyed: every call,
    and every assignment but that of [false] to [_isDestroyed]. *)
Definition keeps_destroyed (ev : Event) : Prop :=
  match ev with
  | Assign _ (Set_isDestroyed false) => False
  | _ => True
  end.

(** The events that are calls: the others are the assignments. *)
Definition is_call (ev : Event) : Prop :=
  match ev with
  | Call _ _ => True
  | Assign _ _ => False
  end.

(** [forwarded h v eventName a name]: going up from [v], from parent view
    to parent view, the event [eventName] reaches the view [a] under
    [name], each parent view on the way having put its own prefix and a
    colon in front. *)
Inductive forwarded (h : Heap) : oid -> string -> oid -> string -> Prop :=
| forwarded_here v eventName : forwarded h v eventName v eventName
| forwarded_up v eventName p a name :
    nearest_view h (_parent (h v)) (Some p) ->
    forwarded h p (childViewEventPrefix (h p) ++ ":" ++ eventName)%string a name ->
    forwarded h v eventName a name.

(** The calls of [stopListening] on [v], and the calls of Backbone's
    [delegateEvents] on [v]. *)
Definition is_stopListening (v : oid) (ev : Event) : Prop :=
  match ev with
  | Call (StopListening x) _ => x = v
  | _ => False
  end.

Definition is_Backbone_delegateEvents (ev : Event) : Prop :=
  match ev with
  | Call (Backbone_delegateEvents _ _) _ => True
  | _ => False
  end.

(** What the mixin hands to Backbone: a call on [v] with a hash in which
    no key comes twice. *)
Definition well_formed_delegation (v : oid) (ev : Event) : Prop :=
  match ev with
  | Call (Backbone_delegateEvents x hash) _ =>
      x = v /\ NoDup (map fst (props_of hash))
  | _ => True
  end.

(** A call of a method of the mixin, as a client makes it. *)
Inductive MixinCall : Type :=
| Invoke_destroy (fuel : nat) (v : oid) (args : list Val)
| Invoke_delegateEvents (v : oid) (eventsArg : Val)
| Invoke_delegateEntityEvents (v : oid)
| Invoke_undelegateEntityEvents (v : oid)
| Invoke_bindUIElements (v : oid)
| Invoke_unbindUIElements (v : oid)
| Invoke_getUI (v : oid) (name : string)
| Invoke_triggerMethod (fuel : nat) (v : oid) (eventName : string)
    (args : list Val)
| Invoke_mixinTemplateContext (v : oid) (templateContextOption : Val)
    (target : option Props).

Definition invoke (c : MixinCall) : M unit :=
  match c with
  | Invoke_destroy fuel v args => destroy fuel v args ;; ret tt
  | Invoke_delegateEvents v eventsArg => delegateEvents v eventsArg ;; ret tt
  | Invoke_delegateEntityEvents v => delegateEntityEvents v ;; ret tt
  | Invoke_undelegateEntityEvents v => undelegateEntityEvents v ;; ret tt
  | Invoke_bindUIElements v => bindUIElements v ;; ret tt
  | Invoke_unbindUIElements v => unbindUIElements v ;; ret tt
  | Invoke_getUI v name => getUI v name ;; ret tt
  | Invoke_triggerMethod fuel v eventName args =>
      triggerMethod fuel v eventName args ;; ret tt
  | Invoke_mixinTemplateContext v o target =>
      mixinTemplateContext v o target ;; ret tt
  end.

(** A client that makes the calls one after the other and goes on after a
    call that threw, as one that catches would. *)
Definition invoke_all (cs : list MixinCall) (st : State Env) : State Env :=
  fold_left (fun s c => final (invoke c s)) cs st.

(** [propagates m]: a run of [m] that throws has logged, last, the call
    that threw what it throws, and no other call of its log threw; a run
    that does not throw has logged no call that threw. *)
Definition propagates {A} (m : M A) : Prop :=
  forall st,
    match outcome (m st) with
    | Throw e =>
        exists c pre,
          log (m st) = pre ++ [Call c (Thrown e)] /\
          Forall (fun ev => ~ is_thrown ev) pre
    | _ => Forall (fun ev => ~ is_thrown ev) (log (m st))
    end.

(** What [destroy] does once the flags are set. *)
Definition destroy_teardown (fuel : nat) (v : oid) (args : list Val) : M oid :=
  unbindUIElements v ;;
  call (RemoveElement v) ;;
  call (RemoveChildren v) ;;
  call (DestroyBehaviors v args) ;;
  triggerMethod fuel v "destroy" args ;;
  call (StopListening v) ;;
  ret v.

(** The store that the assignments of a log make of a store. *)
Fixpoint replay (l : list Event) (h : Heap) : Heap :=
  match l with
  | [] => h
  | Assign v w :: l' => replay l' (update h v (apply_write w (h v)))
  | Call _ _ :: l' => replay l' h
  end.

(** [faithful m]: however [m] ends, the store it leaves is the store it
    found with the assignments of its log made in their order. *)
Definition faithful {A} (m : M A) : Prop :=
  forall st, heap (final (m st)) = replay (log (m st)) (heap st).

(** ** Running computations: the equations of [bind] *)

Lemma run_eta {A} (r : Run Env A) : mkRun (outcome r) (final r) (log r) = r.
Proof. destruct r; reflexivity. Qed.

Lemma bind_throw {A B} (m : M A) (f : A -> M B) st e :
  outcome (m st) = Throw e ->
  bind m f st = mkRun (Throw e) (final (m st)) (log (m st)).
Proof. intros H. unfold bind. rewrite H. reflexivity. Qed.

Lemma bind_diverge {A B} (m : M A) (f : A -> M B) st :
  outcome (m st) = Diverge ->
  bind m f st = mkRun Diverge (final (m st)) (log (m st)).
Proof. intros H. unfold bind. rewrite H. reflexivity. Qed.

Lemma call_heap c st : heap (final (call c st)) = heap st.
Proof.
  unfold call. destruct (perform c (heap st) (env st)); reflexivity.
Qed.

(** ** Computations that leave the store alone *)

Lemma keeps_heap_ret {A} (a : A) : keeps_heap (ret a).
Proof. intros st; reflexivity. Qed.

Lemma keeps_heap_throw {A} e : keeps_heap (@throw A e).
Proof. intros st; reflexivity. Qed.

Lemma keeps_heap_diverge {A} : keeps_heap (@diverge A).
Proof. intros st; reflexivity. Qed.

Lemma keeps_heap_this v : keeps_heap (this_ v).
Proof. intros st; reflexivity. Qed.

Lemma keeps_heap_call c : keeps_heap (call c).
Proof. intros st; apply call_heap. Qed.

Lemma keeps_heap_bind {A B} (m : M A) (f : A -> M B) :
  keeps_heap m -> (forall a, keeps_heap (f a)) -> keeps_heap (bind m f).
Proof.
  intros Hm Hf st. unfold bind.
  destruct (outcome (m st)) eqn:E; simpl; try apply Hm.
  rewrite Hf. apply Hm.
Qed.

Lemma keeps_heap_parentView fuel v : keeps_heap (_parentView fuel v).
Proof.
  intros st. unfold _parentView, bind, this_; simpl.
  destruct (parent_loop fuel (heap st) (_parent (heap st v))); reflexivity.
Qed.

Create HintDb keeps.
#[local] Hint Resolve keeps_heap_ret keeps_heap_throw keeps_heap_diverge
  keeps_heap_this keeps_heap_call keeps_heap_parentView : keeps.

Ltac keeps_tac :=
  repeat first
    [ progress cbv zeta
    | solve [ auto with keeps ]
    | apply keeps_heap_bind; [ | intros ? ]
    | match goal with
      | |- keeps_heap (if ?b then _ else _) => destruct b
      | |- keeps_heap (match ?x with _ => _ end) => destruct x
      end ].

Lemma keeps_heap_parentLayout tm fuel v eventName args :
  (forall lv n a, keeps_heap (tm lv n a)) ->
  keeps_heap (_triggerEventOnParentLayout tm fuel v eventName args).
Proof.
  intros Htm. unfold _triggerEventOnParentLayout.
  keeps_tac.
Qed.

Lemma keeps_heap_triggerMethod fuel :
  forall v eventName args, keeps_heap (triggerMethod fuel v eventName args).
Proof.
  induction fuel as [ | fuel IH]; intros v eventName args; simpl.
  - auto with keeps.
  - apply keeps_heap_bind; [ auto with keeps | intros r ].
    apply keeps_heap_bind; [ auto with keeps | intros _ ].
    apply keeps_heap_bind; [ | intros _; auto with keeps ].
    apply keeps_heap_parentLayout. exact IH.
Qed.

Lemma keeps_heap_unbindUIElements v : keeps_heap (unbindUIElements v).
Proof. unfold unbindUIElements. keeps_tac. Qed.

#[local] Hint Resolve keeps_heap_triggerMethod keeps_heap_unbindUIElements
  : keeps.

(** ** Inverting a run that ended well *)

Lemma yields_intro {A} (m : M A) st a :
  outcome (m st) = Ok a -> yields m st a (final (m st)) (log (m st)).
Proof. unfold yields. intros H. rewrite <- H. symmetry. apply run_eta. Qed.

Lemma yields_outcome {A} (m : M A) st a st' l :
  yields m st a st' l -> outcome (m st) = Ok a.
Proof. unfold yields. intros ->. reflexivity. Qed.

Lemma yields_final {A} (m : M A) st a st' l :
  yields m st a st' l -> final (m st) = st'.
Proof. unfold yields. intros ->. reflexivity. Qed.

Lemma yields_log {A} (m : M A) st a st' l :
  yields m st a st' l -> log (m st) = l.
Proof. unfold yields. intros ->. reflexivity. Qed.

Lemma yields_bind {A B} (m : M A) (f : A -> M B) st b st' l :
  yields (bind m f) st b st' l ->
  exists a st1 l1 l2,
    yields m st a st1 l1 /\ yields (f a) st1 b st' l2 /\ l = l1 ++ l2.
Proof.
  unfold yields, bind.
  destruct (m st) as [o st1 l1]. simpl. destruct o as [a | e | ];
    try discriminate.
  destruct (f a st1) as [o' st2 l2] eqn:E. simpl. intros H.
  inversion H; subst.
  exists a, st1, l1, l2. repeat split; assumption.
Qed.

Lemma bind_yields {A B} (m : M A) (f : A -> M B) st a st1 l1 :
  yields m st a st1 l1 ->
  bind m f st = mkRun (outcome (f a st1)) (final (f a st1)) (l1 ++ log (f a st1)).
Proof. unfold yields, bind. intros ->. reflexivity. Qed.

Lemma yields_ret {A} (a b : A) st st' l :
  yields (ret a) st b st' l -> b = a /\ st' = st /\ l = [].
Proof. unfold yields, ret. intros H. inversion H. auto. Qed.

Lemma yields_this v st o st' l :
  yields (this_ v) st o st' l -> o = heap st v /\ st' = st /\ l = [].
Proof. unfold yields, this_. intros H. inversion H. auto. Qed.

Lemma yields_assign v w st u st' l :
  yields (assign v w) st u st' l ->
  st' = mkState (update (heap st) v (apply_write w (heap st v))) (env st) /\
  l = [Assign v w].
Proof. unfold yields, assign. intros H. inversion H. auto. Qed.

Lemma yields_call c st x st' l :
  yields (call c) st x st' l ->
  perform c (heap st) (env st) = (Normal x, env st') /\
  heap st' = heap st /\
  l = [Call c (Normal x)].
Proof.
  unfold yields, call. destruct (perform c (heap st) (env st)) as [k e'].
  destruct k; intros H; inversion H; subst. auto.
Qed.

Lemma yields_heap {A} (m : M A) st a st' l :
  keeps_heap m -> yields m st a st' l -> heap st' = heap st.
Proof. intros K H. rewrite <- (yields_final _ _ _ _ _ H). apply K. Qed.

(** Splits a hypothesis [yields (m ;; k) ...] into its two halves. *)
Ltac split_bind H x st l H1 :=
  let l2 := fresh "l" in
  let E := fresh "E" in
  apply yields_bind in H;
  destruct H as (x & st & l & l2 & H1 & H & E);
  cbv beta in H; subst.

Lemma update_same h v o : update h v o v = o.
Proof. unfold update. now rewrite Nat.eqb_refl. Qed.

Lemma update_other h v o x : x <> v -> update h v o x = h x.
Proof.
  intros H. unfold update. destruct (Nat.eqb x v) eqn:E; auto.
  apply Nat.eqb_eq in E. contradiction.
Qed.

Lemma assign_final v w st :
  final (assign v w st) =
  mkState (update (heap st) v (apply_write w (heap st v))) (env st).
Proof. reflexivity. Qed.

(** ** [destroy] *)

Lemma bind_this {B} v (f : Obj -> M B) st :
  bind (this_ v) f st = f (heap st v) st.
Proof. unfold bind, this_. simpl. apply run_eta. Qed.

Lemma destroy_destroyed fuel v args st :
  _isDestroyed (heap st v) = true ->
  destroy fuel v args st = mkRun (Ok v) st [].
Proof.
  intros H. unfold destroy. rewrite bind_this, H. reflexivity.
Qed.

Lemma destroy_not_destroyed fuel v args st :
  _isDestroyed (heap st v) = false ->
  destroy fuel v args st = destroy_live fuel v args st.
Proof.
  intros H. unfold destroy. rewrite bind_this, H. reflexivity.
Qed.

(** ** [triggerMethod] and the cascade, step by step *)

Lemma triggerMethod_inv fuel v eventName args st r st' l :
  yields (triggerMethod fuel v eventName args) st r st' l ->
  exists fuel' b st1 st2 t,
    fuel = S fuel' /\
    yields (call (TriggerMethod_import v eventName args)) st r st1
           [Call (TriggerMethod_import v eventName args) (Normal r)] /\
    yields (call (TriggerEventOnBehaviors v eventName args)) st1 b st2
           [Call (TriggerEventOnBehaviors v eventName args) (Normal b)] /\
    yields (_triggerEventOnParentLayout (triggerMethod fuel') fuel' v
              eventName args) st2 tt st' t /\
    l = Call (TriggerMethod_import v eventName args) (Normal r)
        :: Call (TriggerEventOnBehaviors v eventName args) (Normal b)
        :: t.
Proof.
  destruct fuel as [ | fuel']; simpl; intros H.
  - discriminate H.
  - split_bind H x st1 l1 H1.
    split_bind H b st2 l2 H2.
    split_bind H u st3 l3 H3.
    apply yields_ret in H. destruct H as (-> & -> & ->).
    pose proof (yields_call _ _ _ _ _ H1) as (_ & _ & ->).
    pose proof (yields_call _ _ _ _ _ H2) as (_ & _ & ->).
    destruct u.
    exists fuel', b, st1, st2, l3. rewrite app_nil_r. auto.
Qed.

Lemma unbindUIElements_inv v st r st' l :
  yields (unbindUIElements v) st r st' l ->
  exists y1 y2,
    r = v /\ heap st' = heap st /\
    l = [Call (UnbindUIElements_ v) (Normal y1);
         Call (UnbindBehaviorUIElements v) (Normal y2)].
Proof.
  intros H.
  pose proof (yields_heap _ _ _ _ _ (keeps_heap_unbindUIElements v) H) as Hh.
  unfold unbindUIElements in H.
  split_bind H y1 st1 l1 H1.
  split_bind H y2 st2 l2 H2.
  apply yields_ret in H. destruct H as (-> & -> & ->).
  apply yields_call in H1. destruct H1 as (_ & _ & ->).
  apply yields_call in H2. destruct H2 as (_ & _ & ->).
  exists y1, y2. auto.
Qed.

Lemma destroy_live_inv fuel v args st r st' l :
  yields (destroy_live fuel v args) st r st' l ->
  exists x1 st1 l1 y1 y2 y3 y4 y5 st2 x2 st3 l2 y6,
    yields (triggerMethod fuel v "before:destroy" args) st x1 st1 l1 /\
    heap st2 v = destroyed_obj (heap st v) /\
    (forall x, x <> v -> heap st2 x = heap st x) /\
    yields (triggerMethod fuel v "destroy" args) st2 x2 st3 l2 /\
    heap st' = heap st2 /\
    r = v /\
    l = l1
        ++ [Assign v (Set_isDestroyed true);
            Assign v (Set_isRendered false);
            Call (UnbindUIElements_ v) (Normal y1);
            Call (UnbindBehaviorUIElements v) (Normal y2);
            Call (RemoveElement v) (Normal y3);
            Call (RemoveChildren v) (Normal y4);
            Call (DestroyBehaviors v args) (Normal y5)]
        ++ l2
        ++ [Call (StopListening v) (Normal y6)].
Proof.
  intros H. unfold destroy_live in H.
  split_bind H x1 st1 l1 H1.
  split_bind H u1 sa ta Ha.
  split_bind H u2 sb tb Hb.
  split_bind H u3 sc tc Hc.
  split_bind H y3 sd td Hd.
  split_bind H y4 se te He.
  split_bind H y5 st2 tf Hf.
  split_bind H x2 st3 l2 H2.
  split_bind H y6 sg tg Hg.
  apply yields_ret in H. destruct H as (-> & -> & ->).
  pose proof (yields_heap _ _ _ _ _ (keeps_heap_triggerMethod _ _ _ _) H1) as E1.
  pose proof (yields_heap _ _ _ _ _ (keeps_heap_triggerMethod _ _ _ _) H2) as E2.
  apply yields_assign in Ha. destruct Ha as (-> & ->).
  apply yields_assign in Hb. destruct Hb as (-> & ->).
  apply unbindUIElements_inv in Hc. destruct Hc as (y1 & y2 & _ & Ec & ->).
  apply yields_call in Hd. destruct Hd as (_ & Ed & ->).
  apply yields_call in He. destruct He as (_ & Ee & ->).
  apply yields_call in Hf. destruct Hf as (_ & Ef & ->).
  apply yields_call in Hg. destruct Hg as (_ & Eg & ->).
  simpl heap in *.
  assert (Hst2 : heap st2 =
                 update (update (heap st) v
                                (apply_write (Set_isDestroyed true) (heap st v)))
                        v (destroyed_obj (heap st v))).
  { rewrite Ef, Ee, Ed, Ec. simpl. rewrite update_same, E1. reflexivity. }
  exists x1, st1, l1, y1, y2, y3, y4, y5, st2, x2, st3, l2, y6.
  split; [ exact H1 | ].
  split; [ rewrite Hst2; apply update_same | ].
  split; [ intros x Hx; rewrite Hst2; now rewrite !update_other | ].
  split; [ exact H2 | ].
  split; [ rewrite Eg; exact E2 | ].
  split; [ reflexivity | ].
  rewrite app_nil_r. simpl. repeat rewrite <- app_assoc. reflexivity.
Qed.

Lemma isDestroyed_true st v :
  isDestroyed st v = true <-> _isDestroyed (heap st v) = true.
Proof. unfold isDestroyed. destruct (_isDestroyed (heap st v)); simpl; tauto. Qed.

Lemma isDestroyed_false st v :
  isDestroyed st v = false <-> _isDestroyed (heap st v) = false.
Proof. unfold isDestroyed. destruct (_isDestroyed (heap st v)); simpl; tauto. Qed.

(** A call of [destroy] that ends well returns the view and leaves it
    destroyed. *)
Lemma destroy_post fuel v args st r st' l :
  yields (destroy fuel v args) st r st' l ->
  r = v /\ _isDestroyed (heap st' v) = true.
Proof.
  intros H. destruct (_isDestroyed (heap st v)) eqn:D.
  - unfold yields in H. rewrite destroy_destroyed in H by exact D.
    inversion H; subst. auto.
  - unfold yields in H. rewrite destroy_not_destroyed in H by exact D.
    apply destroy_live_inv in H.
    destruct H as (x1 & st1 & l1 & y1 & y2 & y3 & y4 & y5 & st2 & x2 & st3
                   & l2 & y6 & _ & Hv & _ & _ & Hh & -> & _).
    split; [ reflexivity | ]. rewrite Hh, Hv. reflexivity.
Qed.

Lemma destroy_times_destroyed n fuel v args st :
  _isDestroyed (heap st v) = true ->
  destroy_times n fuel v args st = mkRun (Ok v) st [].
Proof.
  intros D. induction n as [ | n IH]; simpl.
  - reflexivity.
  - rewrite (bind_yields _ _ st v st []).
    + rewrite IH. reflexivity.
    + apply destroy_destroyed. exact D.
Qed.

(** C1: on a view whose [isDestroyed] is true, [destroy] returns the view
    at once, in the same state and with an empty log (no event is
    triggered, no flag is written, no teardown step is performed); so any
    number [n >= 1] of calls in a row is the same run as one call. *)
Theorem destroy_idempotent fuel v args :
  (forall st, isDestroyed st v = true ->
              destroy fuel v args st = mkRun (Ok v) st []) /\
  (forall st n, 1 <= n ->
                destroy_times n fuel v args st = destroy fuel v args st).
Proof.
  split.
  - intros st D. apply destroy_destroyed. now apply isDestroyed_true.
  - intros st n Hn. destruct n as [ | n]; [ lia | ]. simpl.
    destruct (outcome (destroy fuel v args st)) as [r | e | ] eqn:O.
    + pose proof (yields_intro _ _ _ O) as Y.
      destruct (destroy_post _ _ _ _ _ _ _ Y) as (-> & D).
      rewrite (bind_yields _ _ _ _ _ _ Y).
      rewrite destroy_times_destroyed by exact D. simpl.
      rewrite app_nil_r. symmetry. exact Y.
    + rewrite bind_throw with (e := e) by exact O.
      rewrite <- O. apply run_eta.
    + rewrite bind_diverge by exact O.
      rewrite <- O. apply run_eta.
Qed.

(** C3, as the code has it: when [destroy] ends well the view reads as
    destroyed; if it was live when [destroy] was called it reads as not
    rendered; and [isAttached] answers what it answered before the call,
    because [destroy] never writes [_isAttached]. *)
Theorem destroy_flags fuel v args st r :
  outcome (destroy fuel v args st) = Ok r ->
  isDestroyed (final (destroy fuel v args st)) v = true /\
  (isDestroyed st v = false ->
   isRendered (final (destroy fuel v args st)) v = false) /\
  isAttached (final (destroy fuel v args st)) v = isAttached st v.
Proof.
  intros O. apply yields_intro in O.
  pose proof (destroy_post _ _ _ _ _ _ _ O) as (_ & P).
  split; [ now apply isDestroyed_true | ].
  destruct (_isDestroyed (heap st v)) eqn:D.
  - rewrite destroy_destroyed by exact D. simpl.
    split; [ | reflexivity ].
    intros F. apply isDestroyed_false in F. congruence.
  - unfold yields in O. rewrite destroy_not_destroyed in O by exact D.
    rewrite destroy_not_destroyed by exact D.
    pose proof (yields_final _ _ _ _ _ O) as F.
    apply destroy_live_inv in O.
    destruct O as (x1 & st1 & l1 & y1 & y2 & y3 & y4 & y5 & st2 & x2 & st3
                   & l2 & y6 & _ & Hv & _ & _ & Hh & _ & _).
    unfold isRendered, isAttached. rewrite Hh, Hv. simpl. auto.
Qed.

(** ** Hashes and [_.extend] *)

Lemma lookup_assign_same k x ps : lookup_prop k (assign_prop k x ps) = Some x.
Proof.
  induction ps as [ | [k' y] ps IH]; simpl.
  - now rewrite String.eqb_refl.
  - destruct (String.eqb k k') eqn:E; simpl; rewrite E; auto.
Qed.

Lemma lookup_assign_other k k' x ps :
  k <> k' -> lookup_prop k (assign_prop k' x ps) = lookup_prop k ps.
Proof.
  intros N. induction ps as [ | [k'' y] ps IH]; simpl.
  - apply String.eqb_neq in N. now rewrite N.
  - destruct (String.eqb k' k'') eqn:E; simpl.
    + apply String.eqb_eq in E. subst k''.
      apply String.eqb_neq in N. now rewrite N.
    + destruct (String.eqb k k''); auto.
Qed.

(** Copying the keys [l] of a source [s] over a target. *)
Lemma lookup_copy_keys k (s : Val) (l : Props) : forall t,
  lookup_prop k
    (fold_left (fun acc kv => assign_prop (fst kv) (get_prop s (fst kv)) acc) l t)
  = match lookup_prop k l with
    | Some _ => Some (get_prop s k)
    | None => lookup_prop k t
    end.
Proof.
  induction l as [ | [k' y] l IH]; intros t; simpl.
  - reflexivity.
  - rewrite IH. destruct (String.eqb k k') eqn:E.
    + apply String.eqb_eq in E. subst k'.
      destruct (lookup_prop k l); [ reflexivity | ].
      apply lookup_assign_same.
    + destruct (lookup_prop k l); [ reflexivity | ].
      apply lookup_assign_other. now apply String.eqb_neq.
Qed.

(** After one source has been copied, a key reads as in the source if the
    source has it, and as in the target otherwise. *)
Lemma lookup_extend_one k t s :
  lookup_prop k (extend_one t s) =
  match lookup_prop k (props_of s) with
  | Some x => Some x
  | None => lookup_prop k t
  end.
Proof.
  unfold extend_one. rewrite lookup_copy_keys. unfold get_prop.
  destruct (lookup_prop k (props_of s)); reflexivity.
Qed.

Lemma lookup_extend k sources : forall target,
  lookup_prop k (props_of (_extend target sources)) =
  fold_left (fun found s =>
               match lookup_prop k (props_of s) with
               | Some x => Some x
               | None => found
               end)
            sources (lookup_prop k target).
Proof.
  unfold _extend. simpl.
  induction sources as [ | s rest IH]; intros target; simpl.
  - reflexivity.
  - rewrite IH. rewrite lookup_extend_one. reflexivity.
Qed.

(** With the four sources of [delegateEvents]: a key reads as in the last
    source that has it. *)
Lemma lookup_combined k behaviorEvents viewEvents behaviorTriggers viewTriggers :
  lookup_prop k
    (props_of (_extend [] [behaviorEvents; viewEvents;
                           behaviorTriggers; viewTriggers])) =
  match lookup_prop k (props_of viewTriggers) with
  | Some x => Some x
  | None =>
      match lookup_prop k (props_of behaviorTriggers) with
      | Some x => Some x
      | None =>
          match lookup_prop k (props_of viewEvents) with
          | Some x => Some x
          | None => lookup_prop k (props_of behaviorEvents)
          end
      end
  end.
Proof.
  rewrite lookup_extend. simpl.
  destruct (lookup_prop k (props_of behaviorEvents)); reflexivity.
Qed.

(** ** [delegateEvents] *)

Lemma _buildEventProxies_inv v st u st' l :
  yields (_buildEventProxies v) st u st' l ->
  exists cve cvt,
    heap st' v =
      apply_write (Set_childViewTriggers cvt)
                  (apply_write (Set_childViewEvents cve) (heap st v)) /\
    l = [Call (GetValue v (getOption (heap st v) "childViewEvents")) (Normal cve);
         Assign v (Set_childViewEvents cve);
         Call (GetValue v (getOption (heap st v) "childViewTriggers")) (Normal cvt);
         Assign v (Set_childViewTriggers cvt)].
Proof.
  intros H. unfold _buildEventProxies in H.
  split_bind H o1 s1 t1 H1. apply yields_this in H1. destruct H1 as (-> & -> & ->).
  split_bind H cve s2 t2 H2. apply yields_call in H2. destruct H2 as (_ & E2 & ->).
  split_bind H u3 s3 t3 H3. apply yields_assign in H3. destruct H3 as (-> & ->).
  split_bind H o4 s4 t4 H4. apply yields_this in H4. destruct H4 as (-> & -> & ->).
  split_bind H cvt s5 t5 H5. apply yields_call in H5. destruct H5 as (_ & E5 & ->).
  apply yields_assign in H. destruct H as (-> & ->).
  exists cve, cvt. cbn [heap]. rewrite update_same, E5. cbn [heap].
  rewrite update_same, E2. split; reflexivity.
Qed.

Lemma keeps_heap_getEvents v eventsArg : keeps_heap (getEvents v eventsArg).
Proof. unfold getEvents. keeps_tac. Qed.

Lemma getEvents_inv v eventsArg st viewEvents st' l :
  yields (getEvents v eventsArg) st viewEvents st' l ->
  exists raw,
    l = [Call (GetValue v (js_or eventsArg (events (heap st v)))) (Normal raw);
         Call (NormalizeUIKeys v raw) (Normal viewEvents)].
Proof.
  intros H. unfold getEvents in H.
  split_bind H o1 s1 t1 H1. apply yields_this in H1. destruct H1 as (-> & -> & ->).
  split_bind H raw s2 t2 H2. apply yields_call in H2. destruct H2 as (_ & _ & ->).
  apply yields_call in H. destruct H as (_ & _ & ->).
  exists raw. reflexivity.
Qed.

Lemma getTriggers_inv v st viewTriggers st' l :
  yields (getTriggers v) st viewTriggers st' l ->
  (truthy (triggers (heap st v)) = false /\ viewTriggers = VUndefined /\ l = [])
  \/
  (truthy (triggers (heap st v)) = true /\
   exists raw normalized,
     l = [Call (Result_triggers v) (Normal raw);
          Call (NormalizeUIKeys v raw) (Normal normalized);
          Call (GetViewTriggers v v normalized) (Normal viewTriggers)]).
Proof.
  intros H. unfold getTriggers in H.
  split_bind H o1 s1 t1 H1. apply yields_this in H1. destruct H1 as (-> & -> & ->).
  destruct (truthy (triggers (heap st v))); simpl in H.
  - right. split; [ reflexivity | ].
    split_bind H raw s2 t2 H2. apply yields_call in H2. destruct H2 as (_ & _ & ->).
    split_bind H nm s3 t3 H3. apply yields_call in H3. destruct H3 as (_ & _ & ->).
    apply yields_call in H. destruct H as (_ & _ & ->).
    exists raw, nm. reflexivity.
  - left. apply yields_ret in H. destruct H as (-> & -> & ->). auto.
Qed.

(** What a run of [delegateEvents] that ended well went through. *)
Lemma delegateEvents_inv v eventsArg st r st' l :
  yields (delegateEvents v eventsArg) st r st' l ->
  exists y0 cve cvt raw viewEvents behaviorEvents behaviorTriggers
         viewTriggers l2 y,
    (if truthy (triggers (heap st v))
     then exists rawTriggers normalized,
         l2 = [Call (Result_triggers v) (Normal rawTriggers);
               Call (NormalizeUIKeys v rawTriggers) (Normal normalized);
               Call (GetViewTriggers v v normalized) (Normal viewTriggers)]
     else viewTriggers = VUndefined /\ l2 = []) /\
    l = [Call (ProxyBehaviorViewProperties v) (Normal y0);
         Call (GetValue v (getOption (heap st v) "childViewEvents")) (Normal cve);
         Assign v (Set_childViewEvents cve);
         Call (GetValue v (getOption (heap st v) "childViewTriggers")) (Normal cvt);
         Assign v (Set_childViewTriggers cvt);
         Call (GetValue v (js_or eventsArg (events (heap st v)))) (Normal raw);
         Call (NormalizeUIKeys v raw) (Normal viewEvents)]
        ++ (if isUndefined eventsArg
            then [Assign v (Set_events viewEvents)] else [])
        ++ [Call (GetBehaviorEvents v) (Normal behaviorEvents);
            Call (GetBehaviorTriggers v) (Normal behaviorTriggers)]
        ++ l2
        ++ [Call (Backbone_delegateEvents v
                    (_extend [] [behaviorEvents; viewEvents;
                                 behaviorTriggers; viewTriggers]))
                 (Normal y)] /\
    r = v.
Proof.
  intros H. unfold delegateEvents in H.
  split_bind H y0 s0 t0 H0. apply yields_call in H0. destruct H0 as (_ & E0 & ->).
  split_bind H u1 sa t1 H1.
  apply _buildEventProxies_inv in H1. destruct H1 as (cve & cvt & Ea & ->).
  rewrite E0 in Ea |- *.
  split_bind H viewEvents sb l1 H2.
  pose proof (yields_heap _ _ _ _ _ (keeps_heap_getEvents v eventsArg) H2) as Eb.
  apply getEvents_inv in H2. destruct H2 as (raw & ->).
  rewrite Ea in *. cbn [events apply_write] in *.
  split_bind H u3 s3 mid H3.
  assert (E3 : triggers (heap s3 v) = triggers (heap st v) /\
               mid = if isUndefined eventsArg
                     then [Assign v (Set_events viewEvents)] else []).
  { destruct (isUndefined eventsArg).
    - apply yields_assign in H3. destruct H3 as (-> & ->).
      cbn [heap]. rewrite update_same, Eb, Ea. split; reflexivity.
    - apply yields_ret in H3. destruct H3 as (_ & -> & ->).
      rewrite Eb, Ea. split; reflexivity. }
  destruct E3 as (E3 & ->).
  split_bind H behaviorEvents s4 t4 H4.
  apply yields_call in H4. destruct H4 as (_ & E4 & ->).
  split_bind H behaviorTriggers sc t5 H5.
  apply yields_call in H5. destruct H5 as (_ & E5 & ->).
  split_bind H viewTriggers sd l2 H6.
  apply getTriggers_inv in H6. rewrite E5, E4, E3 in H6.
  cbv zeta in H.
  split_bind H y s7 t7 H7. apply yields_call in H7. destruct H7 as (_ & _ & ->).
  apply yields_ret in H. destruct H as (-> & -> & ->).
  exists y0, cve, cvt, raw, viewEvents, behaviorEvents, behaviorTriggers,
         viewTriggers, l2, y.
  split.
  { destruct H6 as [(F & -> & ->) | (T & rawT & nm & ->)].
    - rewrite F. auto.
    - rewrite T. eauto. }
  split; [ | reflexivity ].
  rewrite app_nil_r. simpl. repeat rewrite <- app_assoc. reflexivity.
Qed.

(** C4: the log of a call of [delegateEvents] that ends well is: the
    proxies ([_proxyBehaviorViewProperties], [_buildEventProxies]); the
    view's events, normalised ([getEvents]), stored back when no argument
    was given; the behaviors' events; the behaviors' triggers; the view's
    triggers ([getTriggers], which gives [undefined] when the view has
    none); and last the call of Backbone's [delegateEvents] on the view
    with the hash that [_.extend] builds from an empty hash and the
    sources behavior events, view events, behavior triggers, view
    triggers, in this order.  In that hash a key reads as in the last of
    the four sources that has it. *)
Theorem delegateEvents_combined v eventsArg st r :
  outcome (delegateEvents v eventsArg st) = Ok r ->
  exists y0 cve cvt raw viewEvents behaviorEvents behaviorTriggers
         viewTriggers l2 y,
    (if truthy (triggers (heap st v))
     then exists rawTriggers normalized,
         l2 = [Call (Result_triggers v) (Normal rawTriggers);
               Call (NormalizeUIKeys v rawTriggers) (Normal normalized);
               Call (GetViewTriggers v v normalized) (Normal viewTriggers)]
     else viewTriggers = VUndefined /\ l2 = []) /\
    log (delegateEvents v eventsArg st) =
      [Call (ProxyBehaviorViewProperties v) (Normal y0);
       Call (GetValue v (getOption (heap st v) "childViewEvents")) (Normal cve);
       Assign v (Set_childViewEvents cve);
       Call (GetValue v (getOption (heap st v) "childViewTriggers")) (Normal cvt);
       Assign v (Set_childViewTriggers cvt);
       Call (GetValue v (js_or eventsArg (events (heap st v)))) (Normal raw);
       Call (NormalizeUIKeys v raw) (Normal viewEvents)]
      ++ (if isUndefined eventsArg
          then [Assign v (Set_events viewEvents)] else [])
      ++ [Call (GetBehaviorEvents v) (Normal behaviorEvents);
          Call (GetBehaviorTriggers v) (Normal behaviorTriggers)]
      ++ l2
      ++ [Call (Backbone_delegateEvents v
                  (_extend [] [behaviorEvents; viewEvents;
                               behaviorTriggers; viewTriggers]))
               (Normal y)] /\
    (forall k,
       lookup_prop k
         (props_of (_extend [] [behaviorEvents; viewEvents;
                                behaviorTriggers; viewTriggers])) =
       match lookup_prop k (props_of viewTriggers) with
       | Some x => Some x
       | None =>
           match lookup_prop k (props_of behaviorTriggers) with
           | Some x => Some x
           | None =>
               match lookup_prop k (props_of viewEvents) with
               | Some x => Some x
               | None => lookup_prop k (props_of behaviorEvents)
               end
           end
       end) /\
    r = v.
Proof.
  intros O. apply yields_intro in O. apply delegateEvents_inv in O.
  destruct O as (y0 & cve & cvt & raw & viewEvents & behaviorEvents
                 & behaviorTriggers & viewTriggers & l2 & y & T & L & R).
  exists y0, cve, cvt, raw, viewEvents, behaviorEvents, behaviorTriggers,
         viewTriggers, l2, y.
  split; [ exact T | ].
  split; [ exact L | ].
  split; [ intros k; apply lookup_combined | exact R ].
Qed.

(** ** The parent chain *)

Lemma parent_loop_sound fuel h : forall start r,
  parent_loop fuel h start = Some r -> nearest_view h start r.
Proof.
  induction fuel as [ | fuel IH]; intros start r H;
    destruct start as [p | ]; simpl in H.
  - destruct (instanceofView (h p)) eqn:V; [ | discriminate ].
    inversion H; subst. now constructor.
  - inversion H; subst. constructor.
  - destruct (instanceofView (h p)) eqn:V.
    + inversion H; subst. now constructor.
    + apply nearest_skip; auto.
  - inversion H; subst. constructor.
Qed.

Lemma parent_loop_complete h start r :
  nearest_view h start r ->
  exists fuel0, forall fuel, fuel0 <= fuel -> parent_loop fuel h start = Some r.
Proof.
  induction 1 as [ | p V | p r V N (fuel0 & IH)].
  - exists 0. intros [ | fuel] _; reflexivity.
  - exists 0. intros [ | fuel] _; simpl; now rewrite V.
  - exists (S fuel0). intros [ | fuel] L; [ lia | ].
    simpl. rewrite V. apply IH. lia.
Qed.

Lemma nearest_view_functional h start r1 r2 :
  nearest_view h start r1 -> nearest_view h start r2 -> r1 = r2.
Proof.
  intros H1. revert r2.
  induction H1 as [ | p V | p r V N IH]; intros r2 H2; inversion H2; subst;
    auto; congruence.
Qed.

(** On a ranked store the loop ends once the fuel exceeds the rank of the
    node it starts from, and what it finds ranks no higher. *)
Lemma parent_loop_total h rank (R : ranked h rank) fuel : forall start,
  (forall p, start = Some p -> rank p < fuel) ->
  exists r, parent_loop fuel h start = Some r /\
            forall lv, r = Some lv ->
                       exists p, start = Some p /\ rank lv <= rank p.
Proof.
  induction fuel as [ | fuel IH]; intros start B; destruct start as [p | ].
  - specialize (B p eq_refl). lia.
  - exists None. split; [ reflexivity | discriminate ].
  - simpl. destruct (instanceofView (h p)) eqn:V.
    + exists (Some p). split; [ reflexivity | ].
      intros lv E. inversion E; subst. eauto.
    + destruct (IH (_parent (h p))) as (r & Hr & Hb).
      { intros q Q. apply R in Q. specialize (B p eq_refl). lia. }
      exists r. split; [ exact Hr | ].
      intros lv E. destruct (Hb lv E) as (q & Q & L).
      exists p. split; [ reflexivity | ]. apply R in Q. lia.
  - exists None. split; [ reflexivity | discriminate ].
Qed.

Lemma _parentView_run fuel v st :
  _parentView fuel v st =
  match parent_loop fuel (heap st) (_parent (heap st v)) with
  | Some r => mkRun (Ok r) st []
  | None => mkRun Diverge st []
  end.
Proof.
  unfold _parentView. rewrite bind_this.
  destruct (parent_loop fuel (heap st) (_parent (heap st v))); reflexivity.
Qed.

Lemma _parentView_inv fuel v st r st' l :
  yields (_parentView fuel v) st r st' l ->
  parent_loop fuel (heap st) (_parent (heap st v)) = Some r /\
  st' = st /\ l = [].
Proof.
  unfold yields. rewrite _parentView_run.
  destruct (parent_loop fuel (heap st) (_parent (heap st v)));
    intros H; inversion H; subst; auto.
Qed.

(** ** The forwarding step *)

Lemma prefixed_getOption o eventName :
  prefixed (getOption o "childViewEventPrefix") eventName =
  (childViewEventPrefix o ++ ":" ++ eventName)%string.
Proof. reflexivity. Qed.

Lemma cascade_none tm fuel v eventName args st :
  parent_loop fuel (heap st) (_parent (heap st v)) = Some None ->
  _triggerEventOnParentLayout tm fuel v eventName args st = mkRun (Ok tt) st [].
Proof.
  intros P. unfold _triggerEventOnParentLayout.
  rewrite (bind_yields _ _ st None st []).
  - reflexivity.
  - unfold yields. rewrite _parentView_run, P. reflexivity.
Qed.


(** ** Runs that are sure to end well *)

Lemma yields_bind_intro {A B} (m : M A) (f : A -> M B) st a st1 l1 b st2 l2 :
  yields m st a st1 l1 -> yields (f a) st1 b st2 l2 ->
  yields (bind m f) st b st2 (l1 ++ l2).
Proof.
  intros H1 H2. unfold yields. rewrite (bind_yields _ _ _ _ _ _ H1).
  unfold yields in H2. rewrite H2. reflexivity.
Qed.

Lemma call_total (T : total_normal) c st :
  exists x st', yields (call c) st x st' [Call c (Normal x)] /\
                heap st' = heap st.
Proof.
  destruct (T c (heap st) (env st)) as (x & e' & E).
  exists x, (mkState (heap st) e'). unfold yields, call. rewrite E. auto.
Qed.

Lemma cascade_total (T : total_normal) rank fuel
  (IH : forall lv eventName args st,
      ranked (heap st) rank -> rank lv < fuel ->
      exists r st' l, yields (triggerMethod fuel lv eventName args) st r st' l) :
  forall v eventName args st,
    ranked (heap st) rank -> rank v <= fuel ->
    exists st' l,
      yields (_triggerEventOnParentLayout (triggerMethod fuel) fuel v
                eventName args) st tt st' l.
Proof.
  intros v eventName args st R B.
  destruct (parent_loop_total (heap st) rank R fuel (_parent (heap st v)))
    as (r & P & Q).
  { intros p E. apply R in E. lia. }
  destruct r as [lv | ].
  - destruct (Q lv eq_refl) as (p & E & L). apply R in E.
    assert (Blv : rank lv < fuel) by lia.
    unfold _triggerEventOnParentLayout.
    assert (Y0 : yields (_parentView fuel v) st (Some lv) st []).
    { unfold yields. rewrite _parentView_run, P. reflexivity. }
    destruct (IH lv (prefixed (getOption (heap st lv) "childViewEventPrefix")
                              eventName) args st R Blv)
      as (x1 & s1 & l1 & Y1).
    pose proof (yields_heap _ _ _ _ _ (keeps_heap_triggerMethod _ _ _ _) Y1) as E1.
    destruct (call_total T (NormalizeMethods lv (_childViewEvents (heap s1 lv))) s1)
      as (cve & s2 & Y2 & E2).
    assert (Y3 : exists s3 la,
               yields (if truthy cve && isFunction (member inherited cve eventName)
                       then bind (call (Apply (member inherited cve eventName) lv args))
                                 (fun _ => ret tt)
                       else ret tt) s2 tt s3 la /\ heap s3 = heap s2).
    { destruct (truthy cve && isFunction (member inherited cve eventName)).
      - destruct (call_total T (Apply (member inherited cve eventName) lv args) s2)
          as (y & s3 & Y & Ey).
        exists s3, ([Call (Apply (member inherited cve eventName) lv args) (Normal y)] ++ []).
        split; [ | exact Ey ].
        eapply yields_bind_intro; [ exact Y | reflexivity ].
      - exists s2, []. split; reflexivity. }
    destruct Y3 as (s3 & la & Y3 & E3).
    assert (R3 : ranked (heap s3) rank) by (rewrite E3, E2, E1; exact R).
    assert (Y4 : exists s4 lt,
               yields (if truthy (_childViewTriggers (heap s3 lv))
                       then match member inherited (_childViewTriggers (heap s3 lv))
                                           eventName with
                            | VStr s => bind (triggerMethod fuel lv s args)
                                             (fun _ => ret tt)
                            | _ => ret tt
                            end
                       else ret tt) s3 tt s4 lt).
    { destruct (truthy (_childViewTriggers (heap s3 lv)));
        [ | exists s3, []; reflexivity ].
      destruct (member inherited (_childViewTriggers (heap s3 lv)) eventName);
        try (exists s3, []; reflexivity).
      destruct (IH lv s args s3 R3 Blv) as (x2 & s4 & lt & Y).
      exists s4, (lt ++ []).
      eapply yields_bind_intro; [ exact Y | reflexivity ]. }
    destruct Y4 as (s4 & lt & Y4).
    eexists. eexists.
    eapply yields_bind_intro; [ exact Y0 | ]. cbv beta.
    eapply yields_bind_intro; [ reflexivity | ]. cbv beta zeta.
    eapply yields_bind_intro; [ exact Y1 | ].
    eapply yields_bind_intro; [ reflexivity | ]. cbv beta.
    eapply yields_bind_intro; [ exact Y2 | ]. cbv beta.
    eapply yields_bind_intro; [ exact Y3 | ]. cbv beta.
    eapply yields_bind_intro; [ reflexivity | ]. cbv beta zeta.
    exact Y4.
  - exists st, []. unfold yields. now apply cascade_none.
Qed.

Lemma triggerMethod_total (T : total_normal) rank fuel :
  forall v eventName args st,
    ranked (heap st) rank -> rank v < fuel ->
    exists r st' l, yields (triggerMethod fuel v eventName args) st r st' l.
Proof.
  induction fuel as [ | fuel IH]; intros v eventName args st R B; [ lia | ].
  simpl.
  destruct (call_total T (TriggerMethod_import v eventName args) st)
    as (r & s1 & Y1 & E1).
  destruct (call_total T (TriggerEventOnBehaviors v eventName args) s1)
    as (b & s2 & Y2 & E2).
  assert (R2 : ranked (heap s2) rank) by (rewrite E2, E1; exact R).
  destruct (cascade_total T rank fuel IH v eventName args s2 R2) as (s3 & l3 & Y3);
    [ lia | ].
  exists r. eexists. eexists.
  eapply yields_bind_intro; [ exact Y1 | ]. cbv beta.
  eapply yields_bind_intro; [ exact Y2 | ]. cbv beta.
  eapply yields_bind_intro; [ exact Y3 | ]. cbv beta.
  reflexivity.
Qed.

Lemma call_normal c st x e' :
  perform c (heap st) (env st) = (Normal x, e') ->
  call c st = mkRun (Ok x) (mkState (heap st) e') [Call c (Normal x)].
Proof. intros E. unfold call. rewrite E. reflexivity. Qed.

Lemma call_thrown c st x e' :
  perform c (heap st) (env st) = (Thrown x, e') ->
  call c st = mkRun (Throw x) (mkState (heap st) e') [Call c (Thrown x)].
Proof. intros E. unfold call. rewrite E. reflexivity. Qed.


(** C7: [_parentView] returns what the walk up the [_parent] references
    finds, and that is the only answer the walk has: the first node that
    is an instance of [View], or nothing when the chain ends before one is
    met; whenever the walk has an answer,
    [_parentView] returns it once the fuel covers the nodes skipped; and
    when it returns nothing, the forwarding step of [triggerMethod]
    returns at once, having thrown nothing, called nothing and changed
    nothing. *)
Theorem parentView_nearest fuel v st :
  (forall r, outcome (_parentView fuel v st) = Ok r ->
             nearest_view (heap st) (_parent (heap st v)) r /\
             forall r', nearest_view (heap st) (_parent (heap st v)) r' ->
                        r' = r) /\
  (forall r, nearest_view (heap st) (_parent (heap st v)) r ->
             exists fuel0, forall n, fuel0 <= n ->
                                     _parentView n v st = mkRun (Ok r) st []) /\
  (forall tm eventName args,
      outcome (_parentView fuel v st) = Ok None ->
      _triggerEventOnParentLayout tm fuel v eventName args st =
      mkRun (Ok tt) st []).
Proof.
  split; [ | split ].
  - intros r O. rewrite _parentView_run in O.
    destruct (parent_loop fuel (heap st) (_parent (heap st v))) as [pr | ] eqn:P;
      [ | discriminate ].
    simpl in O. inversion O; subst pr.
    pose proof (parent_loop_sound _ _ _ _ P) as N.
    split; [ exact N | ].
    intros r' N'. eapply nearest_view_functional; eassumption.
  - intros r N. destruct (parent_loop_complete _ _ _ N) as (fuel0 & C).
    exists fuel0. intros n L. rewrite _parentView_run, (C n L). reflexivity.
  - intros tm eventName args O. rewrite _parentView_run in O.
    destruct (parent_loop fuel (heap st) (_parent (heap st v))) as [pr | ] eqn:P;
      [ | discriminate ].
    simpl in O. inversion O; subst pr.
    now apply cascade_none.
Qed.

(** C8: on a destroyed view [getUI] throws the [ViewDestroyedError] whose
    message has the [cid] of the view in it, in the same state and without
    calling anything.  On a live view the guard lets the call through and
    [getUI] is the call of [_getUI] with the name, no more: it returns the
    element that [_getUI] returns when that returns, and it throws what
    [_getUI] throws when that throws. *)
Theorem getUI_guard v name st :
  (isDestroyed st v = true ->
   getUI v name st = mkRun (Throw (ViewDestroyedError (heap st v))) st [] /\
   get_prop (ViewDestroyedError (heap st v)) "name" = VStr "ViewDestroyedError" /\
   exists before after,
     get_prop (ViewDestroyedError (heap st v)) "message" =
     VStr (before ++ cid (heap st v) ++ after)%string) /\
  (isDestroyed st v = false ->
   getUI v name st = call (GetUI_ v name) st /\
   (forall x e', perform (GetUI_ v name) (heap st) (env st) = (Normal x, e') ->
                 outcome (getUI v name st) = Ok x) /\
   (forall x e', perform (GetUI_ v name) (heap st) (env st) = (Thrown x, e') ->
                 outcome (getUI v name st) = Throw x)).
Proof.
  split.
  - intros D. apply isDestroyed_true in D. split; [ | split ].
    + unfold getUI, _ensureViewIsIntact.
      rewrite bind_throw with (e := ViewDestroyedError (heap st v));
        rewrite bind_this, D; reflexivity.
    + reflexivity.
    + exists ("View (cid: " ++ dquote)%string,
             (dquote ++ ") has already been destroyed and cannot be used.")%string.
      reflexivity.
  - intros D. apply isDestroyed_false in D.
    assert (E : getUI v name st = call (GetUI_ v name) st).
    { unfold getUI, _ensureViewIsIntact.
      rewrite (bind_yields _ _ st tt st []).
      - simpl. apply run_eta.
      - unfold yields. rewrite bind_this, D. reflexivity. }
    split; [ exact E | ].
    split; intros x e' P; rewrite E.
    + rewrite (call_normal _ _ _ _ P). reflexivity.
    + rewrite (call_thrown _ _ _ _ P). reflexivity.
Qed.

(** ** Operations that end well whenever the collaborators do *)

Lemma completes_ret {A} (a : A) (P : A -> Prop) : P a -> completes (ret a) P.
Proof. intros H st. exists a, st, []. split; [ reflexivity | exact H ]. Qed.

Lemma completes_this v : completes (this_ v) (fun _ => True).
Proof. intros st. exists (heap st v), st, []. split; [ reflexivity | exact I ]. Qed.

Lemma completes_assign v w : completes (assign v w) (fun _ => True).
Proof. intros st. eexists. eexists. eexists. split; [ reflexivity | exact I ]. Qed.

Lemma completes_call (T : total_normal) c : completes (call c) (fun _ => True).
Proof.
  intros st. destruct (call_total T c st) as (x & st' & Y & _).
  exists x, st', [Call c (Normal x)]. auto.
Qed.

Lemma completes_bind {A B} (m : M A) (f : A -> M B) Q P :
  completes m Q -> (forall a, completes (f a) P) -> completes (bind m f) P.
Proof.
  intros Hm Hf st.
  destruct (Hm st) as (a & s1 & l1 & Y1 & _).
  destruct (Hf a s1) as (b & s2 & l2 & Y2 & Pb).
  exists b, s2, (l1 ++ l2). split; [ | exact Pb ].
  eapply yields_bind_intro; eassumption.
Qed.

Ltac completes_tac T :=
  repeat first
    [ progress cbv zeta
    | apply completes_ret; reflexivity
    | apply completes_ret; exact I
    | apply completes_this
    | apply completes_assign
    | apply (completes_call T)
    | eapply completes_bind; [ | intros ? ]
    | match goal with
      | |- completes (if ?b then _ else _) _ => destruct b
      end ].

Lemma completes_getEvents (T : total_normal) v eventsArg :
  completes (getEvents v eventsArg) (fun _ => True).
Proof. unfold getEvents. completes_tac T. Qed.

Lemma completes_getTriggers (T : total_normal) v :
  completes (getTriggers v) (fun _ => True).
Proof. unfold getTriggers. completes_tac T. Qed.

Lemma completes_buildEventProxies (T : total_normal) v :
  completes (_buildEventProxies v) (fun _ => True).
Proof. unfold _buildEventProxies. completes_tac T. Qed.

Lemma completes_delegateEvents (T : total_normal) v eventsArg :
  completes (delegateEvents v eventsArg) (fun r => r = v).
Proof.
  unfold delegateEvents.
  eapply completes_bind; [ apply (completes_call T) | intros _ ].
  eapply completes_bind; [ apply (completes_buildEventProxies T) | intros _ ].
  eapply completes_bind; [ apply (completes_getEvents T) | intros viewEvents ].
  eapply completes_bind.
  { instantiate (1 := fun _ => True).
    destruct (isUndefined eventsArg); completes_tac T. }
  intros _.
  eapply completes_bind; [ apply (completes_call T) | intros behaviorEvents ].
  eapply completes_bind; [ apply (completes_call T) | intros behaviorTriggers ].
  eapply completes_bind; [ apply (completes_getTriggers T) | intros viewTriggers ].
  completes_tac T.
Qed.

Lemma completes_delegateEntityEvents (T : total_normal) v :
  completes (delegateEntityEvents v) (fun r => r = v).
Proof. unfold delegateEntityEvents. completes_tac T. Qed.

Lemma completes_undelegateEntityEvents (T : total_normal) v :
  completes (undelegateEntityEvents v) (fun r => r = v).
Proof. unfold undelegateEntityEvents. completes_tac T. Qed.

Lemma completes_bindUIElements (T : total_normal) v :
  completes (bindUIElements v) (fun r => r = v).
Proof. unfold bindUIElements. completes_tac T. Qed.

Lemma completes_unbindUIElements (T : total_normal) v :
  completes (unbindUIElements v) (fun r => r = v).
Proof. unfold unbindUIElements. completes_tac T. Qed.

Lemma delegateEntityEvents_inv v st r st' l :
  yields (delegateEntityEvents v) st r st' l ->
  exists y1 y2,
    l = [Call (DelegateEntityEvents_ v (model (heap st v)) (collection (heap st v)))
              (Normal y1);
         Call (DelegateBehaviorEntityEvents v) (Normal y2)].
Proof.
  intros H. unfold delegateEntityEvents in H.
  split_bind H o s0 t0 H0. apply yields_this in H0. destruct H0 as (-> & -> & ->).
  split_bind H y1 s1 t1 H1. apply yields_call in H1. destruct H1 as (_ & _ & ->).
  split_bind H y2 s2 t2 H2. apply yields_call in H2. destruct H2 as (_ & _ & ->).
  apply yields_ret in H. destruct H as (_ & _ & ->).
  exists y1, y2. reflexivity.
Qed.

Lemma undelegateEntityEvents_inv v st r st' l :
  yields (undelegateEntityEvents v) st r st' l ->
  exists y1 y2,
    l = [Call (UndelegateEntityEvents_ v (model (heap st v))
                 (collection (heap st v))) (Normal y1);
         Call (UndelegateBehaviorEntityEvents v) (Normal y2)].
Proof.
  intros H. unfold undelegateEntityEvents in H.
  split_bind H o s0 t0 H0. apply yields_this in H0. destruct H0 as (-> & -> & ->).
  split_bind H y1 s1 t1 H1. apply yields_call in H1. destruct H1 as (_ & _ & ->).
  split_bind H y2 s2 t2 H2. apply yields_call in H2. destruct H2 as (_ & _ & ->).
  apply yields_ret in H. destruct H as (_ & _ & ->).
  exists y1, y2. reflexivity.
Qed.

Lemma bindUIElements_inv v st r st' l :
  yields (bindUIElements v) st r st' l ->
  exists y1 y2,
    l = [Call (BindUIElements_ v) (Normal y1);
         Call (BindBehaviorUIElements v) (Normal y2)].
Proof.
  intros H. unfold bindUIElements in H.
  split_bind H y1 s1 t1 H1. apply yields_call in H1. destruct H1 as (_ & _ & ->).
  split_bind H y2 s2 t2 H2. apply yields_call in H2. destruct H2 as (_ & _ & ->).
  apply yields_ret in H. destruct H as (_ & _ & ->).
  exists y1, y2. reflexivity.
Qed.

Lemma completes_outcome {A} (m : M A) (a : A) st :
  completes m (fun r => r = a) ->
  outcome (m st) = Ok a /\ yields m st a (final (m st)) (log (m st)).
Proof.
  intros C. destruct (C st) as (r & st' & l & Y & ->).
  pose proof (yields_outcome _ _ _ _ _ Y) as O.
  split; [ exact O | now apply yields_intro ].
Qed.

(** C9, as the code has it: on a destroyed view [getUI], which goes
    through [_ensureViewIsIntact], throws the [ViewDestroyedError]; but
    [delegateEvents], [delegateEntityEvents], [undelegateEntityEvents],
    [bindUIElements] and [triggerMethod] do not look at the flag: when the
    collaborators return, each of them returns too and has made its calls
    (Backbone's [delegateEvents], the binding and unbinding of the entity
    events, the binding of the UI elements, the imported
    [triggerMethod]). *)
Theorem destroyed_view_operations v st :
  isDestroyed st v = true ->
  (forall name,
      outcome (getUI v name st) = Throw (ViewDestroyedError (heap st v))) /\
  (total_normal ->
   (forall eventsArg,
       outcome (delegateEvents v eventsArg st) = Ok v /\
       exists pre combined y,
         log (delegateEvents v eventsArg st) =
         pre ++ [Call (Backbone_delegateEvents v combined) (Normal y)]) /\
   (outcome (delegateEntityEvents v st) = Ok v /\
    exists y1 y2,
      log (delegateEntityEvents v st) =
      [Call (DelegateEntityEvents_ v (model (heap st v)) (collection (heap st v)))
            (Normal y1);
       Call (DelegateBehaviorEntityEvents v) (Normal y2)]) /\
   (outcome (undelegateEntityEvents v st) = Ok v /\
    exists y1 y2,
      log (undelegateEntityEvents v st) =
      [Call (UndelegateEntityEvents_ v (model (heap st v))
               (collection (heap st v))) (Normal y1);
       Call (UndelegateBehaviorEntityEvents v) (Normal y2)]) /\
   (outcome (bindUIElements v st) = Ok v /\
    exists y1 y2,
      log (bindUIElements v st) =
      [Call (BindUIElements_ v) (Normal y1);
       Call (BindBehaviorUIElements v) (Normal y2)]) /\
   (forall rank fuel eventName args,
       ranked (heap st) rank -> rank v < fuel ->
       exists r t,
         outcome (triggerMethod fuel v eventName args st) = Ok r /\
         log (triggerMethod fuel v eventName args st) =
         Call (TriggerMethod_import v eventName args) (Normal r) :: t)).
Proof.
  intros D. apply isDestroyed_true in D. split.
  - intros name. unfold getUI, _ensureViewIsIntact.
    rewrite bind_throw with (e := ViewDestroyedError (heap st v));
      rewrite bind_this, D; reflexivity.
  - intros T.
    split; [ | split; [ | split; [ | split ] ] ].
    + intros eventsArg.
      destruct (completes_outcome _ v st (completes_delegateEvents T v eventsArg))
        as (O & Y).
      split; [ exact O | ].
      apply delegateEvents_inv in Y.
      destruct Y as (y0 & cve & cvt & raw & viewEvents & behaviorEvents
                     & behaviorTriggers & viewTriggers & l2 & y & _ & L & _).
      rewrite L. repeat rewrite app_assoc. eauto.
    + destruct (completes_outcome _ v st (completes_delegateEntityEvents T v))
        as (O & Y).
      split; [ exact O | ]. now apply delegateEntityEvents_inv in Y.
    + destruct (completes_outcome _ v st (completes_undelegateEntityEvents T v))
        as (O & Y).
      split; [ exact O | ]. now apply undelegateEntityEvents_inv in Y.
    + destruct (completes_outcome _ v st (completes_bindUIElements T v))
        as (O & Y).
      split; [ exact O | ]. now apply bindUIElements_inv in Y.
    + intros rank fuel eventName args R B.
      destruct (triggerMethod_total T rank fuel v eventName args st R B)
        as (r & st' & l & Y).
      exists r. rewrite (yields_outcome _ _ _ _ _ Y), (yields_log _ _ _ _ _ Y).
      apply triggerMethod_inv in Y.
      destruct Y as (? & ? & ? & ? & t & _ & _ & _ & _ & ->). eauto.
Qed.

Lemma parent_apply_write w o : _parent (apply_write w o) = _parent o.
Proof. destruct w; reflexivity. Qed.

Lemma ranked_update h rank v w :
  ranked h rank -> ranked (update h v (apply_write w (h v))) rank.
Proof.
  intros R x p. unfold update. destruct (Nat.eqb x v) eqn:E.
  - apply Nat.eqb_eq in E. subst x. rewrite parent_apply_write. apply R.
  - apply R.
Qed.

(** With collaborators that always return, on a store without a
    [_parent] cycle, [destroy] returns the view. *)
Lemma destroy_total (T : total_normal) rank fuel v args st :
  ranked (heap st) rank -> rank v < fuel ->
  exists st' l, yields (destroy fuel v args) st v st' l.
Proof.
  intros R B. destruct (_isDestroyed (heap st v)) eqn:D.
  - exists st, []. unfold yields. now apply destroy_destroyed.
  - unfold yields. rewrite destroy_not_destroyed by exact D.
    fold (yields (destroy_live fuel v args) st v).
    destruct (triggerMethod_total T rank fuel v "before:destroy" args st R B)
      as (x1 & s1 & l1 & Y1).
    pose proof (yields_heap _ _ _ _ _ (keeps_heap_triggerMethod _ _ _ _) Y1) as E1.
    assert (R1 : ranked (heap s1) rank) by (rewrite E1; exact R).
    pose (s2 := final (assign v (Set_isDestroyed true) s1)).
    pose (s3 := final (assign v (Set_isRendered false) s2)).
    assert (R2 : ranked (heap s2) rank).
    { unfold s2. rewrite assign_final. cbn [heap].
      apply ranked_update. exact R1. }
    assert (R3 : ranked (heap s3) rank).
    { unfold s3. rewrite assign_final. cbn [heap].
      apply ranked_update. exact R2. }
    destruct (completes_unbindUIElements T v s3) as (u & s4 & l4 & Y4 & _).
    pose proof (yields_heap _ _ _ _ _ (keeps_heap_unbindUIElements v) Y4) as E4.
    destruct (call_total T (RemoveElement v) s4) as (y3 & s5 & Y5 & E5).
    destruct (call_total T (RemoveChildren v) s5) as (y4 & s6 & Y6 & E6).
    destruct (call_total T (DestroyBehaviors v args) s6) as (y5 & s7 & Y7 & E7).
    assert (R7 : ranked (heap s7) rank) by (rewrite E7, E6, E5, E4; exact R3).
    destruct (triggerMethod_total T rank fuel v "destroy" args s7 R7 B)
      as (x2 & s8 & l8 & Y8).
    destruct (call_total T (StopListening v) s8) as (y6 & s9 & Y9 & E9).
    eexists. eexists. unfold destroy_live.
    eapply yields_bind_intro; [ exact Y1 | ]. cbv beta.
    eapply yields_bind_intro; [ reflexivity | ]. cbv beta.
    eapply yields_bind_intro; [ reflexivity | ]. cbv beta.
    eapply yields_bind_intro; [ exact Y4 | ]. cbv beta.
    eapply yields_bind_intro; [ exact Y5 | ]. cbv beta.
    eapply yields_bind_intro; [ exact Y6 | ]. cbv beta.
    eapply yields_bind_intro; [ exact Y7 | ]. cbv beta.
    eapply yields_bind_intro; [ exact Y8 | ]. cbv beta.
    eapply yields_bind_intro; [ exact Y9 | ]. cbv beta.
    reflexivity.
Qed.

(** C2: on a live view, a call of [destroy] that ends well has logged,
    in this order: the run of [triggerMethod('before:destroy', ...args)];
    the assignments [_isDestroyed = true] and [_isRendered = false]; the
    unbinding of the UI elements of the view and of its behaviors; the
    removal of the element; the removal of the children; the destruction
    of the behaviors; the run of [triggerMethod('destroy', ...args)], from
    a state in which the view already reads as destroyed and not rendered;
    [stopListening].  It returns the view.  With collaborators that
    always return, on a store without a [_parent] cycle and with fuel
    above the rank of the view, the call does end well. *)
Theorem destroy_sequence fuel v args st :
  isDestroyed st v = false ->
  (total_normal ->
   forall rank, ranked (heap st) rank -> rank v < fuel ->
   outcome (destroy fuel v args st) = Ok v) /\
  forall r,
  outcome (destroy fuel v args st) = Ok r ->
  exists x1 st1 l1 y1 y2 y3 y4 y5 st2 x2 st3 l2 y6,
    yields (triggerMethod fuel v "before:destroy" args) st x1 st1 l1 /\
    hd_error l1 =
      Some (Call (TriggerMethod_import v "before:destroy" args) (Normal x1)) /\
    isDestroyed st2 v = true /\
    isRendered st2 v = false /\
    yields (triggerMethod fuel v "destroy" args) st2 x2 st3 l2 /\
    hd_error l2 =
      Some (Call (TriggerMethod_import v "destroy" args) (Normal x2)) /\
    r = v /\
    log (destroy fuel v args st) =
      l1
      ++ [Assign v (Set_isDestroyed true);
          Assign v (Set_isRendered false);
          Call (UnbindUIElements_ v) (Normal y1);
          Call (UnbindBehaviorUIElements v) (Normal y2);
          Call (RemoveElement v) (Normal y3);
          Call (RemoveChildren v) (Normal y4);
          Call (DestroyBehaviors v args) (Normal y5)]
      ++ l2
      ++ [Call (StopListening v) (Normal y6)].
Proof.
  intros D. split.
  { intros T rank R B.
    destruct (destroy_total T rank fuel v args st R B) as (st' & l & Y).
    eapply yields_outcome. exact Y. }
  intros r O. apply isDestroyed_false in D.
  apply yields_intro in O.
  unfold yields in O. rewrite destroy_not_destroyed in O by exact D.
  apply destroy_live_inv in O.
  destruct O as (x1 & st1 & l1 & y1 & y2 & y3 & y4 & y5 & st2 & x2 & st3
                 & l2 & y6 & H1 & Hv & _ & H2 & _ & -> & E).
  exists x1, st1, l1, y1, y2, y3, y4, y5, st2, x2, st3, l2, y6.
  split; [ exact H1 | ].
  split.
  { apply triggerMethod_inv in H1.
    destruct H1 as (? & ? & ? & ? & ? & _ & _ & _ & _ & ->). reflexivity. }
  split; [ unfold isDestroyed; rewrite Hv; reflexivity | ].
  split; [ unfold isRendered; rewrite Hv; reflexivity | ].
  split; [ exact H2 | ].
  split.
  { apply triggerMethod_inv in H2.
    destruct H2 as (? & ? & ? & ? & ? & _ & _ & _ & _ & ->). reflexivity. }
  split; [ reflexivity | ].
  rewrite destroy_not_destroyed by exact D. exact E.
Qed.



(** ** What the mixin leaves alone *)

Lemma heap_rel_bind {A B} (R : Heap -> Heap -> Prop) (m : M A) (f : A -> M B) :
  (forall h1 h2 h3, R h1 h2 -> R h2 h3 -> R h1 h3) ->
  heap_rel R m -> (forall a, heap_rel R (f a)) -> heap_rel R (bind m f).
Proof.
  intros T Hm Hf st. unfold bind.
  destruct (outcome (m st)) eqn:E; simpl; try apply Hm.
  eapply T; [ apply Hm | apply Hf ].
Qed.

Lemma heap_rel_keeps {A} (R : Heap -> Heap -> Prop) (m : M A) :
  (forall h, R h h) -> keeps_heap m -> heap_rel R m.
Proof. intros Rf K st. rewrite K. apply Rf. Qed.

Lemma keeps_heap_getTriggers v : keeps_heap (getTriggers v).
Proof. unfold getTriggers. keeps_tac. Qed.

Lemma keeps_heap_ensureViewIsIntact v : keeps_heap (_ensureViewIsIntact v).
Proof. unfold _ensureViewIsIntact. keeps_tac. Qed.

Lemma keeps_heap_getUI v name : keeps_heap (getUI v name).
Proof.
  unfold getUI. apply keeps_heap_bind;
    [ apply keeps_heap_ensureViewIsIntact | intros _; apply keeps_heap_call ].
Qed.

Lemma keeps_heap_delegateEntityEvents v : keeps_heap (delegateEntityEvents v).
Proof. unfold delegateEntityEvents. keeps_tac. Qed.

Lemma keeps_heap_undelegateEntityEvents v :
  keeps_heap (undelegateEntityEvents v).
Proof. unfold undelegateEntityEvents. keeps_tac. Qed.

Lemma keeps_heap_bindUIElements v : keeps_heap (bindUIElements v).
Proof. unfold bindUIElements. keeps_tac. Qed.

Lemma keeps_heap_mixinTemplateContext v o target :
  keeps_heap (mixinTemplateContext v o target).
Proof. unfold mixinTemplateContext. keeps_tac. Qed.

Lemma never_assigned_refl o : never_assigned o o.
Proof. unfold never_assigned. tauto. Qed.

Lemma never_assigned_trans o1 o2 o3 :
  never_assigned o1 o2 -> never_assigned o2 o3 -> never_assigned o1 o3.
Proof.
  unfold never_assigned.
  intros (A1 & A2 & A3 & A4 & A5 & A6 & A7 & A8 & A9 & A10)
         (B1 & B2 & B3 & B4 & B5 & B6 & B7 & B8 & B9 & B10).
  repeat split; congruence.
Qed.

Lemma never_assigned_write w o : never_assigned o (apply_write w o).
Proof. destruct w; unfold never_assigned; simpl; tauto. Qed.

Lemma lifecycle_frame_refl h : lifecycle_frame h h.
Proof. intros x. split; [ apply never_assigned_refl | auto ]. Qed.

Lemma lifecycle_frame_trans h1 h2 h3 :
  lifecycle_frame h1 h2 -> lifecycle_frame h2 h3 -> lifecycle_frame h1 h3.
Proof.
  intros F G x. destruct (F x) as (F1 & F2). destruct (G x) as (G1 & G2).
  split; [ eapply never_assigned_trans; eassumption | auto ].
Qed.

Lemma lifecycle_frame_assign v w :
  w <> Set_isDestroyed false -> heap_rel lifecycle_frame (assign v w).
Proof.
  intros N st x. simpl. unfold update. destruct (Nat.eqb x v) eqn:E.
  - apply Nat.eqb_eq in E. subst x.
    split; [ apply never_assigned_write | ].
    destruct w as [[ | ] | | | | ]; simpl; auto;
      try (exfalso; apply N; reflexivity).
  - split; [ apply never_assigned_refl | auto ].
Qed.

Ltac frame_tac :=
  repeat first
    [ progress cbv zeta
    | apply heap_rel_keeps;
      [ exact lifecycle_frame_refl | solve [ auto with keeps ] ]
    | apply lifecycle_frame_assign; discriminate
    | apply heap_rel_bind; [ exact lifecycle_frame_trans | | intros ? ]
    | match goal with
      | |- heap_rel _ (if ?b then _ else _) => destruct b
      end ].

Lemma lifecycle_frame_delegateEvents v eventsArg :
  heap_rel lifecycle_frame (delegateEvents v eventsArg).
Proof.
  unfold delegateEvents, _buildEventProxies.
  pose proof (keeps_heap_getEvents v eventsArg).
  pose proof (keeps_heap_getTriggers v).
  frame_tac.
Qed.

Lemma lifecycle_frame_destroy fuel v args :
  heap_rel lifecycle_frame (destroy fuel v args).
Proof. unfold destroy. frame_tac. Qed.

Lemma lifecycle_frame_invoke c : heap_rel lifecycle_frame (invoke c).
Proof.
  destruct c; simpl;
    (apply heap_rel_bind;
     [ exact lifecycle_frame_trans
     |
     | intros ?; apply heap_rel_keeps;
       [ exact lifecycle_frame_refl | apply keeps_heap_ret ] ]).
  - apply lifecycle_frame_destroy.
  - apply lifecycle_frame_delegateEvents.
  - apply heap_rel_keeps;
      [ exact lifecycle_frame_refl | apply keeps_heap_delegateEntityEvents ].
  - apply heap_rel_keeps;
      [ exact lifecycle_frame_refl | apply keeps_heap_undelegateEntityEvents ].
  - apply heap_rel_keeps;
      [ exact lifecycle_frame_refl | apply keeps_heap_bindUIElements ].
  - apply heap_rel_keeps;
      [ exact lifecycle_frame_refl | apply keeps_heap_unbindUIElements ].
  - apply heap_rel_keeps;
      [ exact lifecycle_frame_refl | apply keeps_heap_getUI ].
  - apply heap_rel_keeps;
      [ exact lifecycle_frame_refl | apply keeps_heap_triggerMethod ].
  - apply heap_rel_keeps;
      [ exact lifecycle_frame_refl | apply keeps_heap_mixinTemplateContext ].
Qed.

(** ** What a log can hold *)

Lemma log_all_ret {A} P (a : A) : log_all P (ret a).
Proof. intros st. constructor. Qed.

Lemma log_all_throw {A} P e : log_all P (@throw A e).
Proof. intros st. constructor. Qed.

Lemma log_all_diverge {A} P : log_all P (@diverge A).
Proof. intros st. constructor. Qed.

Lemma log_all_this P v : log_all P (this_ v).
Proof. intros st. constructor. Qed.

Lemma log_all_assign (P : Event -> Prop) v w :
  P (Assign v w) -> log_all P (assign v w).
Proof. intros H st. simpl. auto. Qed.

Lemma log_all_call (P : Event -> Prop) c :
  (forall k, P (Call c k)) -> log_all P (call c).
Proof.
  intros H st. unfold call.
  destruct (perform c (heap st) (env st)) as [k e']. simpl. auto.
Qed.

Lemma log_all_bind {A B} P (m : M A) (f : A -> M B) :
  log_all P m -> (forall a, log_all P (f a)) -> log_all P (bind m f).
Proof.
  intros Hm Hf st. unfold bind.
  destruct (outcome (m st)) eqn:E; simpl; try apply Hm.
  apply Forall_app. split; [ apply Hm | apply Hf ].
Qed.

Lemma log_all_parentView P fuel v : log_all P (_parentView fuel v).
Proof.
  intros st. rewrite _parentView_run.
  destruct (parent_loop fuel (heap st) (_parent (heap st v))); constructor.
Qed.

Ltac log_tac :=
  repeat first
    [ progress cbv zeta
    | apply log_all_ret
    | apply log_all_throw
    | apply log_all_diverge
    | apply log_all_this
    | apply log_all_parentView
    | apply log_all_assign; solve [ simpl; auto ]
    | apply log_all_call; intros ?; solve [ simpl; auto ]
    | apply log_all_bind; [ | intros ? ]
    | match goal with
      | |- log_all _ (if ?b then _ else _) => destruct b
      | |- log_all _ (match ?x with _ => _ end) => destruct x
      end ].

Lemma log_all_parentLayout P tm fuel v eventName args :
  (forall lv hash k, P (Call (NormalizeMethods lv hash) k)) ->
  (forall f lv a k, P (Call (Apply f lv a) k)) ->
  (forall lv n a, log_all P (tm lv n a)) ->
  log_all P (_triggerEventOnParentLayout tm fuel v eventName args).
Proof.
  intros HN HA Htm. unfold _triggerEventOnParentLayout.
  apply log_all_bind; [ apply log_all_parentView | intros [lv | ] ];
    [ | apply log_all_ret ].
  apply log_all_bind; [ apply log_all_this | intros o ]. cbv zeta.
  apply log_all_bind; [ apply Htm | intros _ ].
  apply log_all_bind; [ apply log_all_this | intros o' ].
  apply log_all_bind; [ apply log_all_call; intros k; apply HN | intros cve ].
  apply log_all_bind.
  { destruct (truthy cve && isFunction (member inherited cve eventName)).
    - apply log_all_bind; [ apply log_all_call; intros k; apply HA | ].
      intros _. apply log_all_ret.
    - apply log_all_ret. }
  intros _.
  apply log_all_bind; [ apply log_all_this | intros o'' ]. cbv zeta.
  destruct (truthy (_childViewTriggers o'')); [ | apply log_all_ret ].
  destruct (member inherited (_childViewTriggers o'') eventName);
    try apply log_all_ret.
  apply log_all_bind; [ apply Htm | intros _; apply log_all_ret ].
Qed.

Lemma log_all_triggerMethod P fuel :
  (forall v n a k, P (Call (TriggerMethod_import v n a) k)) ->
  (forall v n a k, P (Call (TriggerEventOnBehaviors v n a) k)) ->
  (forall lv hash k, P (Call (NormalizeMethods lv hash) k)) ->
  (forall f lv a k, P (Call (Apply f lv a) k)) ->
  forall v eventName args, log_all P (triggerMethod fuel v eventName args).
Proof.
  intros HT HB HN HA.
  induction fuel as [ | fuel IH]; intros v eventName args; simpl.
  - apply log_all_diverge.
  - apply log_all_bind; [ apply log_all_call; intros k; apply HT | intros r ].
    apply log_all_bind; [ apply log_all_call; intros k; apply HB | intros _ ].
    apply log_all_bind; [ | intros _; apply log_all_ret ].
    apply log_all_parentLayout; auto.
Qed.

(** ** Exceptions *)

Lemma propagates_ret {A} (a : A) : propagates (ret a).
Proof. intros st. simpl. constructor. Qed.

Lemma propagates_diverge {A} : propagates (@diverge A).
Proof. intros st. simpl. constructor. Qed.

Lemma propagates_this v : propagates (this_ v).
Proof. intros st. simpl. constructor. Qed.

Lemma propagates_assign v w : propagates (assign v w).
Proof. intros st. simpl. repeat constructor. simpl. tauto. Qed.

Lemma propagates_call c : propagates (call c).
Proof.
  intros st. unfold call.
  destruct (perform c (heap st) (env st)) as [[x | e] e']; simpl.
  - repeat constructor. simpl. tauto.
  - exists c, []. split; [ reflexivity | constructor ].
Qed.

Lemma propagates_bind {A B} (m : M A) (f : A -> M B) :
  propagates m -> (forall a, propagates (f a)) -> propagates (bind m f).
Proof.
  intros Hm Hf st. unfold bind. specialize (Hm st).
  destruct (outcome (m st)) as [a | e | ] eqn:E; simpl; try exact Hm.
  specialize (Hf a (final (m st))).
  destruct (outcome (f a (final (m st)))) as [b | e | ]; simpl.
  - apply Forall_app. auto.
  - destruct Hf as (c & pre & L & C). exists c, (log (m st) ++ pre).
    rewrite L, app_assoc. split; [ reflexivity | apply Forall_app; auto ].
  - apply Forall_app. auto.
Qed.

Lemma propagates_parentView fuel v : propagates (_parentView fuel v).
Proof.
  intros st. rewrite _parentView_run.
  destruct (parent_loop fuel (heap st) (_parent (heap st v))); simpl;
    constructor.
Qed.

Ltac prop_tac :=
  repeat first
    [ progress cbv zeta
    | apply propagates_ret
    | apply propagates_diverge
    | apply propagates_this
    | apply propagates_assign
    | apply propagates_call
    | apply propagates_parentView
    | apply propagates_bind; [ | intros ? ]
    | match goal with
      | |- propagates (if ?b then _ else _) => destruct b
      | |- propagates (match ?x with _ => _ end) => destruct x
      end ].

Lemma propagates_parentLayout tm fuel v eventName args :
  (forall lv n a, propagates (tm lv n a)) ->
  propagates (_triggerEventOnParentLayout tm fuel v eventName args).
Proof.
  intros Htm. unfold _triggerEventOnParentLayout.
  apply propagates_bind; [ apply propagates_parentView | intros [lv | ] ];
    [ | apply propagates_ret ].
  apply propagates_bind; [ apply propagates_this | intros o ]. cbv zeta.
  apply propagates_bind; [ apply Htm | intros _ ].
  apply propagates_bind; [ apply propagates_this | intros o' ].
  apply propagates_bind; [ apply propagates_call | intros cve ].
  apply propagates_bind.
  { destruct (truthy cve && isFunction (member inherited cve eventName)); prop_tac. }
  intros _.
  apply propagates_bind; [ apply propagates_this | intros o'' ]. cbv zeta.
  destruct (truthy (_childViewTriggers o'')); [ | apply propagates_ret ].
  destruct (member inherited (_childViewTriggers o'') eventName);
    try apply propagates_ret.
  apply propagates_bind; [ apply Htm | intros _; apply propagates_ret ].
Qed.

Lemma propagates_triggerMethod fuel :
  forall v eventName args, propagates (triggerMethod fuel v eventName args).
Proof.
  induction fuel as [ | fuel IH]; intros v eventName args; simpl.
  - apply propagates_diverge.
  - apply propagates_bind; [ apply propagates_call | intros r ].
    apply propagates_bind; [ apply propagates_call | intros _ ].
    apply propagates_bind; [ | intros _; apply propagates_ret ].
    apply propagates_parentLayout. exact IH.
Qed.

Lemma propagates_unbindUIElements v : propagates (unbindUIElements v).
Proof. unfold unbindUIElements. prop_tac. Qed.

Lemma propagates_destroy fuel v args : propagates (destroy fuel v args).
Proof.
  unfold destroy.
  pose proof (propagates_triggerMethod fuel) as T.
  pose proof (propagates_unbindUIElements v) as U.
  apply propagates_bind; [ apply propagates_this | intros o ].
  destruct (_isDestroyed o); [ apply propagates_ret | ].
  apply propagates_bind; [ apply T | intros _ ].
  apply propagates_bind; [ apply propagates_assign | intros _ ].
  apply propagates_bind; [ apply propagates_assign | intros _ ].
  apply propagates_bind; [ apply U | intros _ ].
  apply propagates_bind; [ apply propagates_call | intros _ ].
  apply propagates_bind; [ apply propagates_call | intros _ ].
  apply propagates_bind; [ apply propagates_call | intros _ ].
  apply propagates_bind; [ apply T | intros _ ].
  apply propagates_bind; [ apply propagates_call | intros _ ].
  apply propagates_ret.
Qed.

(** ** [destroy], interrupted *)

Lemma keeps_heap_destroy_teardown fuel v args :
  keeps_heap (destroy_teardown fuel v args).
Proof. unfold destroy_teardown. keeps_tac. Qed.

Lemma bind_assign {B} v w (f : unit -> M B) st :
  bind (assign v w) f st =
  mkRun (outcome (f tt (final (assign v w st))))
        (final (f tt (final (assign v w st))))
        (Assign v w :: log (f tt (final (assign v w st)))).
Proof. reflexivity. Qed.

(** X5: when [destroy] on a live view throws, either it is the
    [before:destroy] event that threw, and then the store is as it was,
    the view still live, and nothing but that event has been logged; or
    the event had returned, and then the view already reads as destroyed
    and not rendered, so that calling [destroy] again, with whatever
    arguments, returns at once and does none of the steps that were left
    undone. *)
Theorem destroy_interrupted fuel v args st e :
  isDestroyed st v = false ->
  outcome (destroy fuel v args st) = Throw e ->
  (outcome (triggerMethod fuel v "before:destroy" args st) = Throw e /\
   heap (final (destroy fuel v args st)) = heap st /\
   log (destroy fuel v args st) =
   log (triggerMethod fuel v "before:destroy" args st))
  \/
  ((exists x, outcome (triggerMethod fuel v "before:destroy" args st) = Ok x) /\
   isDestroyed (final (destroy fuel v args st)) v = true /\
   isRendered (final (destroy fuel v args st)) v = false /\
   forall fuel' args',
     destroy fuel' v args' (final (destroy fuel v args st)) =
     mkRun (Ok v) (final (destroy fuel v args st)) []).
Proof.
  intros D O. apply isDestroyed_false in D.
  rewrite destroy_not_destroyed in * by exact D.
  unfold destroy_live in *.
  fold (destroy_teardown fuel v args) in *.
  destruct (outcome (triggerMethod fuel v "before:destroy" args st))
    as [x | e' | ] eqn:T.
  - right. split; [ eauto | ].
    apply yields_intro in T.
    rewrite (bind_yields _ _ _ _ _ _ T) in *. cbn [final outcome] in *.
    rewrite !bind_assign in *. cbn [final outcome] in *.
    set (s3 := final (assign v (Set_isRendered false)
                        (final (assign v (Set_isDestroyed true)
                                  (final (triggerMethod fuel v "before:destroy"
                                            args st)))))) in *.
    assert (H : heap (final (destroy_teardown fuel v args s3)) v =
                destroyed_obj
                  (heap (final (triggerMethod fuel v "before:destroy" args st)) v)).
    { rewrite keeps_heap_destroy_teardown. unfold s3. cbn [final assign heap].
      rewrite !update_same. reflexivity. }
    assert (Dd : _isDestroyed (heap (final (destroy_teardown fuel v args s3)) v)
                 = true) by (rewrite H; reflexivity).
    split; [ apply isDestroyed_true; exact Dd | ].
    split; [ unfold isRendered; rewrite H; reflexivity | ].
    intros fuel' args'. apply destroy_destroyed. exact Dd.
  - left. rewrite bind_throw with (e := e') in * by exact T.
    cbn [outcome final log] in *. inversion O; subst e'.
    split; [ reflexivity | ].
    split; [ apply keeps_heap_triggerMethod | reflexivity ].
  - rewrite bind_diverge in O by exact T. discriminate O.
Qed.

(** ** What comes last *)

Lemma split_before (Q : Event -> Prop) (l1 : list Event) :
  forall l2 pre x post,
    l1 ++ l2 = pre ++ x :: post ->
    Forall (fun ev => ~ Q ev) l1 -> Q x ->
    exists pre', pre = l1 ++ pre' /\ l2 = pre' ++ x :: post.
Proof.
  induction l1 as [ | a l1 IH]; intros l2 pre x post E C H; simpl in *.
  - exists pre. auto.
  - inversion C as [ | a' l' Ca Cb]; subst.
    destruct pre as [ | b pre]; simpl in E; injection E as E1 E2; subst.
    + contradiction.
    + destruct (IH _ _ _ _ E2 Cb H) as (pre' & -> & ->).
      exists pre'. auto.
Qed.

Lemma only_last_none Q l : Forall (fun ev => ~ Q ev) l -> only_last Q l.
Proof.
  intros C pre x post E H. subst l.
  apply Forall_app in C. destruct C as (_ & C). inversion C; subst. contradiction.
Qed.

Lemma only_last_app Q l1 l2 :
  Forall (fun ev => ~ Q ev) l1 -> only_last Q l2 -> only_last Q (l1 ++ l2).
Proof.
  intros C L pre x post E H.
  destruct (split_before Q l1 _ _ _ _ E C H) as (pre' & _ & E2).
  eapply L; eassumption.
Qed.

Lemma only_last_bind {A B} Q (m : M A) (f : A -> M B) :
  log_all (fun ev => ~ Q ev) m ->
  (forall a st, only_last Q (log (f a st))) ->
  forall st, only_last Q (log (bind m f st)).
Proof.
  intros Hm Hf st. unfold bind.
  destruct (outcome (m st)) eqn:E; simpl;
    try (apply only_last_none; apply Hm).
  apply only_last_app; [ apply Hm | apply Hf ].
Qed.

Lemma only_last_single Q (x : Event) : only_last Q [x].
Proof.
  intros pre y post E _. destruct pre as [ | a pre]; simpl in E.
  - now inversion E.
  - inversion E as [[E1 E2]]. destruct pre; discriminate E2.
Qed.

Lemma only_last_destroy fuel v args st :
  only_last (is_stopListening v) (log (destroy fuel v args st)).
Proof.
  revert st. unfold destroy.
  assert (T : forall n, log_all (fun ev => ~ is_stopListening v ev)
                                (triggerMethod fuel v n args)).
  { intros n. apply log_all_triggerMethod; simpl; auto. }
  apply only_last_bind; [ apply log_all_this | intros o st ].
  destruct (_isDestroyed o).
  { apply only_last_none. constructor. }
  revert st.
  apply only_last_bind; [ apply T | intros _ ].
  apply only_last_bind; [ log_tac | intros _ ].
  apply only_last_bind; [ log_tac | intros _ ].
  apply only_last_bind; [ unfold unbindUIElements; log_tac | intros _ ].
  apply only_last_bind; [ log_tac | intros _ ].
  apply only_last_bind; [ log_tac | intros _ ].
  apply only_last_bind; [ log_tac | intros _ ].
  apply only_last_bind; [ apply T | intros _ st ].
  replace (log ((call (StopListening v) ;; ret v) st))
    with (log (call (StopListening v) st)).
  - unfold call. destruct (perform (StopListening v) (heap st) (env st)).
    apply only_last_single.
  - unfold bind. destruct (outcome (call (StopListening v) st)); simpl;
      auto using app_nil_r.
Qed.

(** X6: in a run of [destroy], however it ends, nothing follows a call
    of [stopListening] on the view; so a run that throws has released the
    listeners only if [stopListening] itself is what threw. *)
Theorem stopListening_comes_last fuel v args st :
  only_last (is_stopListening v) (log (destroy fuel v args st)) /\
  (forall e k,
      outcome (destroy fuel v args st) = Throw e ->
      In (Call (StopListening v) k) (log (destroy fuel v args st)) ->
      k = Thrown e).
Proof.
  pose proof (only_last_destroy fuel v args st) as L.
  split; [ exact L | ].
  intros e k O H.
  pose proof (propagates_destroy fuel v args st) as P. rewrite O in P.
  destruct P as (c & pre & E & _).
  apply in_split in H. destruct H as (p & q & H).
  assert (Q : q = []) by (eapply L; [ exact H | reflexivity ]).
  subst q. rewrite E in H. apply app_inj_tail in H.
  destruct H as (_ & H). inversion H. reflexivity.
Qed.

(** ** Hashes without a key twice *)

Lemma lookup_none_keys k (t : Props) :
  lookup_prop k t = None <-> ~ In k (map fst t).
Proof.
  induction t as [ | [k' y] t IH]; simpl.
  - tauto.
  - destruct (String.eqb k k') eqn:E.
    + apply String.eqb_eq in E. subst. split; [ discriminate | tauto ].
    + apply String.eqb_neq in E. rewrite IH. split.
      * intros N [H | H]; [ congruence | tauto ].
      * tauto.
Qed.

Lemma keys_assign k x (t : Props) :
  map fst (assign_prop k x t) =
  match lookup_prop k t with
  | Some _ => map fst t
  | None => map fst t ++ [k]
  end.
Proof.
  induction t as [ | [k' y] t IH]; simpl.
  - reflexivity.
  - destruct (String.eqb k k') eqn:E; simpl.
    + reflexivity.
    + rewrite IH. destruct (lookup_prop k t); reflexivity.
Qed.

Lemma nodup_assign k x (t : Props) :
  NoDup (map fst t) -> NoDup (map fst (assign_prop k x t)).
Proof.
  intros N. rewrite keys_assign. destruct (lookup_prop k t) eqn:E.
  - exact N.
  - apply lookup_none_keys in E.
    apply NoDup_app; [ exact N | repeat constructor; simpl; tauto | ].
    intros a Ha [<- | []]. contradiction.
Qed.

Lemma nodup_extend_one (t : Props) s :
  NoDup (map fst t) -> NoDup (map fst (extend_one t s)).
Proof.
  unfold extend_one. generalize (props_of s) at 1. intros l. revert t.
  induction l as [ | kv l IH]; intros t N; simpl.
  - exact N.
  - apply IH. now apply nodup_assign.
Qed.

Lemma nodup_extend sources : forall (t : Props),
  NoDup (map fst t) -> NoDup (map fst (props_of (_extend t sources))).
Proof.
  unfold _extend. simpl.
  induction sources as [ | s rest IH]; intros t N; simpl.
  - exact N.
  - apply IH. now apply nodup_extend_one.
Qed.

Lemma log_all_getEvents P v eventsArg :
  (forall x k, P (Call (GetValue v x) k)) ->
  (forall x k, P (Call (NormalizeUIKeys v x) k)) ->
  log_all P (getEvents v eventsArg).
Proof. intros H1 H2. unfold getEvents. log_tac. Qed.

Lemma log_all_getTriggers P v :
  (forall k, P (Call (Result_triggers v) k)) ->
  (forall x k, P (Call (NormalizeUIKeys v x) k)) ->
  (forall x k, P (Call (GetViewTriggers v v x) k)) ->
  log_all P (getTriggers v).
Proof. intros H1 H2 H3. unfold getTriggers. log_tac. Qed.

Lemma log_all_buildEventProxies P v :
  (forall x k, P (Call (GetValue v x) k)) ->
  (forall w, P (Assign v w)) ->
  log_all P (_buildEventProxies v).
Proof. intros H1 H2. unfold _buildEventProxies. log_tac. Qed.

(** X7: in a run of [delegateEvents], however it ends, Backbone's
    [delegateEvents] is called at most once and nothing follows that
    call; it is called on the view itself, with a hash in which no key
    comes twice, whatever keys the four sources share. *)
Theorem delegation_is_single v eventsArg st :
  Forall (well_formed_delegation v) (log (delegateEvents v eventsArg st)) /\
  only_last is_Backbone_delegateEvents (log (delegateEvents v eventsArg st)).
Proof.
  split.
  - revert st. unfold delegateEvents.
    apply log_all_bind; [ log_tac | intros _ ].
    apply log_all_bind;
      [ apply log_all_buildEventProxies; simpl; auto | intros _ ].
    apply log_all_bind; [ apply log_all_getEvents; simpl; auto | intros ve ].
    apply log_all_bind; [ log_tac | intros _ ].
    apply log_all_bind; [ log_tac | intros be ].
    apply log_all_bind; [ log_tac | intros bt ].
    apply log_all_bind;
      [ apply log_all_getTriggers; simpl; auto | intros vt ].
    cbv zeta.
    apply log_all_bind; [ | intros _; apply log_all_ret ].
    apply log_all_call. intros k. simpl. split; [ reflexivity | ].
    apply (nodup_extend [be; ve; bt; vt] []). constructor.
  - revert st. unfold delegateEvents.
    apply only_last_bind; [ log_tac | intros _ ].
    apply only_last_bind;
      [ apply log_all_buildEventProxies; simpl; auto | intros _ ].
    apply only_last_bind; [ apply log_all_getEvents; simpl; auto | intros ve ].
    apply only_last_bind; [ log_tac | intros _ ].
    apply only_last_bind; [ log_tac | intros be ].
    apply only_last_bind; [ log_tac | intros bt ].
    apply only_last_bind;
      [ apply log_all_getTriggers; simpl; auto | intros vt st ].
    cbv zeta.
    match goal with
    | |- only_last _ (log ((call ?c ;; ret v) st)) =>
        replace (log ((call c ;; ret v) st)) with (log (call c st))
    end.
    + unfold call.
      match goal with
      | |- context [perform ?c ?h ?e] => destruct (perform c h e)
      end.
      apply only_last_single.
    + unfold bind.
      match goal with
      | |- context [outcome ?r] => destruct (outcome r)
      end; simpl; auto using app_nil_r.
Qed.

(** ** Once destroyed *)

Lemma log_all_invoke c : log_all keeps_destroyed (invoke c).
Proof.
  assert (T : forall fuel v eventName args,
             log_all keeps_destroyed (triggerMethod fuel v eventName args)).
  { intros fuel. apply log_all_triggerMethod; intros; exact I. }
  assert (U : forall v, log_all keeps_destroyed (unbindUIElements v)).
  { intros v. unfold unbindUIElements. log_tac. }
  destruct c; simpl; (apply log_all_bind; [ | intros ?; apply log_all_ret ]).
  - unfold destroy.
    apply log_all_bind; [ apply log_all_this | intros o ].
    destruct (_isDestroyed o); [ apply log_all_ret | ].
    apply log_all_bind; [ apply T | intros _ ].
    apply log_all_bind; [ apply log_all_assign; exact I | intros _ ].
    apply log_all_bind; [ apply log_all_assign; exact I | intros _ ].
    apply log_all_bind; [ apply U | intros _ ].
    apply log_all_bind; [ apply log_all_call; intros; exact I | intros _ ].
    apply log_all_bind; [ apply log_all_call; intros; exact I | intros _ ].
    apply log_all_bind; [ apply log_all_call; intros; exact I | intros _ ].
    apply log_all_bind; [ apply T | intros _ ].
    apply log_all_bind; [ apply log_all_call; intros; exact I | intros _ ].
    apply log_all_ret.
  - unfold delegateEvents.
    apply log_all_bind; [ log_tac | intros _ ].
    apply log_all_bind; [ unfold _buildEventProxies; log_tac | intros _ ].
    apply log_all_bind;
      [ apply log_all_getEvents; intros; exact I | intros viewEvents ].
    apply log_all_bind; [ log_tac | intros _ ].
    apply log_all_bind; [ log_tac | intros behaviorEvents ].
    apply log_all_bind; [ log_tac | intros behaviorTriggers ].
    apply log_all_bind;
      [ apply log_all_getTriggers; intros; exact I | intros viewTriggers ].
    log_tac.
  - unfold delegateEntityEvents. log_tac.
  - unfold undelegateEntityEvents. log_tac.
  - unfold bindUIElements. log_tac.
  - apply U.
  - unfold getUI, _ensureViewIsIntact. log_tac.
  - apply T.
  - unfold mixinTemplateContext. log_tac.
Qed.

(** X1: no method of the mixin assigns [_isDestroyed] anything but
    [true], whatever it is called on and however the call ends; so,
    with collaborators that leave the flag alone, whatever methods of the
    mixin a client calls, in whatever order, on whatever views, a view
    that read as destroyed before still reads as destroyed after. *)
Theorem destroyed_is_forever cs st x :
  (forall c s, Forall keeps_destroyed (log (invoke c s))) /\
  (isDestroyed st x = true -> isDestroyed (invoke_all cs st) x = true).
Proof.
  split; [ intros c s; apply log_all_invoke | ].
  assert (F : lifecycle_frame (heap st) (heap (invoke_all cs st))).
  { revert st. induction cs as [ | c cs IH]; intros st; simpl.
    - apply lifecycle_frame_refl.
    - eapply lifecycle_frame_trans; [ apply lifecycle_frame_invoke | apply IH ]. }
  destruct (F x) as (_ & D).
  intros H. apply isDestroyed_true. apply D. now apply isDestroyed_true.
Qed.

(** ** The store after [delegateEvents] *)

Lemma replay_app l1 : forall l2 h, replay (l1 ++ l2) h = replay l2 (replay l1 h).
Proof.
  induction l1 as [ | [c k | v w] l1 IH]; intros l2 h; simpl; auto.
Qed.

Lemma faithful_ret {A} (a : A) : faithful (ret a).
Proof. intros st. reflexivity. Qed.

Lemma faithful_this v : faithful (this_ v).
Proof. intros st. reflexivity. Qed.

Lemma faithful_assign v w : faithful (assign v w).
Proof. intros st. reflexivity. Qed.

Lemma faithful_call c : faithful (call c).
Proof.
  intros st. unfold call. destruct (perform c (heap st) (env st)). reflexivity.
Qed.

Lemma faithful_bind {A B} (m : M A) (f : A -> M B) :
  faithful m -> (forall a, faithful (f a)) -> faithful (bind m f).
Proof.
  intros Hm Hf st. unfold bind.
  destruct (outcome (m st)) eqn:E; simpl; try apply Hm.
  rewrite replay_app, <- Hm. apply Hf.
Qed.

Ltac faithful_tac :=
  repeat first
    [ progress cbv zeta
    | apply faithful_ret
    | apply faithful_this
    | apply faithful_assign
    | apply faithful_call
    | apply faithful_bind; [ | intros ? ]
    | match goal with
      | |- faithful (if ?b then _ else _) => destruct b
      end ].

Lemma faithful_delegateEvents v eventsArg : faithful (delegateEvents v eventsArg).
Proof.
  unfold delegateEvents, _buildEventProxies, getEvents, getTriggers.
  faithful_tac.
Qed.

(** X8: when [delegateEvents] ends well, the view has in
    [_childViewEvents] and [_childViewTriggers] what [getValue] returned
    for the two options (the second and the fourth event of the log).
    The events that are normalised (the sixth and the seventh event) are
    those of the argument if it is truthy and those of [this.events]
    otherwise; they are stored in [events] if there was no argument at
    all, and an argument, be it [null] or an empty string, leaves
    [events] as it was.  The flags of the view and every other object
    are as they were. *)
Theorem delegateEvents_stores v eventsArg st r :
  outcome (delegateEvents v eventsArg st) = Ok r ->
  exists cve cvt raw viewEvents,
    nth_error (log (delegateEvents v eventsArg st)) 1 =
      Some (Call (GetValue v (getOption (heap st v) "childViewEvents"))
                 (Normal cve)) /\
    nth_error (log (delegateEvents v eventsArg st)) 3 =
      Some (Call (GetValue v (getOption (heap st v) "childViewTriggers"))
                 (Normal cvt)) /\
    nth_error (log (delegateEvents v eventsArg st)) 5 =
      Some (Call (GetValue v (js_or eventsArg (events (heap st v))))
                 (Normal raw)) /\
    nth_error (log (delegateEvents v eventsArg st)) 6 =
      Some (Call (NormalizeUIKeys v raw) (Normal viewEvents)) /\
    _childViewEvents (heap (final (delegateEvents v eventsArg st)) v) = cve /\
    _childViewTriggers (heap (final (delegateEvents v eventsArg st)) v) = cvt /\
    events (heap (final (delegateEvents v eventsArg st)) v) =
      (if isUndefined eventsArg then viewEvents else events (heap st v)) /\
    _isDestroyed (heap (final (delegateEvents v eventsArg st)) v) =
      _isDestroyed (heap st v) /\
    _isRendered (heap (final (delegateEvents v eventsArg st)) v) =
      _isRendered (heap st v) /\
    forall x, x <> v ->
              heap (final (delegateEvents v eventsArg st)) x = heap st x.
Proof.
  intros O. rewrite (faithful_delegateEvents v eventsArg st).
  apply yields_intro in O. apply delegateEvents_inv in O.
  destruct O as (y0 & cve & cvt & raw & viewEvents & behaviorEvents
                 & behaviorTriggers & viewTriggers & l2 & y & T & L & _).
  rewrite L. clear L.
  exists cve, cvt, raw, viewEvents.
  split; [ reflexivity | ].
  split; [ reflexivity | ].
  split; [ reflexivity | ].
  split; [ reflexivity | ].
  assert (E2 : forall h, replay l2 h = h).
  { intros h. destruct (truthy (triggers (heap st v))).
    - destruct T as (rt & nm & ->). reflexivity.
    - destruct T as (_ & ->). reflexivity. }
  destruct (isUndefined eventsArg); cbn [replay app];
    rewrite replay_app, E2; cbn [replay]; rewrite !update_same;
    (repeat (split; [ reflexivity | ]));
    intros x N; now rewrite !update_other.
Qed.

(** ** A [_parent] chain that is a cycle *)

(** X10: the loop of [_parentView] has no guard against a cycle: when
    the [_parent] references lead from the view into a set of objects
    that are no views and whose [_parent] stays in the set, the loop does
    not end, whatever the fuel, and there is no nearest parent view. *)
Theorem parentView_loops_on_cycle (cycle : oid -> Prop) v st p :
  (forall x, cycle x ->
             instanceofView (heap st x) = false /\
             exists q, _parent (heap st x) = Some q /\ cycle q) ->
  _parent (heap st v) = Some p -> cycle p ->
  (forall fuel, outcome (_parentView fuel v st) = Diverge) /\
  (forall r, ~ nearest_view (heap st) (_parent (heap st v)) r).
Proof.
  intros C P Sp.
  assert (L : forall fuel x, cycle x -> parent_loop fuel (heap st) (Some x) = None).
  { induction fuel as [ | fuel IH]; intros x Sx;
      destruct (C x Sx) as (V & q & Q & Sq); simpl; rewrite V.
    - reflexivity.
    - rewrite Q. now apply IH. }
  split.
  - intros fuel. rewrite _parentView_run, P, (L fuel p Sp). reflexivity.
  - intros r N. destruct (parent_loop_complete _ _ _ N) as (fuel0 & F).
    specialize (F fuel0 (Nat.le_refl _)). rewrite P, (L fuel0 p Sp) in F.
    discriminate F.
Qed.

(** ** [mixinTemplateContext] *)

(** X12: when [mixinTemplateContext] ends well it has made one call,
    [getValue] on the option, and left the store as it was; in the hash
    it returns a key reads as in the template context if that has the key
    and as in the target otherwise; and when the template context is no
    hash (no option is set) the hash returned is the target as it was,
    the empty hash if no target was given. *)
Theorem mixinTemplateContext_merge v o target st r :
  outcome (mixinTemplateContext v o target st) = Ok r ->
  exists templateContext,
    log (mixinTemplateContext v o target st) =
      [Call (GetValue v o) (Normal templateContext)] /\
    heap (final (mixinTemplateContext v o target st)) = heap st /\
    (forall k,
        lookup_prop k (props_of r) =
        match lookup_prop k (props_of templateContext) with
        | Some x => Some x
        | None => lookup_prop k (match target with Some ps => ps | None => [] end)
        end) /\
    (props_of templateContext = [] ->
     r = VObj (match target with Some ps => ps | None => [] end)).
Proof.
  intros O.
  pose proof (keeps_heap_mixinTemplateContext v o target st) as K.
  apply yields_intro in O.
  generalize dependent (final (mixinTemplateContext v o target st)).
  generalize dependent (log (mixinTemplateContext v o target st)).
  intros l st' H K. unfold mixinTemplateContext in H. cbv zeta in H.
  split_bind H tc s1 l1 H1. apply yields_call in H1. destruct H1 as (_ & _ & ->).
  apply yields_ret in H. destruct H as (-> & -> & ->).
  exists tc.
  split; [ reflexivity | ].
  split; [ exact K | ].
  split; [ intros k; rewrite lookup_extend; reflexivity | ].
  intros E. unfold _extend, extend_one. simpl. rewrite E. reflexivity.
Qed.

(** ** Use after destroy *)

Lemma ensureViewIsIntact_run v st :
  _ensureViewIsIntact v st =
  if _isDestroyed (heap st v)
  then mkRun (Throw (ViewDestroyedError (heap st v))) st []
  else mkRun (Ok tt) st [].
Proof.
  unfold _ensureViewIsIntact. rewrite bind_this.
  destruct (_isDestroyed (heap st v)); reflexivity.
Qed.

(** X14: [getUI] always comes back and leaves the store as it was.  It
    throws in two cases only: the view is destroyed, and what is thrown
    is the [ViewDestroyedError] of the view, [_getUI] not being called;
    or the view is live and [_getUI] threw, and what is thrown is what
    [_getUI] threw. *)
Theorem getUI_throws v name st :
  outcome (getUI v name st) <> Diverge /\
  heap (final (getUI v name st)) = heap st /\
  forall e,
    outcome (getUI v name st) = Throw e <->
    (isDestroyed st v = true /\ e = ViewDestroyedError (heap st v) /\
     log (getUI v name st) = []) \/
    (isDestroyed st v = false /\
     exists e', perform (GetUI_ v name) (heap st) (env st) = (Thrown e, e')).
Proof.
  split; [ | split; [ apply keeps_heap_getUI | ] ].
  - unfold getUI, bind. rewrite ensureViewIsIntact_run.
    destruct (_isDestroyed (heap st v)); cbn [outcome final];
      [ discriminate | ].
    unfold call. destruct (perform (GetUI_ v name) (heap st) (env st)) as [[x | x] e'];
      discriminate.
  - intros e. unfold getUI, bind. rewrite ensureViewIsIntact_run.
    unfold isDestroyed.
    destruct (_isDestroyed (heap st v)); cbn [outcome final log negb].
    + split.
      * intros H. inversion H. left. auto.
      * intros [(_ & -> & _) | (H & _)]; [ reflexivity | discriminate H ].
    + unfold call.
      destruct (perform (GetUI_ v name) (heap st) (env st)) as [[x | x] e'];
        cbn [outcome].
      * split; [ discriminate | ].
        intros [(H & _) | (_ & e'' & H)]; discriminate H.
      * split.
        -- intros H. inversion H. right. eauto.
        -- intros [(H & _) | (_ & e'' & H)]; [ discriminate H | ].
           inversion H. reflexivity.
Qed.

Lemma ViewDestroyedError_cid o o' :
  cid o' = cid o -> ViewDestroyedError o' = ViewDestroyedError o.
Proof. unfold ViewDestroyedError. intros ->. reflexivity. Qed.

(** X15: once [destroy] has ended well, [getUI] on the view, under
    whatever name, throws the [ViewDestroyedError] with the [cid] the
    view had, and calls nothing. *)
Theorem getUI_after_destroy fuel v args st r name :
  outcome (destroy fuel v args st) = Ok r ->
  getUI v name (final (destroy fuel v args st)) =
  mkRun (Throw (ViewDestroyedError (heap st v)))
        (final (destroy fuel v args st)) [].
Proof.
  intros O. apply yields_intro in O.
  pose proof (destroy_post _ _ _ _ _ _ _ O) as (_ & D).
  destruct (lifecycle_frame_destroy fuel v args st v) as ((_ & C & _) & _).
  unfold getUI.
  rewrite bind_throw
    with (e := ViewDestroyedError (heap (final (destroy fuel v args st)) v));
    rewrite ensureViewIsIntact_run, D; cbn [outcome final log];
    [ | reflexivity ].
  rewrite (ViewDestroyedError_cid _ _ C). reflexivity.
Qed.

End Mixin.

Arguments isDestroyed {Env} _ _.
Arguments isRendered {Env} _ _.
Arguments isAttached {Env} _ _.
Arguments destroy {Env} _ _ _ _ _ _.
Arguments destroy_times {Env} _ _ _ _ _ _ _.
Arguments triggerMethod {Env} _ _ _ _ _ _ _.
Arguments _triggerEventOnParentLayout {Env} _ _ _ _ _ _ _.
Arguments _parentView {Env} _ _ _.
Arguments delegateEvents {Env} _ _ _ _.
Arguments delegateEntityEvents {Env} _ _ _.
Arguments undelegateEntityEvents {Env} _ _ _.
Arguments bindUIElements {Env} _ _ _.
Arguments getUI {Env} _ _ _ _.
Arguments getEvents {Env} _ _ _ _.
Arguments getTriggers {Env} _ _ _.
Arguments call {Env} _ _ _.
Arguments total_normal {Env} _.
Arguments yields {Env A} _ _ _ _ _.

Arguments mixinTemplateContext {Env} _ _ _ _ _.
Arguments invoke {Env} _ _ _ _.
Arguments invoke_all {Env} _ _ _ _.
Arguments unbindUIElements {Env} _ _ _.
Arguments ret {Env A} _ _.
Arguments bind {Env A B} _ _ _.
Arguments throw {Env A} _ _.
Arguments diverge {Env A} _.
Arguments this_ {Env} _ _.
Arguments assign {Env} _ _ _.

(** * Collaborators that write the store

    So far a collaborator leaves the properties of the store as they are.
    Those of Marionette do not always.  The region that holds a view
    listens to the ['destroy'] event of the view and lets go of it
    ([delete view._parent]) while the imported [triggerMethod] fires the
    event; [_removeChildren] destroys the child views; a handler of the
    user may do anything.  To whom [triggerMethod] forwards an event
    depends on the store it finds once such calls have returned.  The
    dispatch of an event and [destroy] are therefore embedded a second
    time, word for word, over collaborators that hand back the store they
    leave. *)

Module Open.

Section Dispatch.

Variable Env : Type.

(** The collaborators.  A call sees the store and the environment and
    may change both; what it has written to the store before it throws
    stays written. *)
Variable perform : Callee -> Heap -> Env -> Completion * Heap * Env.

(** What a value gives under a key that is not one of its own properties
    (see [member]). *)
Variable inherited : Val -> string -> Val.

Notation "x <- m ;; k" := (bind m (fun x => k))
  (at level 61, m at next level, right associativity).
Notation "m ;; k" := (bind m (fun _ => k))
  (at level 61, right associativity).

(** A call to a collaborator. *)
Definition call (c : Callee) : M Env Val :=
  fun st =>
    let '(k, h', e') := perform c (heap st) (env st) in
    mkRun (match k with Normal x => Ok x | Thrown e => Throw e end)
          (mkState h' e')
          [Call c k].

(** Lines 154-159. *)
Definition unbindUIElements (v : oid) : M Env oid :=
  call (UnbindUIElements_ v) ;;
  call (UnbindBehaviorUIElements v) ;;
  ret v.

(** Lines 188-214, with the [triggerMethod] of the parent view passed in. *)
Definition _triggerEventOnParentLayout
    (triggerMethod : oid -> string -> list Val -> M Env Val)
    (fuel : nat) (v : oid) (eventName : string) (args : list Val)
  : M Env unit :=
  layoutView <- _parentView fuel v ;;
  match layoutView with
  | None => ret tt
  | Some lv =>
      o <- this_ lv ;;
      let eventPrefix := getOption o "childViewEventPrefix" in
      let prefixedEventName := prefixed eventPrefix eventName in
      triggerMethod lv prefixedEventName args ;;
      o <- this_ lv ;;
      childViewEvents <- call (NormalizeMethods lv (_childViewEvents o)) ;;
      (if truthy childViewEvents
          && isFunction (member inherited childViewEvents eventName)
       then call (Apply (member inherited childViewEvents eventName) lv args) ;;
            ret tt
       else ret tt) ;;
      o <- this_ lv ;;
      let childViewTriggers := _childViewTriggers o in
      if truthy childViewTriggers
      then match member inherited childViewTriggers eventName with
           | VStr s => triggerMethod lv s args ;; ret tt
           | _ => ret tt
           end
      else ret tt
  end.

(** Lines 172-179. *)
Fixpoint triggerMethod (fuel : nat) (v : oid) (eventName : string)
    (args : list Val) : M Env Val :=
  match fuel with
  | 0 => diverge
  | S fuel' =>
      r <- call (TriggerMethod_import v eventName args) ;;
      call (TriggerEventOnBehaviors v eventName args) ;;
      _triggerEventOnParentLayout (triggerMethod fuel') fuel' v eventName args ;;
      ret r
  end.

(** Lines 118-144. *)
Definition destroy (fuel : nat) (v : oid) (args : list Val) : M Env oid :=
  o <- this_ v ;;
  if _isDestroyed o then ret v
  else
    triggerMethod fuel v "before:destroy" args ;;
    assign v (Set_isDestroyed true) ;;
    assign v (Set_isRendered false) ;;
    unbindUIElements v ;;
    call (RemoveElement v) ;;
    call (RemoveChildren v) ;;
    call (DestroyBehaviors v args) ;;
    triggerMethod fuel v "destroy" args ;;
    call (StopListening v) ;;
    ret v.

(** ** Notions the statements use *)

(** What [destroy] does between its two events: the flags, then the
    teardown. *)
Definition destroy_between (v : oid) (args : list Val) : M Env unit :=
  assign v (Set_isDestroyed true) ;;
  assign v (Set_isRendered false) ;;
  unbindUIElements v ;;
  call (RemoveElement v) ;;
  call (RemoveChildren v) ;;
  call (DestroyBehaviors v args) ;;
  ret tt.

(** The store a call leaves. *)
Definition written (c : Callee) (h : Heap) (e : Env) : Heap :=
  snd (fst (perform c h e)).

(** Collaborators that always complete normally. *)
Definition total_normal : Prop :=
  forall c h e, exists x h' e', perform c h e = (Normal x, h', e').

(** Collaborators that leave a store without a [_parent] cycle as one:
    the references still go down the rank. *)
Definition keeps_ranked (rank : oid -> nat) : Prop :=
  forall c h e, ranked h rank -> ranked (written c h e) rank.

(** Two stores with the same tree of views: the same objects are views,
    with the same parents and the same prefixes. *)
Definition same_tree (h h' : Heap) : Prop :=
  forall x,
    instanceofView (h' x) = instanceofView (h x) /\
    _parent (h' x) = _parent (h x) /\
    childViewEventPrefix (h' x) = childViewEventPrefix (h x).

(** Collaborators that leave the tree of views as it is, whatever else
    they write. *)
Definition keeps_tree : Prop :=
  forall c h e, same_tree h (written c h e).

End Dispatch.

(** Collaborators of the first kind, as ones of the second: the store
    comes back as it was. *)
Definition quiet {Env : Type}
    (perform : Callee -> Heap -> Env -> Completion * Env)
    (c : Callee) (h : Heap) (e : Env) : Completion * Heap * Env :=
  let (k, e') := perform c h e in (k, h, e').

End Open.

Arguments Open.call {Env} _ _ _.
Arguments Open.unbindUIElements {Env} _ _ _.
Arguments Open._triggerEventOnParentLayout {Env} _ _ _ _ _ _ _ _.
Arguments Open.triggerMethod {Env} _ _ _ _ _ _ _.
Arguments Open.destroy {Env} _ _ _ _ _ _.
Arguments Open.destroy_between {Env} _ _ _ _.
Arguments Open.written {Env} _ _ _ _.
Arguments Open.total_normal {Env} _.
Arguments Open.keeps_ranked {Env} _ _.
Arguments Open.keeps_tree {Env} _.

(** ** Runs over collaborators that write the store *)

Section Open_runs.

Variable Env : Type.
Variable perform : Callee -> Heap -> Env -> Completion * Heap * Env.
Variable inherited : Val -> string -> Val.

(** Splits a hypothesis [yields (m ;; k) ...] into its two halves. *)
Ltac split_bind H x st l H1 :=
  let l2 := fresh "l" in
  let E := fresh "E" in
  apply yields_bind in H;
  destruct H as (x & st & l & l2 & H1 & H & E);
  cbv beta in H; subst.

Lemma open_call_normal c st x h' e' :
  perform c (heap st) (env st) = (Normal x, h', e') ->
  Open.call perform c st = mkRun (Ok x) (mkState h' e') [Call c (Normal x)].
Proof. intros E. unfold Open.call. rewrite E. reflexivity. Qed.

Lemma open_call_thrown c st x h' e' :
  perform c (heap st) (env st) = (Thrown x, h', e') ->
  Open.call perform c st = mkRun (Throw x) (mkState h' e') [Call c (Thrown x)].
Proof. intros E. unfold Open.call. rewrite E. reflexivity. Qed.

Lemma open_yields_call c st x st' l :
  yields (Open.call perform c) st x st' l ->
  perform c (heap st) (env st) = (Normal x, heap st', env st') /\
  heap st' = Open.written perform c (heap st) (env st) /\
  l = [Call c (Normal x)].
Proof.
  unfold yields, Open.call, Open.written.
  destruct (perform c (heap st) (env st)) as [[k h'] e'].
  destruct k; intros H; inversion H; subst. auto.
Qed.

Lemma open_call_final c st :
  heap (final (Open.call perform c st)) =
  Open.written perform c (heap st) (env st).
Proof.
  unfold Open.call, Open.written.
  destruct (perform c (heap st) (env st)) as [[k h'] e']. reflexivity.
Qed.

Lemma open_triggerMethod_inv fuel v eventName args st r st' l :
  yields (Open.triggerMethod perform inherited fuel v eventName args) st r st' l ->
  exists fuel' b st1 st2 t,
    fuel = S fuel' /\
    yields (Open.call perform (TriggerMethod_import v eventName args)) st r st1
           [Call (TriggerMethod_import v eventName args) (Normal r)] /\
    yields (Open.call perform (TriggerEventOnBehaviors v eventName args))
           st1 b st2
           [Call (TriggerEventOnBehaviors v eventName args) (Normal b)] /\
    yields (Open._triggerEventOnParentLayout perform inherited
              (Open.triggerMethod perform inherited fuel') fuel' v eventName
              args) st2 tt st' t /\
    l = Call (TriggerMethod_import v eventName args) (Normal r)
        :: Call (TriggerEventOnBehaviors v eventName args) (Normal b)
        :: t.
Proof.
  destruct fuel as [ | fuel']; simpl; intros H.
  - discriminate H.
  - split_bind H x st1 l1 H1.
    split_bind H b st2 l2 H2.
    split_bind H u st3 l3 H3.
    apply yields_ret in H. destruct H as (-> & -> & ->).
    pose proof (open_yields_call _ _ _ _ _ H1) as (_ & _ & ->).
    pose proof (open_yields_call _ _ _ _ _ H2) as (_ & _ & ->).
    destruct u.
    exists fuel', b, st1, st2, l3. rewrite app_nil_r. auto.
Qed.

Lemma open_cascade_none tm fuel v eventName args st :
  parent_loop fuel (heap st) (_parent (heap st v)) = Some None ->
  Open._triggerEventOnParentLayout perform inherited tm fuel v eventName
    args st = mkRun (Ok tt) st [].
Proof.
  intros P. unfold Open._triggerEventOnParentLayout.
  rewrite (bind_yields _ _ _ st None st []).
  - reflexivity.
  - unfold yields. rewrite _parentView_run, P. reflexivity.
Qed.

(** The forwarding step that ended well, read as the code runs: each
    property of the parent view is read in the store of the moment. *)
Lemma open_cascade_inv fuel v eventName args st u st' l lv :
  yields (Open._triggerEventOnParentLayout perform inherited
            (Open.triggerMethod perform inherited fuel) fuel v eventName args)
         st u st' l ->
  parent_loop fuel (heap st) (_parent (heap st v)) = Some (Some lv) ->
  exists x1 s1 l1 cve s2 s3 la lt,
    yields (Open.triggerMethod perform inherited fuel lv
              (childViewEventPrefix (heap st lv) ++ ":" ++ eventName)%string
              args)
           st x1 s1 l1 /\
    yields (Open.call perform
              (NormalizeMethods lv (_childViewEvents (heap s1 lv))))
           s1 cve s2
           [Call (NormalizeMethods lv (_childViewEvents (heap s1 lv)))
                 (Normal cve)] /\
    match handler_under inherited cve eventName with
    | Some f =>
        exists y, yields (Open.call perform (Apply f lv args)) s2 y s3
                         [Call (Apply f lv args) (Normal y)] /\
                  la = [Call (Apply f lv args) (Normal y)]
    | None => s3 = s2 /\ la = []
    end /\
    match proxy_under inherited (_childViewTriggers (heap s3 lv)) eventName with
    | Some s =>
        exists x2,
          yields (Open.triggerMethod perform inherited fuel lv s args)
                 s3 x2 st' lt
    | None => st' = s3 /\ lt = []
    end /\
    l = l1
        ++ Call (NormalizeMethods lv (_childViewEvents (heap s1 lv)))
                (Normal cve)
        :: la ++ lt.
Proof.
  intros H P. unfold Open._triggerEventOnParentLayout in H.
  split_bind H r0 s0 t0 H0.
  apply _parentView_inv in H0. destruct H0 as (P' & -> & ->).
  rewrite P in P'. inversion P'; subst r0. clear P'.
  split_bind H o1 sa ta Ha. apply yields_this in Ha. destruct Ha as (-> & -> & ->).
  cbv zeta in H. rewrite prefixed_getOption in H.
  split_bind H x1 s1 l1 H1.
  split_bind H o2 sb tb Hb. apply yields_this in Hb. destruct Hb as (-> & -> & ->).
  split_bind H cve s2 tc Hc.
  pose proof (open_yields_call _ _ _ _ _ Hc) as (_ & _ & ->).
  split_bind H u3 s3 la Hd.
  split_bind H o4 sd td He. apply yields_this in He. destruct He as (-> & -> & ->).
  cbv zeta in H.
  match type of H with
  | yields _ _ _ _ ?lt => exists x1, s1, l1, cve, s2, s3, la, lt
  end.
  split; [ exact H1 | ].
  split; [ exact Hc | ].
  split.
  { unfold handler_under.
    destruct (truthy cve && isFunction (member inherited cve eventName)).
    - split_bind Hd y se te Hy. apply yields_ret in Hd.
      destruct Hd as (_ & -> & ->).
      pose proof (open_yields_call _ _ _ _ _ Hy) as (_ & _ & ->).
      exists y. rewrite app_nil_r. auto.
    - apply yields_ret in Hd. destruct Hd as (_ & -> & ->). auto. }
  split.
  { unfold proxy_under.
    destruct (truthy (_childViewTriggers (heap s3 lv)));
      [ | apply yields_ret in H; destruct H as (_ & -> & ->); auto ].
    destruct (member inherited (_childViewTriggers (heap s3 lv)) eventName);
      try (apply yields_ret in H; destruct H as (_ & -> & ->); auto).
    split_bind H x2 sf tf Hx. apply yields_ret in H.
    destruct H as (_ & -> & ->). rewrite app_nil_r. eauto. }
  simpl. reflexivity.
Qed.

(** ** Runs that are sure to end well *)

Lemma open_call_total (T : Open.total_normal perform) c st :
  exists x st', yields (Open.call perform c) st x st' [Call c (Normal x)] /\
                heap st' = Open.written perform c (heap st) (env st).
Proof.
  destruct (T c (heap st) (env st)) as (x & h' & e' & E).
  exists x, (mkState h' e').
  unfold yields, Open.call, Open.written. rewrite E. auto.
Qed.

Lemma open_cascade_total (T : Open.total_normal perform) rank
  (K : Open.keeps_ranked perform rank) fuel
  (IH : forall lv eventName args st,
      ranked (heap st) rank -> rank lv < fuel ->
      exists r st' l,
        yields (Open.triggerMethod perform inherited fuel lv eventName args)
               st r st' l /\
        ranked (heap st') rank) :
  forall v eventName args st,
    ranked (heap st) rank -> rank v <= fuel ->
    exists st' l,
      yields (Open._triggerEventOnParentLayout perform inherited
                (Open.triggerMethod perform inherited fuel) fuel v
                eventName args) st tt st' l /\
      ranked (heap st') rank.
Proof.
  intros v eventName args st R B.
  destruct (parent_loop_total (heap st) rank R fuel (_parent (heap st v)))
    as (r & P & Q).
  { intros p E. apply R in E. lia. }
  destruct r as [lv | ].
  - destruct (Q lv eq_refl) as (p & E & L). apply R in E.
    assert (Blv : rank lv < fuel) by lia.
    unfold Open._triggerEventOnParentLayout.
    assert (Y0 : yields (_parentView fuel v) st (Some lv) st []).
    { unfold yields. rewrite _parentView_run, P. reflexivity. }
    destruct (IH lv (prefixed (getOption (heap st lv) "childViewEventPrefix")
                              eventName) args st R Blv)
      as (x1 & s1 & l1 & Y1 & R1).
    destruct (open_call_total T
                (NormalizeMethods lv (_childViewEvents (heap s1 lv))) s1)
      as (cve & s2 & Y2 & E2).
    assert (R2 : ranked (heap s2) rank) by (rewrite E2; now apply K).
    assert (Y3 : exists s3 la,
               yields (if truthy cve
                          && isFunction (member inherited cve eventName)
                       then bind (Open.call perform
                                    (Apply (member inherited cve eventName)
                                           lv args))
                                 (fun _ => ret tt)
                       else ret tt) s2 tt s3 la /\ ranked (heap s3) rank).
    { destruct (truthy cve && isFunction (member inherited cve eventName)).
      - destruct (open_call_total T
                    (Apply (member inherited cve eventName) lv args) s2)
          as (y & s3 & Y & Ey).
        exists s3,
          ([Call (Apply (member inherited cve eventName) lv args) (Normal y)]
             ++ []).
        split; [ | rewrite Ey; now apply K ].
        eapply yields_bind_intro; [ exact Y | reflexivity ].
      - exists s2, []. split; [ reflexivity | exact R2 ]. }
    destruct Y3 as (s3 & la & Y3 & R3).
    assert (Y4 : exists s4 lt,
               yields (if truthy (_childViewTriggers (heap s3 lv))
                       then match member inherited
                                         (_childViewTriggers (heap s3 lv))
                                         eventName with
                            | VStr s =>
                                bind (Open.triggerMethod perform inherited
                                        fuel lv s args)
                                     (fun _ => ret tt)
                            | _ => ret tt
                            end
                       else ret tt) s3 tt s4 lt /\ ranked (heap s4) rank).
    { destruct (truthy (_childViewTriggers (heap s3 lv)));
        [ | exists s3, []; split; [ reflexivity | exact R3 ] ].
      destruct (member inherited (_childViewTriggers (heap s3 lv)) eventName);
        try (exists s3, []; split; [ reflexivity | exact R3 ]).
      destruct (IH lv s args s3 R3 Blv) as (x2 & s4 & lt & Y & R4).
      exists s4, (lt ++ []). split; [ | exact R4 ].
      eapply yields_bind_intro; [ exact Y | reflexivity ]. }
    destruct Y4 as (s4 & lt & Y4 & R4).
    exists s4. eexists. split; [ | exact R4 ].
    eapply yields_bind_intro; [ exact Y0 | ]. cbv beta.
    eapply yields_bind_intro; [ reflexivity | ]. cbv beta zeta.
    eapply yields_bind_intro; [ exact Y1 | ].
    eapply yields_bind_intro; [ reflexivity | ]. cbv beta.
    eapply yields_bind_intro; [ exact Y2 | ]. cbv beta.
    eapply yields_bind_intro; [ exact Y3 | ]. cbv beta.
    eapply yields_bind_intro; [ reflexivity | ]. cbv beta zeta.
    exact Y4.
  - exists st, []. split; [ | exact R ].
    unfold yields. now apply open_cascade_none.
Qed.

Lemma open_triggerMethod_total (T : Open.total_normal perform) rank
  (K : Open.keeps_ranked perform rank) fuel :
  forall v eventName args st,
    ranked (heap st) rank -> rank v < fuel ->
    exists r st' l,
      yields (Open.triggerMethod perform inherited fuel v eventName args)
             st r st' l /\
      ranked (heap st') rank.
Proof.
  induction fuel as [ | fuel IH]; intros v eventName args st R B; [ lia | ].
  simpl.
  destruct (open_call_total T (TriggerMethod_import v eventName args) st)
    as (r & s1 & Y1 & E1).
  assert (R1 : ranked (heap s1) rank) by (rewrite E1; now apply K).
  destruct (open_call_total T (TriggerEventOnBehaviors v eventName args) s1)
    as (b & s2 & Y2 & E2).
  assert (R2 : ranked (heap s2) rank) by (rewrite E2; now apply K).
  destruct (open_cascade_total T rank K fuel IH v eventName args s2 R2)
    as (s3 & l3 & Y3 & R3); [ lia | ].
  exists r, s3. eexists. split; [ | exact R3 ].
  eapply yields_bind_intro; [ exact Y1 | ]. cbv beta.
  eapply yields_bind_intro; [ exact Y2 | ]. cbv beta.
  eapply yields_bind_intro; [ exact Y3 | ]. cbv beta.
  reflexivity.
Qed.

(** ** The order of a dispatch *)

Lemma bind_ret_run {A B} (m : M Env A) (b : B) st :
  bind m (fun _ => ret b) st =
  mkRun (match outcome (m st) with
         | Ok _ => Ok b
         | Throw e => Throw e
         | Diverge => Diverge
         end) (final (m st)) (log (m st)).
Proof.
  unfold bind. destruct (outcome (m st)); cbn [ret outcome final log];
    try reflexivity.
  now rewrite app_nil_r.
Qed.

(** C5: in every run of [triggerMethod(eventName, ...args)] the call of
    the imported [triggerMethod], which invokes the view's own method,
    comes first; the notification of the behaviors comes second and only
    if the first returned; the forwarding to the parent view comes third
    and only if the second returned.  The forwarding starts from the
    state the behaviors leave, and that is where the parent view is
    looked up: it is the parent view of that moment, not the one the view
    had when [triggerMethod] was called, that gets its own
    [triggerMethod] called under the prefixed name, first thing; if the
    view has none at that moment, nothing is forwarded.  The run ends as
    the forwarding ends, and when that ends well the run returns what the
    first call returned.  With collaborators that always return and keep
    the [_parent] references going down a rank, and with fuel at least the
    rank of the view, the run ends well. *)
Theorem triggerMethod_order n v eventName args st :
  ((exists e,
       outcome (Open.triggerMethod perform inherited (S n) v eventName args st)
       = Throw e /\
       log (Open.triggerMethod perform inherited (S n) v eventName args st) =
         [Call (TriggerMethod_import v eventName args) (Thrown e)]) \/
   (exists r e,
       outcome (Open.triggerMethod perform inherited (S n) v eventName args st)
       = Throw e /\
       log (Open.triggerMethod perform inherited (S n) v eventName args st) =
         [Call (TriggerMethod_import v eventName args) (Normal r);
          Call (TriggerEventOnBehaviors v eventName args) (Thrown e)]) \/
   (exists r b s1 s2,
       yields (Open.call perform (TriggerMethod_import v eventName args))
              st r s1
              [Call (TriggerMethod_import v eventName args) (Normal r)] /\
       yields (Open.call perform (TriggerEventOnBehaviors v eventName args))
              s1 b s2
              [Call (TriggerEventOnBehaviors v eventName args) (Normal b)])) /\
  (forall r b s1 s2,
      yields (Open.call perform (TriggerMethod_import v eventName args))
             st r s1
             [Call (TriggerMethod_import v eventName args) (Normal r)] ->
      yields (Open.call perform (TriggerEventOnBehaviors v eventName args))
             s1 b s2
             [Call (TriggerEventOnBehaviors v eventName args) (Normal b)] ->
      log (Open.triggerMethod perform inherited (S n) v eventName args st) =
        Call (TriggerMethod_import v eventName args) (Normal r)
        :: Call (TriggerEventOnBehaviors v eventName args) (Normal b)
        :: log (Open._triggerEventOnParentLayout perform inherited
                  (Open.triggerMethod perform inherited n) n v eventName
                  args s2) /\
      outcome (Open.triggerMethod perform inherited (S n) v eventName args st)
      = match outcome (Open._triggerEventOnParentLayout perform inherited
                         (Open.triggerMethod perform inherited n) n v
                         eventName args s2) with
        | Ok _ => Ok r
        | Throw e => Throw e
        | Diverge => Diverge
        end /\
      (outcome (_parentView n v s2) = Ok None ->
       Open._triggerEventOnParentLayout perform inherited
         (Open.triggerMethod perform inherited n) n v eventName args s2 =
       mkRun (Ok tt) s2 []) /\
      (forall lv,
          outcome (_parentView n v s2) = Ok (Some lv) ->
          outcome (Open._triggerEventOnParentLayout perform inherited
                     (Open.triggerMethod perform inherited n) n v eventName
                     args s2) = Ok tt ->
          exists x t,
            log (Open._triggerEventOnParentLayout perform inherited
                   (Open.triggerMethod perform inherited n) n v eventName
                   args s2) =
            Call (TriggerMethod_import lv
                    (childViewEventPrefix (heap s2 lv) ++ ":" ++ eventName)%string
                    args) (Normal x)
            :: t)) /\
  (Open.total_normal perform ->
   forall rank,
     Open.keeps_ranked perform rank ->
     ranked (heap st) rank -> rank v <= n ->
     exists r,
       outcome (Open.triggerMethod perform inherited (S n) v eventName args st)
       = Ok r).
Proof.
  split; [ | split ].
  - simpl.
    destruct (perform (TriggerMethod_import v eventName args) (heap st) (env st))
      as [[[r | e] h1] e1] eqn:P1.
    + pose proof (open_call_normal _ _ _ _ _ P1) as C1.
      set (s1 := mkState h1 e1) in *.
      destruct (perform (TriggerEventOnBehaviors v eventName args)
                        (heap s1) (env s1))
        as [[[b | e] h2] e2] eqn:P2.
      * pose proof (open_call_normal _ _ _ _ _ P2) as C2.
        right. right. exists r, b, s1, (mkState h2 e2).
        split; [ exact C1 | exact C2 ].
      * pose proof (open_call_thrown _ _ _ _ _ P2) as C2.
        right. left. exists r, e.
        rewrite (bind_yields _ _ _ _ _ _ _ C1).
        rewrite bind_throw with (e := e) by (rewrite C2; reflexivity).
        rewrite C2. simpl. auto.
    + pose proof (open_call_thrown _ _ _ _ _ P1) as C1.
      left. exists e.
      rewrite bind_throw with (e := e) by (rewrite C1; reflexivity).
      rewrite C1. simpl. auto.
  - intros r b s1 s2 Y1 Y2.
    assert (E : Open.triggerMethod perform inherited (S n) v eventName args st =
                mkRun (match outcome
                               (Open._triggerEventOnParentLayout perform
                                  inherited
                                  (Open.triggerMethod perform inherited n) n v
                                  eventName args s2) with
                       | Ok _ => Ok r
                       | Throw e => Throw e
                       | Diverge => Diverge
                       end)
                      (final (Open._triggerEventOnParentLayout perform
                                inherited
                                (Open.triggerMethod perform inherited n) n v
                                eventName args s2))
                      (Call (TriggerMethod_import v eventName args) (Normal r)
                       :: Call (TriggerEventOnBehaviors v eventName args)
                               (Normal b)
                       :: log (Open._triggerEventOnParentLayout perform
                                 inherited
                                 (Open.triggerMethod perform inherited n) n v
                                 eventName args s2))).
    { simpl.
      rewrite (bind_yields _ _ _ _ _ _ _ Y1).
      rewrite (bind_yields _ _ _ _ _ _ _ Y2).
      rewrite bind_ret_run. reflexivity. }
    rewrite E. cbn [log outcome].
    split; [ reflexivity | ].
    split; [ reflexivity | ].
    split.
    + intros PV. rewrite _parentView_run in PV.
      destruct (parent_loop n (heap s2) (_parent (heap s2 v))) as [pr | ] eqn:P;
        [ | discriminate ].
      simpl in PV. inversion PV; subst pr.
      now apply open_cascade_none.
    + intros lv PV O. rewrite _parentView_run in PV.
      destruct (parent_loop n (heap s2) (_parent (heap s2 v))) as [pr | ] eqn:P;
        [ | discriminate ].
      simpl in PV. inversion PV; subst pr. clear PV.
      apply yields_intro in O.
      destruct (open_cascade_inv _ _ _ _ _ _ _ _ _ O P)
        as (x1 & sa & l1 & cve & sb & sc & la & lt & Ya & _ & _ & _ & Lt).
      apply open_triggerMethod_inv in Ya.
      destruct Ya as (? & ? & ? & ? & t1 & _ & _ & _ & _ & L1).
      exists x1. eexists. rewrite Lt, L1. simpl. reflexivity.
  - intros T rank K R B.
    destruct (open_triggerMethod_total T rank K (S n) v eventName args st R)
      as (r & st' & l & Y & _); [ lia | ].
    exists r. eapply yields_outcome. exact Y.
Qed.

(** ** The order of a forwarding step *)

(** C10: when the view has a parent view [lv] and the forwarding step
    ends well, its log is, in this order: the run of [lv]'s
    [triggerMethod] under the prefixed name; the call of
    [normalizeMethods] on what [lv._childViewEvents] is once that run has
    returned; the application to [lv] and the arguments of the function
    that the normalized hash has under the event name, own or inherited,
    if it has one; the run of [lv]'s [triggerMethod] under the string
    that [lv._childViewTriggers] has under the event name once the
    handler has returned, if it has one.  Each step starts in the state
    the step before has left. *)
Theorem forwarding_order fuel v eventName args st lv :
  outcome (_parentView fuel v st) = Ok (Some lv) ->
  outcome (Open._triggerEventOnParentLayout perform inherited
             (Open.triggerMethod perform inherited fuel) fuel v eventName
             args st) = Ok tt ->
  exists x1 s1 l1 cve s2 s3 la lt,
    yields (Open.triggerMethod perform inherited fuel lv
              (childViewEventPrefix (heap st lv) ++ ":" ++ eventName)%string
              args) st x1 s1 l1 /\
    yields (Open.call perform
              (NormalizeMethods lv (_childViewEvents (heap s1 lv))))
           s1 cve s2
           [Call (NormalizeMethods lv (_childViewEvents (heap s1 lv)))
                 (Normal cve)] /\
    match handler_under inherited cve eventName with
    | Some f =>
        exists y, yields (Open.call perform (Apply f lv args)) s2 y s3 la /\
                  la = [Call (Apply f lv args) (Normal y)]
    | None => s3 = s2 /\ la = []
    end /\
    match proxy_under inherited (_childViewTriggers (heap s3 lv)) eventName with
    | Some s =>
        exists x2 s4,
          yields (Open.triggerMethod perform inherited fuel lv s args)
                 s3 x2 s4 lt
    | None => lt = []
    end /\
    log (Open._triggerEventOnParentLayout perform inherited
           (Open.triggerMethod perform inherited fuel) fuel v eventName
           args st) =
      l1
      ++ [Call (NormalizeMethods lv (_childViewEvents (heap s1 lv)))
               (Normal cve)]
      ++ la ++ lt.
Proof.
  intros PV O. rewrite _parentView_run in PV.
  destruct (parent_loop fuel (heap st) (_parent (heap st v))) as [pr | ] eqn:P;
    [ | discriminate ].
  simpl in PV. inversion PV; subst pr. clear PV.
  apply yields_intro in O.
  destruct (open_cascade_inv _ _ _ _ _ _ _ _ _ O P)
    as (x1 & s1 & l1 & cve & s2 & s3 & la & lt & Y1 & Y2 & Ha & Ht & L).
  exists x1, s1, l1, cve, s2, s3, la, lt.
  split; [ exact Y1 | ].
  split; [ exact Y2 | ].
  split.
  { destruct (handler_under inherited cve eventName).
    - destruct Ha as (y & Ya & ->). eauto.
    - exact Ha. }
  split.
  { destruct (proxy_under inherited (_childViewTriggers (heap s3 lv)) eventName).
    - destruct Ht as (x2 & Y4). eauto.
    - now destruct Ht. }
  exact L.
Qed.

(** ** What the dispatch of an event can log *)

Lemma open_log_all_call (P : Event -> Prop) c :
  (forall k, P (Call c k)) -> log_all Env P (Open.call perform c).
Proof.
  intros H st. unfold Open.call.
  destruct (perform c (heap st) (env st)) as [[k h'] e']. simpl. auto.
Qed.

Lemma open_log_all_parentLayout P tm fuel v eventName args :
  (forall lv hash k, P (Call (NormalizeMethods lv hash) k)) ->
  (forall f lv a k, P (Call (Apply f lv a) k)) ->
  (forall lv n a, log_all Env P (tm lv n a)) ->
  log_all Env P
    (Open._triggerEventOnParentLayout perform inherited tm fuel v eventName args).
Proof.
  intros HN HA Htm. unfold Open._triggerEventOnParentLayout.
  apply log_all_bind; [ apply log_all_parentView | intros [lv | ] ];
    [ | apply log_all_ret ].
  apply log_all_bind; [ apply log_all_this | intros o ]. cbv zeta.
  apply log_all_bind; [ apply Htm | intros _ ].
  apply log_all_bind; [ apply log_all_this | intros o' ].
  apply log_all_bind; [ apply open_log_all_call; intros k; apply HN | intros cve ].
  apply log_all_bind.
  { destruct (truthy cve && isFunction (member inherited cve eventName)).
    - apply log_all_bind; [ apply open_log_all_call; intros k; apply HA | ].
      intros _. apply log_all_ret.
    - apply log_all_ret. }
  intros _.
  apply log_all_bind; [ apply log_all_this | intros o'' ]. cbv zeta.
  destruct (truthy (_childViewTriggers o'')); [ | apply log_all_ret ].
  destruct (member inherited (_childViewTriggers o'') eventName);
    try apply log_all_ret.
  apply log_all_bind; [ apply Htm | intros _; apply log_all_ret ].
Qed.

(** X3: however a call of [triggerMethod] ends and whatever the
    collaborators do, [triggerMethod] itself has assigned nothing, and
    every call it has made is one of those by which an event is
    dispatched: the imported [triggerMethod], [_triggerEventOnBehaviors],
    [normalizeMethods], or the application of a [childViewEvents]
    handler. *)
Theorem triggerMethod_only_dispatches fuel v eventName args st :
  Forall dispatch_call
    (log (Open.triggerMethod perform inherited fuel v eventName args st)).
Proof.
  revert v eventName args st.
  change (forall v eventName args,
             log_all Env dispatch_call
               (Open.triggerMethod perform inherited fuel v eventName args)).
  induction fuel as [ | fuel IH]; intros v eventName args; simpl.
  - apply log_all_diverge.
  - apply log_all_bind;
      [ apply open_log_all_call; intros k; exact I | intros r ].
    apply log_all_bind;
      [ apply open_log_all_call; intros k; exact I | intros _ ].
    apply log_all_bind; [ | intros _; apply log_all_ret ].
    apply open_log_all_parentLayout.
    + intros lv hash k. exact I.
    + intros f lv a k. exact I.
    + exact IH.
Qed.

Lemma open_log_all_triggerMethod P fuel :
  (forall v n a k, P (Call (TriggerMethod_import v n a) k)) ->
  (forall v n a k, P (Call (TriggerEventOnBehaviors v n a) k)) ->
  (forall lv hash k, P (Call (NormalizeMethods lv hash) k)) ->
  (forall f lv a k, P (Call (Apply f lv a) k)) ->
  forall v eventName args,
    log_all Env P (Open.triggerMethod perform inherited fuel v eventName args).
Proof.
  intros HT HB HN HA.
  induction fuel as [ | fuel IH]; intros v eventName args; simpl.
  - apply log_all_diverge.
  - apply log_all_bind; [ apply open_log_all_call; intros k; apply HT | intros r ].
    apply log_all_bind; [ apply open_log_all_call; intros k; apply HB | intros _ ].
    apply log_all_bind; [ | intros _; apply log_all_ret ].
    apply open_log_all_parentLayout; auto.
Qed.

(** ** Up the chain of parent views *)

Lemma same_tree_refl h : Open.same_tree h h.
Proof. intros x. auto. Qed.

Lemma same_tree_trans h1 h2 h3 :
  Open.same_tree h1 h2 -> Open.same_tree h2 h3 -> Open.same_tree h1 h3.
Proof.
  intros F G x. destruct (F x) as (F1 & F2 & F3). destruct (G x) as (G1 & G2 & G3).
  repeat split; congruence.
Qed.

Lemma same_tree_assign v w : heap_rel Env Open.same_tree (assign v w).
Proof.
  intros st x. simpl. unfold update. destruct (Nat.eqb x v) eqn:E; auto.
  apply Nat.eqb_eq in E. subst x. destruct w; simpl; auto.
Qed.

Lemma same_tree_call (K : Open.keeps_tree perform) c :
  heap_rel Env Open.same_tree (Open.call perform c).
Proof. intros st. rewrite open_call_final. apply K. Qed.

Lemma same_tree_parentLayout (K : Open.keeps_tree perform) tm fuel v eventName
    args :
  (forall lv n a, heap_rel Env Open.same_tree (tm lv n a)) ->
  heap_rel Env Open.same_tree
    (Open._triggerEventOnParentLayout perform inherited tm fuel v eventName args).
Proof.
  intros Htm. unfold Open._triggerEventOnParentLayout.
  assert (Kp : heap_rel Env Open.same_tree (_parentView fuel v)).
  { apply heap_rel_keeps; [ exact same_tree_refl | apply keeps_heap_parentView ]. }
  assert (Kt : forall x, heap_rel Env Open.same_tree (this_ x)).
  { intros x. apply heap_rel_keeps;
      [ exact same_tree_refl | apply keeps_heap_this ]. }
  assert (Kr : forall A (a : A), heap_rel Env Open.same_tree (ret a)).
  { intros A a. apply heap_rel_keeps;
      [ exact same_tree_refl | apply keeps_heap_ret ]. }
  apply heap_rel_bind; [ exact same_tree_trans | exact Kp | intros [lv | ] ];
    [ | apply Kr ].
  apply heap_rel_bind; [ exact same_tree_trans | apply Kt | intros o ].
  cbv zeta.
  apply heap_rel_bind; [ exact same_tree_trans | apply Htm | intros _ ].
  apply heap_rel_bind; [ exact same_tree_trans | apply Kt | intros o' ].
  apply heap_rel_bind;
    [ exact same_tree_trans | apply same_tree_call, K | intros cve ].
  apply heap_rel_bind; [ exact same_tree_trans | | intros _ ].
  { destruct (truthy cve && isFunction (member inherited cve eventName)).
    - apply heap_rel_bind;
        [ exact same_tree_trans | apply same_tree_call, K | intros _; apply Kr ].
    - apply Kr. }
  apply heap_rel_bind; [ exact same_tree_trans | apply Kt | intros o'' ].
  cbv zeta.
  destruct (truthy (_childViewTriggers o'')); [ | apply Kr ].
  destruct (member inherited (_childViewTriggers o'') eventName);
    try apply Kr.
  apply heap_rel_bind;
    [ exact same_tree_trans | apply Htm | intros _; apply Kr ].
Qed.

Lemma same_tree_triggerMethod (K : Open.keeps_tree perform) fuel :
  forall v eventName args,
    heap_rel Env Open.same_tree
      (Open.triggerMethod perform inherited fuel v eventName args).
Proof.
  induction fuel as [ | fuel IH]; intros v eventName args; simpl.
  - apply heap_rel_keeps; [ exact same_tree_refl | apply keeps_heap_diverge ].
  - apply heap_rel_bind;
      [ exact same_tree_trans | apply same_tree_call, K | intros r ].
    apply heap_rel_bind;
      [ exact same_tree_trans | apply same_tree_call, K | intros _ ].
    apply heap_rel_bind; [ exact same_tree_trans | | intros _ ].
    + apply same_tree_parentLayout; [ exact K | exact IH ].
    + apply heap_rel_keeps; [ exact same_tree_refl | apply keeps_heap_ret ].
Qed.

Lemma same_tree_yields {A} (m : M Env A) st a st' l :
  heap_rel Env Open.same_tree m -> yields m st a st' l ->
  Open.same_tree (heap st) (heap st').
Proof. intros R H. rewrite <- (yields_final _ _ _ _ _ _ H). apply R. Qed.

Lemma nearest_view_frame h h' start r :
  Open.same_tree h h' -> nearest_view h start r -> nearest_view h' start r.
Proof.
  intros F. induction 1 as [ | p V | p r V N IH].
  - constructor.
  - constructor. destruct (F p) as (-> & _). exact V.
  - apply nearest_skip.
    + destruct (F p) as (-> & _). exact V.
    + destruct (F p) as (_ & -> & _). exact IH.
Qed.

Lemma open_cascade_parent tm fuel v eventName args st u st' l :
  yields (Open._triggerEventOnParentLayout perform inherited tm fuel v
            eventName args) st u st' l ->
  exists r, parent_loop fuel (heap st) (_parent (heap st v)) = Some r.
Proof.
  intros H. unfold Open._triggerEventOnParentLayout in H.
  split_bind H r0 s0 t0 H0.
  apply _parentView_inv in H0. destruct H0 as (P & _ & _). eauto.
Qed.

Lemma forwarded_in_log (K : Open.keeps_tree perform) args h v eventName a name :
  forwarded h v eventName a name ->
  forall fuel st r st' l,
    Open.same_tree h (heap st) ->
    yields (Open.triggerMethod perform inherited fuel v eventName args)
           st r st' l ->
    exists x, In (Call (TriggerMethod_import a name args) (Normal x)) l.
Proof.
  induction 1 as [v eventName | v eventName p a name N F IH];
    intros fuel st r st' l E Y.
  - apply open_triggerMethod_inv in Y.
    destruct Y as (? & ? & ? & ? & ? & _ & _ & _ & _ & ->).
    exists r. left. reflexivity.
  - apply open_triggerMethod_inv in Y.
    destruct Y as (fuel' & b & s1 & s2 & t & -> & Y1 & Y2 & Y3 & ->).
    pose proof (same_tree_yields _ _ _ _ _ (same_tree_call K _) Y1) as E1.
    pose proof (same_tree_yields _ _ _ _ _ (same_tree_call K _) Y2) as E2.
    assert (E3 : Open.same_tree h (heap s2)).
    { eapply same_tree_trans; [ exact E | ].
      eapply same_tree_trans; eassumption. }
    destruct (open_cascade_parent _ _ _ _ _ _ _ _ _ Y3) as (r0 & P).
    pose proof (parent_loop_sound _ _ _ _ P) as N'.
    assert (N2 : nearest_view (heap s2) (_parent (heap s2 v)) (Some p)).
    { destruct (E3 v) as (_ & -> & _). eapply nearest_view_frame; eassumption. }
    pose proof (nearest_view_functional _ _ _ _ N' N2) as ->.
    destruct (open_cascade_inv _ _ _ _ _ _ _ _ _ Y3 P)
      as (x1 & sa & l1 & cve & sb & sc & la & lt & Ya & _ & _ & _ & ->).
    destruct (E3 p) as (_ & _ & Ep). rewrite Ep in Ya.
    destruct (IH _ _ _ _ _ E3 Ya) as (x & J).
    exists x. right. right. apply in_or_app. left. exact J.
Qed.

(** X9: with collaborators that leave the tree of views as it is, when
    [triggerMethod(eventName, ...args)] on a view ends well, every view
    up its chain of parent views has had its own [triggerMethod] called
    with the arguments, under the event name with the prefixes of all the
    parent views passed on the way in front, the nearest last: the
    parent's parent gets ['<its prefix>:<the parent's prefix>:<eventName>']. *)
Theorem event_reaches_ancestors fuel v eventName args st r a name :
  Open.keeps_tree perform ->
  outcome (Open.triggerMethod perform inherited fuel v eventName args st) = Ok r ->
  forwarded (heap st) v eventName a name ->
  exists x,
    In (Call (TriggerMethod_import a name args) (Normal x))
       (log (Open.triggerMethod perform inherited fuel v eventName args st)).
Proof.
  intros K O F. apply yields_intro in O.
  eapply forwarded_in_log; [ exact K | exact F | apply same_tree_refl | exact O ].
Qed.

(** ** [destroy] and the parent view *)

Lemma open_destroy_inv fuel v args st r st' l :
  _isDestroyed (heap st v) = false ->
  yields (Open.destroy perform inherited fuel v args) st r st' l ->
  exists x1 st1 l1 st2 y1 y2 y3 y4 y5 x2 st3 l2 y6,
    yields (Open.triggerMethod perform inherited fuel v "before:destroy" args)
           st x1 st1 l1 /\
    yields (Open.destroy_between perform v args) st1 tt st2
           [Assign v (Set_isDestroyed true);
            Assign v (Set_isRendered false);
            Call (UnbindUIElements_ v) (Normal y1);
            Call (UnbindBehaviorUIElements v) (Normal y2);
            Call (RemoveElement v) (Normal y3);
            Call (RemoveChildren v) (Normal y4);
            Call (DestroyBehaviors v args) (Normal y5)] /\
    yields (Open.triggerMethod perform inherited fuel v "destroy" args)
           st2 x2 st3 l2 /\
    yields (Open.call perform (StopListening v)) st3 y6 st'
           [Call (StopListening v) (Normal y6)] /\
    r = v /\
    l = l1
        ++ [Assign v (Set_isDestroyed true);
            Assign v (Set_isRendered false);
            Call (UnbindUIElements_ v) (Normal y1);
            Call (UnbindBehaviorUIElements v) (Normal y2);
            Call (RemoveElement v) (Normal y3);
            Call (RemoveChildren v) (Normal y4);
            Call (DestroyBehaviors v args) (Normal y5)]
        ++ l2
        ++ [Call (StopListening v) (Normal y6)].
Proof.
  intros D H. unfold yields, Open.destroy in H.
  rewrite bind_this, D in H.
  match type of H with ?m st = _ => change (yields m st r st' l) in H end.
  split_bind H x1 st1 l1 H1.
  split_bind H u1 sa ta Ha.
  split_bind H u2 sb tb Hb.
  split_bind H u3 sc tc Hc.
  split_bind H y3 sd td Hd.
  split_bind H y4 se te He.
  split_bind H y5 st2 tf Hf.
  split_bind H x2 st3 l2 H2.
  split_bind H y6 sg tg Hg.
  apply yields_ret in H. destruct H as (-> & -> & ->).
  pose proof (yields_assign _ _ _ _ _ _ _ Ha) as (_ & ->).
  pose proof (yields_assign _ _ _ _ _ _ _ Hb) as (_ & ->).
  pose proof Hc as Hc'. unfold Open.unbindUIElements in Hc'.
  split_bind Hc' y1 sc1 tc1 Hc1.
  split_bind Hc' y2 sc2 tc2 Hc2.
  apply yields_ret in Hc'. destruct Hc' as (-> & -> & ->).
  pose proof (open_yields_call _ _ _ _ _ Hc1) as (_ & _ & ->).
  pose proof (open_yields_call _ _ _ _ _ Hc2) as (_ & _ & ->).
  pose proof (open_yields_call _ _ _ _ _ Hd) as (_ & _ & ->).
  pose proof (open_yields_call _ _ _ _ _ He) as (_ & _ & ->).
  pose proof (open_yields_call _ _ _ _ _ Hf) as (_ & _ & ->).
  pose proof (open_yields_call _ _ _ _ _ Hg) as (_ & _ & ->).
  exists x1, st1, l1, st2, y1, y2, y3, y4, y5, x2, st3, l2, y6.
  split; [ exact H1 | ].
  split.
  { unfold Open.destroy_between.
    eapply (yields_bind_intro _ _ _ _ _ _ [Assign v (Set_isDestroyed true)]);
      [ exact Ha | ].
    eapply (yields_bind_intro _ _ _ _ _ _ [Assign v (Set_isRendered false)]);
      [ exact Hb | ].
    eapply (yields_bind_intro _ _ _ _ _ _
              [Call (UnbindUIElements_ v) (Normal y1);
               Call (UnbindBehaviorUIElements v) (Normal y2)]);
      [ rewrite app_nil_r in Hc; exact Hc | ].
    eapply (yields_bind_intro _ _ _ _ _ _ [Call (RemoveElement v) (Normal y3)]);
      [ exact Hd | ].
    eapply (yields_bind_intro _ _ _ _ _ _ [Call (RemoveChildren v) (Normal y4)]);
      [ exact He | ].
    eapply (yields_bind_intro _ _ _ _ _ _
              [Call (DestroyBehaviors v args) (Normal y5)] _ _ []);
      [ exact Hf | reflexivity ]. }
  split; [ exact H2 | ].
  split; [ exact Hg | ].
  split; [ reflexivity | ].
  rewrite app_nil_r. simpl. repeat rewrite <- app_assoc. reflexivity.
Qed.

Lemma same_tree_destroy_between (K : Open.keeps_tree perform) v args :
  heap_rel Env Open.same_tree (Open.destroy_between perform v args).
Proof.
  unfold Open.destroy_between, Open.unbindUIElements.
  repeat first
    [ apply same_tree_assign
    | apply same_tree_call; exact K
    | apply heap_rel_keeps; [ exact same_tree_refl | apply keeps_heap_ret ]
    | apply heap_rel_bind; [ exact same_tree_trans | | intros ? ] ].
Qed.

(** X13: with collaborators that leave the tree of views as it is, when
    [destroy] on a live view that has a parent view ends well, the parent
    view has had its [triggerMethod] called twice: under
    ['<prefix>:before:destroy'] before the view is flagged as destroyed,
    and under ['<prefix>:destroy'] after. *)
Theorem destroy_notifies_parent fuel v args st r lv :
  Open.keeps_tree perform ->
  isDestroyed st v = false ->
  outcome (Open.destroy perform inherited fuel v args st) = Ok r ->
  nearest_view (heap st) (_parent (heap st v)) (Some lv) ->
  exists a x b c y d,
    log (Open.destroy perform inherited fuel v args st) =
    a ++ Call (TriggerMethod_import lv
                 (childViewEventPrefix (heap st lv) ++ ":" ++ "before:destroy")%string
                 args) (Normal x)
      :: b ++ Assign v (Set_isDestroyed true)
      :: c ++ Call (TriggerMethod_import lv
                      (childViewEventPrefix (heap st lv) ++ ":" ++ "destroy")%string
                      args) (Normal y)
      :: d.
Proof.
  intros K D O N. apply isDestroyed_false in D.
  apply yields_intro in O.
  generalize dependent (final (Open.destroy perform inherited fuel v args st)).
  generalize dependent (log (Open.destroy perform inherited fuel v args st)).
  intros l st' O.
  apply open_destroy_inv in O; [ | exact D ].
  destruct O as (x1 & st1 & l1 & st2 & y1 & y2 & y3 & y4 & y5 & x2 & st3
                 & l2 & y6 & H1 & Hm & H2 & _ & _ & ->).
  assert (F : forwarded (heap st) v "destroy" lv
                (childViewEventPrefix (heap st lv) ++ ":" ++ "destroy")%string).
  { eapply forwarded_up; [ exact N | apply forwarded_here ]. }
  assert (F0 : forwarded (heap st) v "before:destroy" lv
                 (childViewEventPrefix (heap st lv) ++ ":" ++ "before:destroy")%string).
  { eapply forwarded_up; [ exact N | apply forwarded_here ]. }
  destruct (forwarded_in_log K args _ _ _ _ _ F0 _ _ _ _ _
              (same_tree_refl _) H1) as (x & I1).
  assert (E2 : Open.same_tree (heap st) (heap st2)).
  { eapply same_tree_trans.
    - eapply same_tree_yields; [ apply same_tree_triggerMethod, K | exact H1 ].
    - eapply same_tree_yields; [ apply same_tree_destroy_between, K | exact Hm ]. }
  destruct (forwarded_in_log K args _ _ _ _ _ F _ _ _ _ _ E2 H2) as (y & I2).
  apply in_split in I1. destruct I1 as (a & b & ->).
  apply in_split in I2. destruct I2 as (c & d & ->).
  exists a, x, b,
         ([Assign v (Set_isRendered false);
           Call (UnbindUIElements_ v) (Normal y1);
           Call (UnbindBehaviorUIElements v) (Normal y2);
           Call (RemoveElement v) (Normal y3);
           Call (RemoveChildren v) (Normal y4);
           Call (DestroyBehaviors v args) (Normal y5)] ++ c),
         y, (d ++ [Call (StopListening v) (Normal y6)]).
  repeat (rewrite <- app_assoc; simpl). reflexivity.
Qed.

(** X19: the parent view is looked up when the event is forwarded, and a
    listener of ['destroy'] that lets go of the view, as the region that
    holds it does, comes first.  When the imported [triggerMethod]
    for ['destroy'] leaves the view without [_parent] and the behaviors
    do not give it one, a [destroy] that ends well has called, after the
    teardown, the imported [triggerMethod], the behaviors and
    [stopListening] and nothing else: whatever parent view the view had,
    it has not had ['<prefix>:destroy'] triggered. *)
Theorem destroy_of_detached_view_is_not_forwarded fuel v args st r :
  (forall h e,
      _parent (Open.written perform (TriggerMethod_import v "destroy" args)
                 h e v) = None) ->
  (forall h e,
      _parent (h v) = None ->
      _parent (Open.written perform (TriggerEventOnBehaviors v "destroy" args)
                 h e v) = None) ->
  isDestroyed st v = false ->
  outcome (Open.destroy perform inherited fuel v args st) = Ok r ->
  exists x1 st1 l1 y1 y2 y3 y4 y5 x2 b2 y6,
    yields (Open.triggerMethod perform inherited fuel v "before:destroy" args)
           st x1 st1 l1 /\
    log (Open.destroy perform inherited fuel v args st) =
    l1
    ++ [Assign v (Set_isDestroyed true);
        Assign v (Set_isRendered false);
        Call (UnbindUIElements_ v) (Normal y1);
        Call (UnbindBehaviorUIElements v) (Normal y2);
        Call (RemoveElement v) (Normal y3);
        Call (RemoveChildren v) (Normal y4);
        Call (DestroyBehaviors v args) (Normal y5);
        Call (TriggerMethod_import v "destroy" args) (Normal x2);
        Call (TriggerEventOnBehaviors v "destroy" args) (Normal b2);
        Call (StopListening v) (Normal y6)].
Proof.
  intros G1 G2 D O. apply isDestroyed_false in D.
  apply yields_intro in O.
  generalize dependent (final (Open.destroy perform inherited fuel v args st)).
  generalize dependent (log (Open.destroy perform inherited fuel v args st)).
  intros l st' O.
  apply open_destroy_inv in O; [ | exact D ].
  destruct O as (x1 & st1 & l1 & st2 & y1 & y2 & y3 & y4 & y5 & x2 & st3
                 & l2 & y6 & H1 & _ & H2 & _ & _ & ->).
  apply open_triggerMethod_inv in H2.
  destruct H2 as (fuel' & b2 & sa & sb & t & _ & Ya & Yb & Yc & ->).
  pose proof (open_yields_call _ _ _ _ _ Ya) as (_ & Ea & _).
  pose proof (open_yields_call _ _ _ _ _ Yb) as (_ & Eb & _).
  assert (Pa : _parent (heap sa v) = None) by (rewrite Ea; apply G1).
  assert (Pb : _parent (heap sb v) = None) by (rewrite Eb; now apply G2).
  assert (Pl : parent_loop fuel' (heap sb) (_parent (heap sb v)) = Some None).
  { rewrite Pb. destruct fuel'; reflexivity. }
  unfold yields in Yc. rewrite (open_cascade_none _ _ _ _ _ _ Pl) in Yc.
  inversion Yc; subst.
  exists x1, st1, l1, y1, y2, y3, y4, y5, x2, b2, y6.
  split; [ exact H1 | ].
  simpl. reflexivity.
Qed.

(** ** A chain of parent views that is a cycle *)

Lemma triggerMethod_stuck (K : Open.keeps_tree perform) (cycle : oid -> Prop) h :
  (forall x, cycle x ->
             exists y, cycle y /\ nearest_view h (_parent (h x)) (Some y)) ->
  forall fuel v eventName args st r,
    Open.same_tree h (heap st) -> cycle v ->
    outcome (Open.triggerMethod perform inherited fuel v eventName args st)
    <> Ok r.
Proof.
  intros C. induction fuel as [ | fuel IH]; intros v eventName args st r E Sv O.
  - discriminate O.
  - apply yields_intro in O. apply open_triggerMethod_inv in O.
    destruct O as (fuel' & b & s1 & s2 & t & F & Y1 & Y2 & Y3 & _).
    inversion F; subst fuel'. clear F.
    pose proof (same_tree_yields _ _ _ _ _ (same_tree_call K _) Y1) as E1.
    pose proof (same_tree_yields _ _ _ _ _ (same_tree_call K _) Y2) as E2.
    assert (E3 : Open.same_tree h (heap s2)).
    { eapply same_tree_trans; [ exact E | ].
      eapply same_tree_trans; eassumption. }
    destruct (C v Sv) as (y & Sy & N).
    destruct (open_cascade_parent _ _ _ _ _ _ _ _ _ Y3) as (r0 & P).
    pose proof (parent_loop_sound _ _ _ _ P) as N'.
    assert (N2 : nearest_view (heap s2) (_parent (heap s2 v)) (Some y)).
    { destruct (E3 v) as (_ & -> & _). eapply nearest_view_frame; eassumption. }
    pose proof (nearest_view_functional _ _ _ _ N' N2) as ->.
    destruct (open_cascade_inv _ _ _ _ _ _ _ _ _ Y3 P)
      as (x1 & sa & l1 & cve & sb & sc & la & lt & Ya & _).
    apply yields_outcome in Ya.
    exact (IH _ _ _ _ _ E3 Sy Ya).
Qed.

(** X11: the recursion of [triggerMethod] has no guard against a cycle
    either.  With collaborators that leave the tree of views as it is, on
    a view of a set of views each of which has a parent view in the set (a
    view that is its own parent view, say), no call of [triggerMethod]
    ends well, however deep it is allowed to go; and no call of [destroy]
    on such a view, if it is live, ends well or gets as far as flagging
    the view. *)
Theorem triggerMethod_cannot_return_on_cycle (cycle : oid -> Prop) v st :
  Open.keeps_tree perform ->
  (forall x, cycle x ->
             exists y, cycle y /\
                       nearest_view (heap st) (_parent (heap st x)) (Some y)) ->
  cycle v ->
  (forall fuel eventName args r,
      outcome (Open.triggerMethod perform inherited fuel v eventName args st)
      <> Ok r) /\
  (isDestroyed st v = false ->
   forall fuel args,
     (forall r, outcome (Open.destroy perform inherited fuel v args st) <> Ok r) /\
     Forall is_call (log (Open.destroy perform inherited fuel v args st))).
Proof.
  intros K C Sv.
  assert (D : forall fuel eventName args r,
             outcome (Open.triggerMethod perform inherited fuel v eventName
                        args st) <> Ok r).
  { intros fuel eventName args r.
    eapply triggerMethod_stuck; eauto using same_tree_refl. }
  split; [ exact D | ].
  intros L fuel args. apply isDestroyed_false in L.
  unfold Open.destroy. rewrite bind_this, L.
  pose proof (D fuel "before:destroy" args) as D'.
  assert (A : Forall is_call
                 (log (Open.triggerMethod perform inherited fuel v
                         "before:destroy" args st))).
  { apply open_log_all_triggerMethod; intros; exact I. }
  destruct (outcome (Open.triggerMethod perform inherited fuel v
                       "before:destroy" args st)) as [x | e | ] eqn:O.
  - exfalso. exact (D' x eq_refl).
  - rewrite (bind_throw _ _ _ _ e O). cbn [outcome log].
    split; [ discriminate | exact A ].
  - rewrite (bind_diverge _ _ _ _ O). cbn [outcome log].
    split; [ discriminate | exact A ].
Qed.

End Open_runs.

(** ** The two embeddings *)

Section Quiet.

Variable Env : Type.
Variable perform : Callee -> Heap -> Env -> Completion * Env.
Variable inherited : Val -> string -> Val.

Lemma bind_ext {A B} (m1 m2 : M Env A) (f1 f2 : A -> M Env B) st :
  m1 st = m2 st -> (forall a s, f1 a s = f2 a s) ->
  bind m1 f1 st = bind m2 f2 st.
Proof.
  intros E F. unfold bind. rewrite E.
  destruct (outcome (m2 st)); try reflexivity.
  rewrite F. reflexivity.
Qed.

Lemma open_call_quiet c st :
  Open.call (Open.quiet perform) c st = call perform c st.
Proof.
  unfold Open.call, Open.quiet, call.
  destruct (perform c (heap st) (env st)) as [k e']. reflexivity.
Qed.

Lemma open_parentLayout_quiet tm1 tm2 fuel v eventName args :
  (forall lv n a s, tm1 lv n a s = tm2 lv n a s) ->
  forall st,
    Open._triggerEventOnParentLayout (Open.quiet perform) inherited tm1 fuel v
      eventName args st =
    _triggerEventOnParentLayout perform inherited tm2 fuel v eventName args st.
Proof.
  intros T st.
  unfold Open._triggerEventOnParentLayout, _triggerEventOnParentLayout.
  apply bind_ext; [ reflexivity | intros [lv | ] s; [ | reflexivity ] ].
  apply bind_ext; [ reflexivity | intros o s1 ]. cbv zeta.
  apply bind_ext; [ apply T | intros _ s2 ].
  apply bind_ext; [ reflexivity | intros o' s3 ].
  apply bind_ext; [ apply open_call_quiet | intros cve s4 ].
  apply bind_ext.
  { destruct (truthy cve && isFunction (member inherited cve eventName));
      [ | reflexivity ].
    apply bind_ext; [ apply open_call_quiet | reflexivity ]. }
  intros _ s5.
  apply bind_ext; [ reflexivity | intros o'' s6 ]. cbv zeta.
  destruct (truthy (_childViewTriggers o'')); [ | reflexivity ].
  destruct (member inherited (_childViewTriggers o'') eventName);
    try reflexivity.
  apply bind_ext; [ apply T | reflexivity ].
Qed.

(** The first embedding of [triggerMethod] is the second one at
    collaborators that hand the store back as they found it. *)
Lemma open_triggerMethod_quiet fuel :
  forall v eventName args st,
    Open.triggerMethod (Open.quiet perform) inherited fuel v eventName args st =
    triggerMethod perform inherited fuel v eventName args st.
Proof.
  induction fuel as [ | fuel IH]; intros v eventName args st; simpl;
    [ reflexivity | ].
  apply bind_ext; [ apply open_call_quiet | intros r s1 ].
  apply bind_ext; [ apply open_call_quiet | intros _ s2 ].
  apply bind_ext; [ | reflexivity ].
  apply open_parentLayout_quiet. exact IH.
Qed.

(** And so is the first embedding of [destroy]. *)
Lemma open_destroy_quiet fuel v args st :
  Open.destroy (Open.quiet perform) inherited fuel v args st =
  destroy perform inherited fuel v args st.
Proof.
  unfold Open.destroy, destroy, Open.unbindUIElements, unbindUIElements.
  apply bind_ext; [ reflexivity | intros o s ].
  destruct (_isDestroyed o); [ reflexivity | ].
  repeat first
    [ reflexivity
    | apply open_call_quiet
    | apply open_triggerMethod_quiet
    | apply bind_ext; [ | intros ? ? ] ].
Qed.

(** Such collaborators leave the tree of views as it is. *)
Lemma quiet_keeps_tree : Open.keeps_tree (Open.quiet perform).
Proof.
  intros c h e x. unfold Open.written, Open.quiet.
  destruct (perform c h e) as [k e']. simpl. auto.
Qed.

End Quiet.

(** ** The mixin at work in the small world *)

Module Runs.

Import Demo.

Lemma perform_total : total_normal perform.
Proof. intros c h e. exists (answer c h), (S e). reflexivity. Qed.

Lemma store_ranked : ranked store rank.
Proof.
  intros x p.
  do 6 (destruct x as [ | x];
        [ simpl; try discriminate;
          intros H; inversion H; subst; simpl; lia | ]).
  simpl. discriminate.
Qed.

(** Destroying view 1, which sits in region 2 of view 3, with
    collaborators that leave the [_parent] of the view alone: both events
    reach view 3 under its prefix, and the teardown runs in between. *)
Example destroy_child_log :
  log (destroy perform inherited 5 1 [VNum 7] st0) =
  [Call (TriggerMethod_import 1 "before:destroy" [VNum 7])
        (Normal (VStr "handled before:destroy"));
   Call (TriggerEventOnBehaviors 1 "before:destroy" [VNum 7]) (Normal VUndefined);
   Call (TriggerMethod_import 3 "childview:before:destroy" [VNum 7])
        (Normal (VStr "handled childview:before:destroy"));
   Call (TriggerEventOnBehaviors 3 "childview:before:destroy" [VNum 7])
        (Normal VUndefined);
   Call (NormalizeMethods 3 (VObj [("save", VFun 5)]))
        (Normal (VObj [("save", VFun 5)]));
   Assign 1 (Set_isDestroyed true);
   Assign 1 (Set_isRendered false);
   Call (UnbindUIElements_ 1) (Normal VUndefined);
   Call (UnbindBehaviorUIElements 1) (Normal VUndefined);
   Call (RemoveElement 1) (Normal VUndefined);
   Call (RemoveChildren 1) (Normal VUndefined);
   Call (DestroyBehaviors 1 [VNum 7]) (Normal VUndefined);
   Call (TriggerMethod_import 1 "destroy" [VNum 7])
        (Normal (VStr "handled destroy"));
   Call (TriggerEventOnBehaviors 1 "destroy" [VNum 7]) (Normal VUndefined);
   Call (TriggerMethod_import 3 "childview:destroy" [VNum 7])
        (Normal (VStr "handled childview:destroy"));
   Call (TriggerEventOnBehaviors 3 "childview:destroy" [VNum 7])
        (Normal VUndefined);
   Call (NormalizeMethods 3 (VObj [("save", VFun 5)]))
        (Normal (VObj [("save", VFun 5)]));
   Call (StopListening 1) (Normal VUndefined)].
Proof. reflexivity. Qed.

(** [triggerMethod('save', 7)] on view 1: view 3 gets ['childview:save'],
    then its [childViewEvents] handler, then its [childViewTriggers]
    proxy. *)
Example trigger_save_log :
  log (triggerMethod perform inherited 5 1 "save" [VNum 7] st0) =
  [Call (TriggerMethod_import 1 "save" [VNum 7]) (Normal (VStr "handled save"));
   Call (TriggerEventOnBehaviors 1 "save" [VNum 7]) (Normal VUndefined);
   Call (TriggerMethod_import 3 "childview:save" [VNum 7])
        (Normal (VStr "handled childview:save"));
   Call (TriggerEventOnBehaviors 3 "childview:save" [VNum 7]) (Normal VUndefined);
   Call (NormalizeMethods 3 (VObj [("save", VFun 5)]))
        (Normal (VObj [("save", VFun 5)]));
   Call (Apply (VFun 5) 3 [VNum 7]) (Normal VUndefined);
   Call (TriggerMethod_import 3 "child:saved" [VNum 7])
        (Normal (VStr "handled child:saved"));
   Call (TriggerEventOnBehaviors 3 "child:saved" [VNum 7]) (Normal VUndefined)].
Proof. reflexivity. Qed.

(** The hash that view 1 hands to Backbone: the behaviors' trigger on
    ["click .a"] has replaced the view's own handler, in its place. *)
Example delegate_child_combined :
  last (log (delegateEvents perform 1 VUndefined st0)) (Assign 0 (Set_events VNull)) =
  Call (Backbone_delegateEvents 1
          (VObj [("click .b", VStr "onB"); ("click .a", VFun 8);
                 ("click .c", VFun 9)]))
       (Normal VUndefined).
Proof. reflexivity. Qed.

(** The same call when the region lets go of the view as its ['destroy']
    event fires: view 3 hears of ['before:destroy'] and not of
    ['destroy']. *)
Example destroy_held_view_log :
  log (Open.destroy Demo3.perform inherited 5 1 [VNum 7] st0) =
  [Call (TriggerMethod_import 1 "before:destroy" [VNum 7])
        (Normal (VStr "handled before:destroy"));
   Call (TriggerEventOnBehaviors 1 "before:destroy" [VNum 7]) (Normal VUndefined);
   Call (TriggerMethod_import 3 "childview:before:destroy" [VNum 7])
        (Normal (VStr "handled childview:before:destroy"));
   Call (TriggerEventOnBehaviors 3 "childview:before:destroy" [VNum 7])
        (Normal VUndefined);
   Call (NormalizeMethods 3 (VObj [("save", VFun 5)]))
        (Normal (VObj [("save", VFun 5)]));
   Assign 1 (Set_isDestroyed true);
   Assign 1 (Set_isRendered false);
   Call (UnbindUIElements_ 1) (Normal VUndefined);
   Call (UnbindBehaviorUIElements 1) (Normal VUndefined);
   Call (RemoveElement 1) (Normal VUndefined);
   Call (RemoveChildren 1) (Normal VUndefined);
   Call (DestroyBehaviors 1 [VNum 7]) (Normal VUndefined);
   Call (TriggerMethod_import 1 "destroy" [VNum 7])
        (Normal (VStr "handled destroy"));
   Call (TriggerEventOnBehaviors 1 "destroy" [VNum 7]) (Normal VUndefined);
   Call (StopListening 1) (Normal VUndefined)] /\
  _parent (heap (final (Open.destroy Demo3.perform inherited 5 1 [VNum 7] st0)) 1)
  = None.
Proof. split; reflexivity. Qed.

(** [triggerMethod('toString')] on view 1: the [childViewEvents] hash of
    view 3 has no handler of its own under that name, and the function it
    inherits from [Object.prototype] is applied to view 3. *)
Example trigger_toString_log :
  log (triggerMethod perform inherited 5 1 "toString" [] st0) =
  [Call (TriggerMethod_import 1 "toString" []) (Normal (VStr "handled toString"));
   Call (TriggerEventOnBehaviors 1 "toString" []) (Normal VUndefined);
   Call (TriggerMethod_import 3 "childview:toString" [])
        (Normal (VStr "handled childview:toString"));
   Call (TriggerEventOnBehaviors 3 "childview:toString" []) (Normal VUndefined);
   Call (NormalizeMethods 3 (VObj [("save", VFun 5)]))
        (Normal (VObj [("save", VFun 5)]));
   Call (Apply (VFun 105) 3 []) (Normal VUndefined)].
Proof. reflexivity. Qed.

(** What [x[k]] finds beyond the own properties of [x]: a function of
    [Object.prototype] in a hash, a character in a string. *)
Example handler_under_inherited :
  handler_under inherited (VObj [("save", VFun 5)]) "toString" = Some (VFun 105) /\
  handler_under inherited (VObj [("save", VFun 5)]) "save" = Some (VFun 5) /\
  handler_under inherited (VObj [("save", VFun 5)]) "load" = None /\
  proxy_under inherited (VStr "abc") "0" = Some "a" /\
  proxy_under inherited (VObj [("save", VStr "child:saved")]) "toString" = None.
Proof. repeat split; reflexivity. Qed.

Lemma open_perform_total : Open.total_normal Demo3.perform.
Proof.
  intros c h e. exists (answer c h), (Demo3.writes c h), (S e). reflexivity.
Qed.

Lemma open_keeps_ranked : Open.keeps_ranked Demo3.perform rank.
Proof.
  intros c h e R x p. unfold Open.written. simpl.
  destruct c; simpl; try apply R.
  destruct (String.eqb eventName "destroy"); [ | apply R ].
  unfold update. destruct (Nat.eqb x this); [ discriminate | apply R ].
Qed.

End Runs.

(** ** The theorems at a concrete input *)

Lemma destroy_idempotent_witness :
  isDestroyed Demo.st0 4 = true /\
  destroy Demo.perform Demo.inherited 3 4 [VNum 7] Demo.st0 = mkRun (Ok 4) Demo.st0 [] /\
  1 <= 3 /\
  destroy_times Demo.perform Demo.inherited 3 5 1 [VNum 7] Demo.st0 =
  destroy Demo.perform Demo.inherited 5 1 [VNum 7] Demo.st0.
Proof.
  split; [ reflexivity | ].
  split.
  - apply (proj1 (destroy_idempotent Demo.Env Demo.perform Demo.inherited 3 4 [VNum 7])).
    reflexivity.
  - split; [ lia | ].
    apply (proj2 (destroy_idempotent Demo.Env Demo.perform Demo.inherited 5 1 [VNum 7])).
    lia.
Defined.

Lemma destroy_sequence_witness :
  isDestroyed Demo.st0 1 = false /\
  outcome (destroy Demo.perform Demo.inherited 5 1 [VNum 7] Demo.st0) = Ok 1 /\
  exists x1 st1 l1 y1 y2 y3 y4 y5 st2 x2 st3 l2 y6,
    yields (triggerMethod Demo.perform Demo.inherited 5 1 "before:destroy" [VNum 7])
           Demo.st0 x1 st1 l1 /\
    hd_error l1 =
      Some (Call (TriggerMethod_import 1 "before:destroy" [VNum 7]) (Normal x1)) /\
    isDestroyed st2 1 = true /\
    isRendered st2 1 = false /\
    yields (triggerMethod Demo.perform Demo.inherited 5 1 "destroy" [VNum 7])
           st2 x2 st3 l2 /\
    hd_error l2 =
      Some (Call (TriggerMethod_import 1 "destroy" [VNum 7]) (Normal x2)) /\
    1 = 1 /\
    log (destroy Demo.perform Demo.inherited 5 1 [VNum 7] Demo.st0) =
      l1
      ++ [Assign 1 (Set_isDestroyed true);
          Assign 1 (Set_isRendered false);
          Call (UnbindUIElements_ 1) (Normal y1);
          Call (UnbindBehaviorUIElements 1) (Normal y2);
          Call (RemoveElement 1) (Normal y3);
          Call (RemoveChildren 1) (Normal y4);
          Call (DestroyBehaviors 1 [VNum 7]) (Normal y5)]
      ++ l2
      ++ [Call (StopListening 1) (Normal y6)].
Proof.
  split; [ reflexivity | ].
  destruct (destroy_sequence Demo.Env Demo.perform Demo.inherited 5 1 [VNum 7] Demo.st0 eq_refl)
    as [T S].
  split.
  - apply (T Runs.perform_total Demo.rank Runs.store_ranked). simpl. lia.
  - apply S. reflexivity.
Defined.

(** C3 as the spec has it fails on view 5, which is attached when it is
    destroyed: the call ends well and [isAttached] still answers true. *)
Lemma destroy_leaves_isAttached :
  outcome (destroy Demo.perform Demo.inherited 5 5 [] Demo.st0) = Ok 5 /\
  ~ (isRendered (final (destroy Demo.perform Demo.inherited 5 5 [] Demo.st0)) 5 = false /\
     isAttached (final (destroy Demo.perform Demo.inherited 5 5 [] Demo.st0)) 5 = false).
Proof.
  split; [ reflexivity | ].
  intros [_ H]. vm_compute in H. discriminate H.
Qed.

Lemma destroy_flags_witness :
  outcome (destroy Demo.perform Demo.inherited 5 5 [] Demo.st0) = Ok 5 /\
  isDestroyed (final (destroy Demo.perform Demo.inherited 5 5 [] Demo.st0)) 5 = true /\
  (isDestroyed Demo.st0 5 = false ->
   isRendered (final (destroy Demo.perform Demo.inherited 5 5 [] Demo.st0)) 5 = false) /\
  isAttached (final (destroy Demo.perform Demo.inherited 5 5 [] Demo.st0)) 5 =
  isAttached Demo.st0 5.
Proof.
  split; [ reflexivity | ].
  apply (destroy_flags Demo.Env Demo.perform Demo.inherited 5 5 [] Demo.st0 5).
  reflexivity.
Defined.

Lemma delegateEvents_combined_witness :
  outcome (delegateEvents Demo.perform 1 VUndefined Demo.st0) = Ok 1 /\
  exists y0 cve cvt raw viewEvents behaviorEvents behaviorTriggers
         viewTriggers l2 y,
    (if truthy (triggers (heap Demo.st0 1))
     then exists rawTriggers normalized,
         l2 = [Call (Result_triggers 1) (Normal rawTriggers);
               Call (NormalizeUIKeys 1 rawTriggers) (Normal normalized);
               Call (GetViewTriggers 1 1 normalized) (Normal viewTriggers)]
     else viewTriggers = VUndefined /\ l2 = []) /\
    log (delegateEvents Demo.perform 1 VUndefined Demo.st0) =
      [Call (ProxyBehaviorViewProperties 1) (Normal y0);
       Call (GetValue 1 (getOption (heap Demo.st0 1) "childViewEvents"))
            (Normal cve);
       Assign 1 (Set_childViewEvents cve);
       Call (GetValue 1 (getOption (heap Demo.st0 1) "childViewTriggers"))
            (Normal cvt);
       Assign 1 (Set_childViewTriggers cvt);
       Call (GetValue 1 (js_or VUndefined (events (heap Demo.st0 1))))
            (Normal raw);
       Call (NormalizeUIKeys 1 raw) (Normal viewEvents)]
      ++ (if isUndefined VUndefined
          then [Assign 1 (Set_events viewEvents)] else [])
      ++ [Call (GetBehaviorEvents 1) (Normal behaviorEvents);
          Call (GetBehaviorTriggers 1) (Normal behaviorTriggers)]
      ++ l2
      ++ [Call (Backbone_delegateEvents 1
                  (_extend [] [behaviorEvents; viewEvents;
                               behaviorTriggers; viewTriggers]))
               (Normal y)] /\
    (forall k,
       lookup_prop k
         (props_of (_extend [] [behaviorEvents; viewEvents;
                                behaviorTriggers; viewTriggers])) =
       match lookup_prop k (props_of viewTriggers) with
       | Some x => Some x
       | None =>
           match lookup_prop k (props_of behaviorTriggers) with
           | Some x => Some x
           | None =>
               match lookup_prop k (props_of viewEvents) with
               | Some x => Some x
               | None => lookup_prop k (props_of behaviorEvents)
               end
           end
       end) /\
    1 = 1.
Proof.
  split; [ reflexivity | ].
  apply (delegateEvents_combined Demo.Env Demo.perform 1 VUndefined Demo.st0 1).
  reflexivity.
Defined.

Lemma triggerMethod_order_witness :
  outcome (_parentView 4 1 Demo.st0) = Ok (Some 3) /\
  Open.triggerMethod Demo3.perform Demo.inherited 5 1 "destroy" [VNum 7] Demo.st0 =
    mkRun (Ok (VStr "handled destroy"))
          (mkState (update Demo.store 1 (Demo3.let_go Demo.child)) 2)
          [Call (TriggerMethod_import 1 "destroy" [VNum 7])
                (Normal (VStr "handled destroy"));
           Call (TriggerEventOnBehaviors 1 "destroy" [VNum 7])
                (Normal VUndefined)] /\
  outcome (Open.triggerMethod Demo3.perform Demo.inherited 5 1 "save" [VNum 7]
             Demo.st0) = Ok (VStr "handled save") /\
  (exists x t,
      log (Open.triggerMethod Demo3.perform Demo.inherited 5 1 "save" [VNum 7]
             Demo.st0) =
      Call (TriggerMethod_import 1 "save" [VNum 7]) (Normal (VStr "handled save"))
      :: Call (TriggerEventOnBehaviors 1 "save" [VNum 7]) (Normal VUndefined)
      :: Call (TriggerMethod_import 3 "childview:save" [VNum 7]) (Normal x)
      :: t) /\
  Demo.rank 1 <= 4 /\
  exists r,
    outcome (Open.triggerMethod Demo3.perform Demo.inherited 5 1 "save" [VNum 7]
               Demo.st0) = Ok r.
Proof.
  split; [ reflexivity | ].
  split.
  { destruct (triggerMethod_order Demo.Env Demo3.perform Demo.inherited 4 1
                "destroy" [VNum 7] Demo.st0) as (_ & B & _).
    destruct (B (VStr "handled destroy") VUndefined
                (mkState (update Demo.store 1 (Demo3.let_go Demo.child)) 1)
                (mkState (update Demo.store 1 (Demo3.let_go Demo.child)) 2)
                eq_refl eq_refl) as (L & O & N & _).
    rewrite (N eq_refl) in L, O.
    rewrite <- (run_eta _ (Open.triggerMethod Demo3.perform Demo.inherited 5 1
                             "destroy" [VNum 7] Demo.st0)).
    rewrite L, O. reflexivity. }
  destruct (triggerMethod_order Demo.Env Demo3.perform Demo.inherited 4 1
              "save" [VNum 7] Demo.st0) as (_ & B & T).
  destruct (B (VStr "handled save") VUndefined
              (mkState Demo.store 1) (mkState Demo.store 2) eq_refl eq_refl)
    as (L & O & _ & F).
  split; [ reflexivity | ].
  split.
  - destruct (F 3 eq_refl eq_refl) as (x & t & E).
    exists x, t. rewrite L, E. reflexivity.
  - split; [ simpl; lia | ].
    apply (T Runs.open_perform_total Demo.rank Runs.open_keeps_ranked
             Runs.store_ranked).
    simpl. lia.
Defined.


Lemma parentView_nearest_witness :
  outcome (_parentView 4 1 Demo.st0) = Ok (Some 3) /\
  nearest_view Demo.store (Some 2) (Some 3) /\
  (exists fuel0, forall n, fuel0 <= n ->
                           _parentView n 1 Demo.st0 = mkRun (Ok (Some 3)) Demo.st0 []) /\
  outcome (_parentView 4 5 Demo.st0) = Ok None /\
  _triggerEventOnParentLayout Demo.perform Demo.inherited (triggerMethod Demo.perform Demo.inherited 4) 4 5
    "save" [VNum 7] Demo.st0 = mkRun (Ok tt) Demo.st0 [].
Proof.
  destruct (parentView_nearest Demo.Env Demo.perform Demo.inherited 4 1 Demo.st0) as (S & C & _).
  destruct (parentView_nearest Demo.Env Demo.perform Demo.inherited 4 5 Demo.st0) as (_ & _ & N).
  split; [ reflexivity | ].
  split; [ exact (proj1 (S (Some 3) eq_refl)) | ].
  split; [ exact (C (Some 3) (proj1 (S (Some 3) eq_refl))) | ].
  split; [ reflexivity | ].
  apply N. reflexivity.
Defined.

(** C8 as the spec has it fails on view 6, which is live and has not been
    rendered, so that its UI elements are not bound yet: [getUI] raises. *)
Lemma getUI_raises_on_live_view :
  isDestroyed Demo.st0 6 = false /\
  isRendered Demo.st0 6 = false /\
  outcome (getUI Demo2.unbound 6 "foo" Demo.st0) = Throw Demo2.TypeError /\
  ~ (exists x, outcome (getUI Demo2.unbound 6 "foo" Demo.st0) = Ok x).
Proof.
  split; [ reflexivity | ].
  split; [ reflexivity | ].
  split; [ reflexivity | ].
  intros (x & H). discriminate H.
Qed.

Lemma getUI_guard_witness :
  isDestroyed Demo.st0 4 = true /\
  getUI Demo.perform 4 "foo" Demo.st0 =
    mkRun (Throw (ViewDestroyedError Demo.gone)) Demo.st0 [] /\
  isDestroyed Demo.st0 1 = false /\
  outcome (getUI Demo.perform 1 "foo" Demo.st0) = Ok (VStr ".foo") /\
  isDestroyed Demo.st0 6 = false /\
  outcome (getUI Demo2.unbound 6 "foo" Demo.st0) = Throw Demo2.TypeError.
Proof.
  split; [ reflexivity | ].
  split.
  - apply (proj1 (getUI_guard Demo.Env Demo.perform 4 "foo" Demo.st0)).
    reflexivity.
  - split; [ reflexivity | ].
    split.
    + apply (proj1 (proj2 (proj2 (getUI_guard Demo.Env Demo.perform 1 "foo"
                                    Demo.st0) eq_refl))
                   (VStr ".foo") 1).
      reflexivity.
    + split; [ reflexivity | ].
      apply (proj2 (proj2 (proj2 (getUI_guard Demo.Env Demo2.unbound 6 "foo"
                                    Demo.st0) eq_refl))
                   Demo2.TypeError 1).
      reflexivity.
Defined.

(** C9 as the spec has it fails on view 4, which is destroyed: none of
    the five operations throws; each returns and has made its calls. *)
Lemma destroyed_view_still_operates :
  isDestroyed Demo.st0 4 = true /\
  outcome (delegateEvents Demo.perform 4 VUndefined Demo.st0) = Ok 4 /\
  outcome (delegateEntityEvents Demo.perform 4 Demo.st0) = Ok 4 /\
  outcome (undelegateEntityEvents Demo.perform 4 Demo.st0) = Ok 4 /\
  outcome (bindUIElements Demo.perform 4 Demo.st0) = Ok 4 /\
  log (bindUIElements Demo.perform 4 Demo.st0) =
    [Call (BindUIElements_ 4) (Normal VUndefined);
     Call (BindBehaviorUIElements 4) (Normal VUndefined)] /\
  outcome (triggerMethod Demo.perform Demo.inherited 3 4 "foo" [] Demo.st0) =
    Ok (VStr "handled foo").
Proof. repeat split; reflexivity. Qed.

Lemma destroyed_view_operations_witness :
  isDestroyed Demo.st0 4 = true /\
  outcome (getUI Demo.perform 4 "foo" Demo.st0) =
    Throw (ViewDestroyedError Demo.gone) /\
  outcome (delegateEvents Demo.perform 4 VUndefined Demo.st0) = Ok 4 /\
  outcome (delegateEntityEvents Demo.perform 4 Demo.st0) = Ok 4 /\
  outcome (undelegateEntityEvents Demo.perform 4 Demo.st0) = Ok 4 /\
  outcome (bindUIElements Demo.perform 4 Demo.st0) = Ok 4 /\
  Demo.rank 4 < 3 /\
  exists r t,
    outcome (triggerMethod Demo.perform Demo.inherited 3 4 "foo" [] Demo.st0) = Ok r /\
    log (triggerMethod Demo.perform Demo.inherited 3 4 "foo" [] Demo.st0) =
    Call (TriggerMethod_import 4 "foo" []) (Normal r) :: t.
Proof.
  destruct (destroyed_view_operations Demo.Env Demo.perform Demo.inherited 4 Demo.st0 eq_refl)
    as (G & O).
  destruct (O Runs.perform_total) as (D & E & U & B & T).
  split; [ reflexivity | ].
  split; [ exact (G "foo") | ].
  split; [ exact (proj1 (D VUndefined)) | ].
  split; [ exact (proj1 E) | ].
  split; [ exact (proj1 U) | ].
  split; [ exact (proj1 B) | ].
  split; [ simpl; lia | ].
  apply (T Demo.rank 3 "foo" [] Runs.store_ranked). simpl. lia.
Defined.

Lemma forwarding_order_witness :
  outcome (_parentView 4 1 Demo.st0) = Ok (Some 3) /\
  outcome (Open._triggerEventOnParentLayout Demo3.perform Demo.inherited
             (Open.triggerMethod Demo3.perform Demo.inherited 4) 4 1 "save"
             [VNum 7] Demo.st0) = Ok tt /\
  exists x1 s1 l1 cve s2 s3 la lt,
    yields (Open.triggerMethod Demo3.perform Demo.inherited 4 3
              "childview:save" [VNum 7])
           Demo.st0 x1 s1 l1 /\
    yields (Open.call Demo3.perform
              (NormalizeMethods 3 (_childViewEvents (heap s1 3))))
           s1 cve s2
           [Call (NormalizeMethods 3 (_childViewEvents (heap s1 3)))
                 (Normal cve)] /\
    match handler_under Demo.inherited cve "save" with
    | Some f =>
        exists y,
          yields (Open.call Demo3.perform (Apply f 3 [VNum 7])) s2 y s3 la /\
          la = [Call (Apply f 3 [VNum 7]) (Normal y)]
    | None => s3 = s2 /\ la = []
    end /\
    match proxy_under Demo.inherited (_childViewTriggers (heap s3 3)) "save" with
    | Some s =>
        exists x2 s4,
          yields (Open.triggerMethod Demo3.perform Demo.inherited 4 3 s
                    [VNum 7]) s3 x2 s4 lt
    | None => lt = []
    end /\
    log (Open._triggerEventOnParentLayout Demo3.perform Demo.inherited
           (Open.triggerMethod Demo3.perform Demo.inherited 4) 4 1 "save"
           [VNum 7] Demo.st0) =
      l1
      ++ [Call (NormalizeMethods 3 (_childViewEvents (heap s1 3))) (Normal cve)]
      ++ la ++ lt.
Proof.
  split; [ reflexivity | ].
  split; [ reflexivity | ].
  apply (forwarding_order Demo.Env Demo3.perform Demo.inherited 4 1 "save"
           [VNum 7] Demo.st0 3);
    reflexivity.
Defined.

(** ** The further theorems at a concrete input *)

Lemma destroyed_is_forever_witness :
  isDestroyed Demo.st0 4 = true /\
  isDestroyed
    (invoke_all Demo.perform Demo.inherited
       [Invoke_delegateEvents 4 VUndefined;
        Invoke_getUI 4 "foo";
        Invoke_triggerMethod 3 4 "foo" [];
        Invoke_bindUIElements 4;
        Invoke_destroy 3 4 []]
       Demo.st0) 4 = true.
Proof.
  split; [ reflexivity | ].
  apply (proj2 (destroyed_is_forever Demo.Env Demo.perform Demo.inherited _ _ _)).
  reflexivity.
Defined.

Lemma destroy_interrupted_witness :
  isDestroyed Demo.st0 1 = false /\
  outcome (destroy (Demo2.failing Demo2.removing_children) Demo.inherited 5 1 [] Demo.st0) =
    Throw (VStr "boom") /\
  isDestroyed
    (final (destroy (Demo2.failing Demo2.removing_children) Demo.inherited 5 1 [] Demo.st0)) 1 =
    true /\
  outcome (destroy (Demo2.failing Demo2.before_destroy_handler) Demo.inherited 5 1 [] Demo.st0) =
    Throw (VStr "boom") /\
  isDestroyed
    (final (destroy (Demo2.failing Demo2.before_destroy_handler) Demo.inherited 5 1 []
              Demo.st0)) 1 = false.
Proof.
  split; [ reflexivity | ].
  split; [ reflexivity | ].
  split.
  - destruct (destroy_interrupted Demo.Env
                (Demo2.failing Demo2.removing_children) Demo.inherited 5 1 [] Demo.st0
                (VStr "boom") eq_refl eq_refl) as [(H & _) | (_ & H & _)].
    + discriminate H.
    + exact H.
  - split; [ reflexivity | ].
    destruct (destroy_interrupted Demo.Env
                (Demo2.failing Demo2.before_destroy_handler) Demo.inherited 5 1 [] Demo.st0
                (VStr "boom") eq_refl eq_refl) as [(_ & H & _) | ((x & H) & _)].
    + unfold isDestroyed. rewrite H. reflexivity.
    + discriminate H.
Defined.

(** [destroy] on view 1 when [_removeChildren] throws: the view is
    flagged, the element removed, and the run stops there. *)
Example destroy_interrupted_log :
  log (destroy (Demo2.failing Demo2.removing_children) Demo.inherited 5 1 [] Demo.st0) =
  [Call (TriggerMethod_import 1 "before:destroy" [])
        (Normal (VStr "handled before:destroy"));
   Call (TriggerEventOnBehaviors 1 "before:destroy" []) (Normal VUndefined);
   Call (TriggerMethod_import 3 "childview:before:destroy" [])
        (Normal (VStr "handled childview:before:destroy"));
   Call (TriggerEventOnBehaviors 3 "childview:before:destroy" [])
        (Normal VUndefined);
   Call (NormalizeMethods 3 (VObj [("save", VFun 5)]))
        (Normal (VObj [("save", VFun 5)]));
   Assign 1 (Set_isDestroyed true);
   Assign 1 (Set_isRendered false);
   Call (UnbindUIElements_ 1) (Normal VUndefined);
   Call (UnbindBehaviorUIElements 1) (Normal VUndefined);
   Call (RemoveElement 1) (Normal VUndefined);
   Call (RemoveChildren 1) (Thrown (VStr "boom"))].
Proof. reflexivity. Qed.

Lemma stopListening_comes_last_witness :
  outcome (destroy (Demo2.failing Demo2.releasing) Demo.inherited 5 1 [] Demo.st0) =
    Throw (VStr "boom") /\
  In (Call (StopListening 1) (Thrown (VStr "boom")))
     (log (destroy (Demo2.failing Demo2.releasing) Demo.inherited 5 1 [] Demo.st0)) /\
  Thrown (VStr "boom") = Thrown (VStr "boom").
Proof.
  split; [ reflexivity | ].
  assert (I : In (Call (StopListening 1) (Thrown (VStr "boom")))
                 (log (destroy (Demo2.failing Demo2.releasing) Demo.inherited 5 1 []
                         Demo.st0))).
  { vm_compute. tauto. }
  split; [ exact I | ].
  apply (proj2 (stopListening_comes_last Demo.Env
                  (Demo2.failing Demo2.releasing) Demo.inherited 5 1 [] Demo.st0)
               (VStr "boom") (Thrown (VStr "boom")) eq_refl I).
Defined.

Lemma delegateEvents_stores_witness :
  outcome (delegateEvents Demo.perform 1 VNull Demo.st0) = Ok 1 /\
  exists cve cvt raw viewEvents,
    nth_error (log (delegateEvents Demo.perform 1 VNull Demo.st0)) 1 =
      Some (Call (GetValue 1 (getOption (heap Demo.st0 1) "childViewEvents"))
                 (Normal cve)) /\
    nth_error (log (delegateEvents Demo.perform 1 VNull Demo.st0)) 3 =
      Some (Call (GetValue 1 (getOption (heap Demo.st0 1) "childViewTriggers"))
                 (Normal cvt)) /\
    nth_error (log (delegateEvents Demo.perform 1 VNull Demo.st0)) 5 =
      Some (Call (GetValue 1 (js_or VNull (events (heap Demo.st0 1))))
                 (Normal raw)) /\
    nth_error (log (delegateEvents Demo.perform 1 VNull Demo.st0)) 6 =
      Some (Call (NormalizeUIKeys 1 raw) (Normal viewEvents)) /\
    _childViewEvents (heap (final (delegateEvents Demo.perform 1 VNull Demo.st0)) 1)
      = cve /\
    _childViewTriggers (heap (final (delegateEvents Demo.perform 1 VNull Demo.st0)) 1)
      = cvt /\
    events (heap (final (delegateEvents Demo.perform 1 VNull Demo.st0)) 1) =
      (if isUndefined VNull then viewEvents else events (heap Demo.st0 1)) /\
    _isDestroyed (heap (final (delegateEvents Demo.perform 1 VNull Demo.st0)) 1) =
      _isDestroyed (heap Demo.st0 1) /\
    _isRendered (heap (final (delegateEvents Demo.perform 1 VNull Demo.st0)) 1) =
      _isRendered (heap Demo.st0 1) /\
    forall x, x <> 1 ->
              heap (final (delegateEvents Demo.perform 1 VNull Demo.st0)) x =
              heap Demo.st0 x.
Proof.
  split; [ reflexivity | ].
  apply (delegateEvents_stores Demo.Env Demo.perform 1 VNull Demo.st0 1).
  reflexivity.
Defined.

Lemma parentView_loops_on_cycle_witness :
  _parent (heap Demo2.st0 20) = Some 21 /\
  (forall fuel, outcome (_parentView fuel 20 Demo2.st0) = Diverge) /\
  (forall r, ~ nearest_view Demo2.store (Some 21) r).
Proof.
  split; [ reflexivity | ].
  apply (parentView_loops_on_cycle Demo.Env (fun x => x = 21) 20 Demo2.st0 21).
  - intros x ->. split; [ reflexivity | ]. exists 21. split; reflexivity.
  - reflexivity.
  - reflexivity.
Defined.

Lemma mixinTemplateContext_merge_witness :
  outcome (mixinTemplateContext Demo.perform 1
             (VObj [("b", VNum 2); ("a", VNum 3)])
             (Some [("a", VNum 1); ("c", VNum 4)]) Demo.st0) =
    Ok (VObj [("a", VNum 3); ("c", VNum 4); ("b", VNum 2)]) /\
  exists templateContext,
    log (mixinTemplateContext Demo.perform 1
           (VObj [("b", VNum 2); ("a", VNum 3)])
           (Some [("a", VNum 1); ("c", VNum 4)]) Demo.st0) =
      [Call (GetValue 1 (VObj [("b", VNum 2); ("a", VNum 3)]))
            (Normal templateContext)] /\
    heap (final (mixinTemplateContext Demo.perform 1
                   (VObj [("b", VNum 2); ("a", VNum 3)])
                   (Some [("a", VNum 1); ("c", VNum 4)]) Demo.st0)) =
      heap Demo.st0 /\
    (forall k,
        lookup_prop k
          (props_of (VObj [("a", VNum 3); ("c", VNum 4); ("b", VNum 2)])) =
        match lookup_prop k (props_of templateContext) with
        | Some x => Some x
        | None => lookup_prop k [("a", VNum 1); ("c", VNum 4)]
        end) /\
    (props_of templateContext = [] ->
     VObj [("a", VNum 3); ("c", VNum 4); ("b", VNum 2)] =
     VObj [("a", VNum 1); ("c", VNum 4)]).
Proof.
  split; [ reflexivity | ].
  apply (mixinTemplateContext_merge Demo.Env Demo.perform 1
           (VObj [("b", VNum 2); ("a", VNum 3)])
           (Some [("a", VNum 1); ("c", VNum 4)]) Demo.st0
           (VObj [("a", VNum 3); ("c", VNum 4); ("b", VNum 2)])).
  reflexivity.
Defined.

Lemma getUI_after_destroy_witness :
  outcome (destroy Demo.perform Demo.inherited 5 5 [] Demo.st0) = Ok 5 /\
  getUI Demo.perform 5 "foo" (final (destroy Demo.perform Demo.inherited 5 5 [] Demo.st0)) =
  mkRun (Throw (ViewDestroyedError Demo.attached))
        (final (destroy Demo.perform Demo.inherited 5 5 [] Demo.st0)) [].
Proof.
  split; [ reflexivity | ].
  apply (getUI_after_destroy Demo.Env Demo.perform Demo.inherited 5 5 [] Demo.st0 5 "foo").
  reflexivity.
Defined.

(** View 11 triggers ['save']: view 12 hears ['item:save'] and view 14,
    two parent views up, ['list:item:save']. *)
Lemma event_reaches_ancestors_witness :
  outcome (Open.triggerMethod (Open.quiet Demo.perform) Demo.inherited 5 11
             "save" [] Demo2.st0) = Ok (VStr "handled save") /\
  forwarded Demo2.store 11 "save" 14 "list:item:save" /\
  exists x,
    In (Call (TriggerMethod_import 14 "list:item:save" []) (Normal x))
       (log (Open.triggerMethod (Open.quiet Demo.perform) Demo.inherited 5 11
               "save" [] Demo2.st0)).
Proof.
  assert (F : forwarded Demo2.store 11 "save" 14 "list:item:save").
  { apply forwarded_up with (p := 12).
    - apply nearest_here. reflexivity.
    - apply forwarded_up with (p := 14).
      + apply nearest_skip; [ reflexivity | ]. apply nearest_here. reflexivity.
      + apply forwarded_here. }
  split; [ reflexivity | ].
  split; [ exact F | ].
  apply (event_reaches_ancestors Demo.Env (Open.quiet Demo.perform)
           Demo.inherited 5 11 "save" [] Demo2.st0 (VStr "handled save") 14
           "list:item:save").
  - apply quiet_keeps_tree.
  - reflexivity.
  - exact F.
Defined.

(** View 11 is destroyed: view 12, its parent view, hears of both
    events under its prefix. *)
Lemma destroy_notifies_parent_witness :
  isDestroyed Demo2.st0 11 = false /\
  outcome (Open.destroy (Open.quiet Demo.perform) Demo.inherited 5 11 []
             Demo2.st0) = Ok 11 /\
  nearest_view Demo2.store (Some 12) (Some 12) /\
  exists a x b c y d,
    log (Open.destroy (Open.quiet Demo.perform) Demo.inherited 5 11 []
           Demo2.st0) =
    a ++ Call (TriggerMethod_import 12 "item:before:destroy" []) (Normal x)
      :: b ++ Assign 11 (Set_isDestroyed true)
      :: c ++ Call (TriggerMethod_import 12 "item:destroy" []) (Normal y)
      :: d.
Proof.
  assert (N : nearest_view Demo2.store (Some 12) (Some 12)).
  { apply nearest_here. reflexivity. }
  split; [ reflexivity | ].
  split; [ reflexivity | ].
  split; [ exact N | ].
  apply (destroy_notifies_parent Demo.Env (Open.quiet Demo.perform)
           Demo.inherited 5 11 [] Demo2.st0 11 12).
  - apply quiet_keeps_tree.
  - reflexivity.
  - reflexivity.
  - exact N.
Defined.

Lemma destroy_of_detached_view_is_not_forwarded_witness :
  isDestroyed Demo.st0 1 = false /\
  outcome (Open.destroy Demo3.perform Demo.inherited 5 1 [] Demo.st0) = Ok 1 /\
  exists x1 st1 l1 y1 y2 y3 y4 y5 x2 b2 y6,
    yields (Open.triggerMethod Demo3.perform Demo.inherited 5 1 "before:destroy"
              []) Demo.st0 x1 st1 l1 /\
    log (Open.destroy Demo3.perform Demo.inherited 5 1 [] Demo.st0) =
    l1
    ++ [Assign 1 (Set_isDestroyed true);
        Assign 1 (Set_isRendered false);
        Call (UnbindUIElements_ 1) (Normal y1);
        Call (UnbindBehaviorUIElements 1) (Normal y2);
        Call (RemoveElement 1) (Normal y3);
        Call (RemoveChildren 1) (Normal y4);
        Call (DestroyBehaviors 1 []) (Normal y5);
        Call (TriggerMethod_import 1 "destroy" []) (Normal x2);
        Call (TriggerEventOnBehaviors 1 "destroy" []) (Normal b2);
        Call (StopListening 1) (Normal y6)].
Proof.
  split; [ reflexivity | ].
  split; [ reflexivity | ].
  apply (destroy_of_detached_view_is_not_forwarded Demo.Env Demo3.perform
           Demo.inherited 5 1 [] Demo.st0 1).
  - intros h e. unfold Open.written. simpl. unfold update. reflexivity.
  - intros h e P. exact P.
  - reflexivity.
  - reflexivity.
Defined.

Lemma triggerMethod_cannot_return_on_cycle_witness :
  nearest_view Demo2.store (Some 22) (Some 22) /\
  (forall fuel eventName args r,
      outcome (Open.triggerMethod (Open.quiet Demo.perform) Demo.inherited fuel
                 22 eventName args Demo2.st0) <> Ok r) /\
  isDestroyed Demo2.st0 22 = false /\
  forall fuel args,
    (forall r,
        outcome (Open.destroy (Open.quiet Demo.perform) Demo.inherited fuel 22
                   args Demo2.st0) <> Ok r) /\
    Forall is_call
      (log (Open.destroy (Open.quiet Demo.perform) Demo.inherited fuel 22 args
              Demo2.st0)).
Proof.
  assert (N : nearest_view Demo2.store (Some 22) (Some 22)).
  { apply nearest_here. reflexivity. }
  destruct (triggerMethod_cannot_return_on_cycle Demo.Env
              (Open.quiet Demo.perform) Demo.inherited (fun x => x = 22) 22
              Demo2.st0 (quiet_keeps_tree Demo.Env Demo.perform))
    as (T & D).
  - intros x ->. exists 22. split; [ reflexivity | exact N ].
  - reflexivity.
  - split; [ exact N | ].
    split; [ exact T | ].
    split; [ reflexivity | ].
    apply D. reflexivity.
Defined.
